(** * WhisprBar: hotkey binding, hotkey listener, recording session and
    voice-activity segmentation (src/whisprbar.py), as a shallow embedding.

    Conventions of the embedding.
    - A Python [str] is a [string]; the text functions ([strip], [upper],
      [lower], [split]) are the ASCII fragment of Python's.
    - A Python [frozenset] of names is a [gset string].
    - A call that can raise returns a [py_result]; [Raised] is an exception
      that leaves the function.
    - Libraries the program calls (pynput, sounddevice, webrtcvad, numpy's
      floating point) are interfaces: type classes whose instances are the
      possible behaviours of the library. *)

From Stdlib Require Import ZArith QArith Lia String Ascii List DecimalString.
From stdpp Require Import base list gmap strings sorting.
Import ListNotations.

(* ================================================================== *)
(** * Part I. Definitions                                              *)
(* ================================================================== *)

(** ** Exceptions *)

(** An exception object: its class name and its message ([str(exc)]). *)
Record py_exception := Exception { exc_class : string; exc_msg : string }.

Inductive py_result (A : Type) : Type :=
| Returned (a : A)
| Raised (e : py_exception).
Arguments Returned {A} a.
Arguments Raised {A} e.

Definition IndexError : py_exception :=
  Exception "IndexError" "index out of range".

(** ** Python text, ASCII fragment *)

(** [str.isspace] on one character. *)
Definition is_space (c : ascii) : bool :=
  let n := nat_of_ascii c in
  ((9 <=? n) && (n <=? 13)) || ((28 <=? n) && (n <=? 32)).

Definition upper_char (c : ascii) : ascii :=
  let n := nat_of_ascii c in
  if (97 <=? n) && (n <=? 122) then ascii_of_nat (n - 32) else c.

Definition lower_char (c : ascii) : ascii :=
  let n := nat_of_ascii c in
  if (65 <=? n) && (n <=? 90) then ascii_of_nat (n + 32) else c.

Fixpoint upper (s : string) : string :=
  match s with
  | EmptyString => EmptyString
  | String c s' => String (upper_char c) (upper s')
  end.

Fixpoint lower (s : string) : string :=
  match s with
  | EmptyString => EmptyString
  | String c s' => String (lower_char c) (lower s')
  end.

Fixpoint lstrip (s : string) : string :=
  match s with
  | EmptyString => EmptyString
  | String c s' => if is_space c then lstrip s' else s
  end.

Fixpoint rstrip (s : string) : string :=
  match s with
  | EmptyString => EmptyString
  | String c s' =>
      match rstrip s' with
      | EmptyString => if is_space c then EmptyString else String c EmptyString
      | r => String c r
      end
  end.

(** [s.strip()] *)
Definition strip (s : string) : string := rstrip (lstrip s).

(** [s.split(sep)] for a one-character separator: empty pieces are kept. *)
Fixpoint split (sep : ascii) (s : string) : list string :=
  match s with
  | EmptyString => [EmptyString]
  | String c s' =>
      if Ascii.eqb c sep then EmptyString :: split sep s'
      else match split sep s' with
           | [] => [String c EmptyString]
           | p :: ps => String c p :: ps
           end
  end.

(** [sep.join(parts)] *)
Fixpoint join (sep : string) (parts : list string) : string :=
  match parts with
  | [] => EmptyString
  | [p] => p
  | p :: ps => p +:+ sep +:+ join sep ps
  end.

(** [needle in hay] on strings. *)
Fixpoint is_prefix (p s : string) : bool :=
  match p, s with
  | EmptyString, _ => true
  | String a p', String b s' => Ascii.eqb a b && is_prefix p' s'
  | String _ _, EmptyString => false
  end.

Fixpoint is_substring (needle hay : string) : bool :=
  is_prefix needle hay ||
  match hay with
  | EmptyString => false
  | String _ hay' => is_substring needle hay'
  end.

(** Truthiness of a [str]. *)
Definition nonempty (s : string) : bool :=
  match s with EmptyString => false | _ => true end.

(** [f"{idx}"] for a natural number. *)
Definition str_of_nat (n : nat) : string :=
  NilZero.string_of_uint (Nat.to_uint n).

(** [parts[-1]]: raises [IndexError] on the empty list. *)
Definition index_last {A} (l : list A) : py_result A :=
  match last l with
  | Some x => Returned x
  | None => Raised IndexError
  end.

(** [parts[:-1]] *)
Definition all_but_last {A} (l : list A) : list A := take (length l - 1) l.

(** ** pynput: the keyboard library *)

(** A key object delivered by pynput: a member of the enum [keyboard.Key]
    (identified by [key_id]; two attribute names may be aliases of one
    member) or a [keyboard.KeyCode], whose [char] may be [None]. *)
Inductive key : Type :=
| Key (key_id : nat)
| KeyCode (char : option string).

Definition key_eqb (a b : key) : bool :=
  match a, b with
  | Key i, Key j => Nat.eqb i j
  | KeyCode (Some c), KeyCode (Some d) => String.eqb c d
  | KeyCode None, KeyCode None => true
  | _, _ => false
  end.

(** What the program reads from pynput: [getattr(keyboard.Key, name, None)]
    and [keyboard.Key.esc]. *)
Class Pynput := {
  Key_attr : string -> option nat;
  Key_esc : nat
}.

(** pynput's documented [Key] members that the program asks for, each a
    member of its own; [f21]..[f24] and [super*] are not among them. *)
Definition pynput_names : list string :=
  ["alt"; "alt_l"; "alt_r"; "alt_gr"; "cmd"; "cmd_l"; "cmd_r"; "ctrl";
   "ctrl_l"; "ctrl_r"; "shift"; "shift_l"; "shift_r"; "esc";
   "f1"; "f2"; "f3"; "f4"; "f5"; "f6"; "f7"; "f8"; "f9"; "f10";
   "f11"; "f12"; "f13"; "f14"; "f15"; "f16"; "f17"; "f18"; "f19"; "f20"]%string.

Fixpoint index_of (x : string) (l : list string) (i : nat) : option nat :=
  match l with
  | [] => None
  | y :: l' => if String.eqb x y then Some i else index_of x l' (S i)
  end.

Definition pynput_base : Pynput :=
  {| Key_attr := fun name => index_of name pynput_names 0;
     Key_esc := 13 |}.

(** ** Hotkey binding (whisprbar.py 612-727) *)

(** [HotkeyBinding = Tuple[frozenset[str], str]] *)
Definition HotkeyBinding : Type := gset string * string.

(** [FKEYS]: a dict, in insertion order. *)
Definition FKEYS `{Pynput} : list (string * key) :=
  flat_map
    (fun idx =>
       match Key_attr ("f" +:+ str_of_nat idx) with
       | Some key_obj => [("F" +:+ str_of_nat idx, Key key_obj)]
       | None => []
       end)
    (seq 1 24).

(** [token in FKEYS] *)
Definition in_FKEYS `{Pynput} (token : string) : bool :=
  existsb (String.eqb token) (map fst FKEYS).

Definition _collect_keys `{Pynput} (names : list string) : list key :=
  flat_map
    (fun name =>
       match Key_attr name with
       | Some key_obj => [Key key_obj]
       | None => []
       end)
    names.

Definition MODIFIER_MAP `{Pynput} : list (string * list key) :=
  [("CTRL", _collect_keys ["ctrl"; "ctrl_l"; "ctrl_r"]);
   ("ALT", _collect_keys ["alt"; "alt_l"; "alt_r"]);
   ("SHIFT", _collect_keys ["shift"; "shift_l"; "shift_r"]);
   ("SUPER", _collect_keys ["cmd"; "cmd_l"; "cmd_r"; "super"; "super_l"; "super_r"])]%string.

(** [name in MODIFIER_MAP] *)
Definition in_MODIFIER_MAP `{Pynput} (name : string) : bool :=
  existsb (String.eqb name) (map fst MODIFIER_MAP).

(** [MODIFIER_LOOKUP]: the dict comprehension, as the list of its
    insertions; a later insertion of a key replaces an earlier one. *)
Definition MODIFIER_LOOKUP `{Pynput} : list (key * string) :=
  flat_map (fun '(name, keys) => map (fun k => (k, name)) keys) MODIFIER_MAP.

Definition dict_get {V} (d : list (key * V)) (k : key) : option V :=
  match filter (fun kv => key_eqb k (fst kv) = true) (rev d) with
  | kv :: _ => Some (snd kv)
  | [] => None
  end.

(** [MODIFIER_ORDER.get(x, 99)] *)
Definition MODIFIER_ORDER_get (m : string) : nat :=
  if String.eqb m "CTRL" then 0
  else if String.eqb m "SHIFT" then 1
  else if String.eqb m "ALT" then 2
  else if String.eqb m "SUPER" then 3
  else 99.

Definition normalize_key_token `{Pynput} (token : option string) : option string :=
  let token := upper (strip (default EmptyString token)) in
  if negb (nonempty token) then None
  else if in_FKEYS token then Some token
  else if Nat.eqb (String.length token) 1 then Some token
  else None.

Definition fallback_binding : HotkeyBinding := (∅, "F9"%string).

(** The local [parts] of [parse_hotkey], after the first [strip]. *)
Definition hotkey_parts (binding : string) : list string :=
  filter (fun part => nonempty part = true)
         (map strip (split "+" binding)).

Definition parse_hotkey `{Pynput} (binding : option string) : py_result HotkeyBinding :=
  let binding := strip (default EmptyString binding) in
  if negb (nonempty binding) then Returned fallback_binding
  else
    let parts := hotkey_parts binding in
    match parts with
    | [] => Returned fallback_binding
    | _ =>
        match index_last parts with
        | Raised e => Raised e
        | Returned last_part =>
            match normalize_key_token (Some last_part) with
            | None => Returned fallback_binding
            | Some key_token =>
                let modifiers : gset string :=
                  list_to_set
                    (map upper
                       (filter (fun part => in_MODIFIER_MAP (upper part) = true)
                               (all_but_last parts))) in
                Returned (modifiers, key_token)
            end
        end
    end.

(** [sorted(modifiers, key=lambda x: MODIFIER_ORDER.get(x, 99))]: the
    order of two names with the same rank is that of the set's iteration,
    which the language leaves open; names of the four modifiers have
    different ranks. *)
Definition modifier_le (a b : string) : Prop :=
  MODIFIER_ORDER_get a <= MODIFIER_ORDER_get b.

#[global] Instance modifier_le_dec (a b : string) : Decision (modifier_le a b).
Proof. unfold modifier_le. apply _. Defined.

Definition sorted_modifiers (modifiers : gset string) : list string :=
  merge_sort modifier_le (elements modifiers).

(** The argument of [key_to_label] and [key_to_config_string]: a binding
    tuple or a key object. *)
Inductive key_obj_arg : Type :=
| TupleArg (b : HotkeyBinding)
| KeyArg (k : key).

Fixpoint fkeys_name_of (fk : list (string * key)) (k : key) : option string :=
  match fk with
  | [] => None
  | (name, key_obj) :: fk' =>
      if key_eqb k key_obj then Some name else fkeys_name_of fk' k
  end.

Definition key_to_config_string `{Pynput} (key_obj : key_obj_arg) : string :=
  match key_obj with
  | TupleArg (modifiers, token) =>
      join "+" (sorted_modifiers modifiers ++ [upper token])
  | KeyArg k =>
      match fkeys_name_of FKEYS k with
      | Some name => name
      | None =>
          match k with
          | KeyCode (Some char) =>
              if nonempty char then upper char else "F9"%string
          | _ => "F9"%string
          end
      end
  end.

Definition hotkey_to_config `{Pynput} (binding : HotkeyBinding) : string :=
  key_to_config_string (TupleArg binding).

Definition event_to_token `{Pynput} (k : key) : option string :=
  match fkeys_name_of FKEYS k with
  | Some name => Some name
  | None =>
      match k with
      | KeyCode (Some char) =>
          if nonempty char then
            let char := strip char in
            if Nat.eqb (String.length char) 1 then Some (upper char) else None
          else None
      | _ => None
      end
  end.

Definition modifier_name `{Pynput} (k : key) : option string :=
  dict_get MODIFIER_LOOKUP k.

(** ** Predicates on text used in the statements *)

Definition head_ok (s : string) : bool :=
  match s with
  | EmptyString => false
  | String c _ => negb (is_space c)
  end.

Fixpoint last_ok (s : string) : bool :=
  match s with
  | EmptyString => false
  | String c EmptyString => negb (is_space c)
  | String _ s' => last_ok s'
  end.

Fixpoint no_sep (sep : ascii) (s : string) : bool :=
  match s with
  | EmptyString => true
  | String c s' => negb (Ascii.eqb c sep) && no_sep sep s'
  end.

(** A piece that survives [split], [strip] and the emptiness filter. *)
Definition clean_part (p : string) : bool :=
  head_ok p && last_ok p && no_sep "+" p.

Definition fkey_names : list string :=
  map (fun idx => "F" +:+ str_of_nat idx) (seq 1 24).

Definition is_fkey_name (t : string) : bool :=
  existsb (String.eqb t) fkey_names.


(** The key tokens the program itself stores: a key of [FKEYS], or one
    ASCII character that is no white space, is its own upper case and is
    not the separator of the config string. *)
Definition storable_token `{Pynput} (token : string) : Prop :=
  in_FKEYS token = true \/
  exists c : ascii,
    token = String c EmptyString /\ nat_of_ascii c < 128 /\
    is_space c = false /\ upper_char c = c /\ c <> "+"%char.

Definition modifier_names : gset string :=
  {[ "CTRL"%string; "ALT"%string; "SHIFT"%string; "SUPER"%string ]}.

(** ** Hotkey listener (whisprbar.py 757-801) *)

(** The closure variables of [start_hotkey_listener]. *)
Record listener_state := {
  active_modifiers : gset string;
  active_tokens : gset string
}.

Definition listener_init : listener_state :=
  {| active_modifiers := ∅; active_tokens := ∅ |}.

(** What a callback does to the recording session. *)
Inductive listener_action := NoAction | StopRecording | ToggleRecording.

(** One callback invocation: press or release of [ev_key], together with
    what the callback reads from the global [state] at that moment,
    [state.get("recording")] and [state.get("hotkey_capture_active")]. *)
Record key_event := {
  ev_press : bool;
  ev_key : key;
  ev_recording : bool;
  ev_capture : bool
}.

Definition on_press `{Pynput} (HOTKEY_KEY : HotkeyBinding)
    (recording capture : bool) (k : key) (st : listener_state)
  : listener_state * listener_action :=
  if recording && key_eqb k (Key Key_esc) then (st, StopRecording)
  else if capture then (st, NoAction)
  else
    match modifier_name k with
    | Some modn =>
        ({| active_modifiers := {[ modn ]} ∪ active_modifiers st;
            active_tokens := active_tokens st |}, NoAction)
    | None =>
        match event_to_token k with
        | None => (st, NoAction)
        | Some token =>
            let '(required_mods, required_token) := HOTKEY_KEY in
            if negb (String.eqb token required_token) then (st, NoAction)
            else if decide (token ∈ active_tokens st) then (st, NoAction)
            else
              let st' := {| active_modifiers := active_modifiers st;
                            active_tokens := {[ token ]} ∪ active_tokens st |} in
              if decide (required_mods ⊆ active_modifiers st)
              then (st', ToggleRecording)
              else (st', NoAction)
        end
    end.

Definition on_release `{Pynput} (capture : bool) (k : key) (st : listener_state)
  : listener_state :=
  if capture then st
  else
    let st1 :=
      match modifier_name k with
      | Some modn =>
          {| active_modifiers := active_modifiers st ∖ {[ modn ]};
             active_tokens := active_tokens st |}
      | None => st
      end in
    match event_to_token k with
    | Some token =>
        {| active_modifiers := active_modifiers st1;
           active_tokens := active_tokens st1 ∖ {[ token ]} |}
    | None => st1
    end.

Definition listener_step `{Pynput} (HOTKEY_KEY : HotkeyBinding)
    (e : key_event) (st : listener_state) : listener_state * listener_action :=
  if ev_press e
  then on_press HOTKEY_KEY (ev_recording e) (ev_capture e) (ev_key e) st
  else (on_release (ev_capture e) (ev_key e) st, NoAction).

(** The action of each event of a run, in order. *)
Fixpoint listener_run `{Pynput} (HOTKEY_KEY : HotkeyBinding)
    (evs : list key_event) (st : listener_state) : list listener_action :=
  match evs with
  | [] => []
  | e :: evs' =>
      let '(st', a) := listener_step HOTKEY_KEY e st in
      a :: listener_run HOTKEY_KEY evs' st'
  end.

Definition listener_after `{Pynput} (HOTKEY_KEY : HotkeyBinding)
    (evs : list key_event) (st : listener_state) : listener_state :=
  fold_left (fun s e => fst (listener_step HOTKEY_KEY e s)) evs st.

(** A key is physically held after [evs] when its last event is a press. *)
Definition key_held (evs : list key_event) (k : key) : bool :=
  fold_left (fun h e => if key_eqb (ev_key e) k then ev_press e else h) evs false.

(** The event is a key-up of the token [tok]. *)
Definition is_key_up `{Pynput} (tok : string) (e : key_event) : Prop :=
  ev_press e = false /\ event_to_token (ev_key e) = Some tok.

(** The event is a key-down of the token [tok]. *)
Definition is_key_down `{Pynput} (tok : string) (e : key_event) : Prop :=
  ev_press e = true /\ event_to_token (ev_key e) = Some tok.

(** ** Process state, configuration and the effect monad *)

(** The keys of [cfg] that the modelled functions read; [None] is an
    absent key, so that [cfg.get(key, default)] is [default d (key cfg)].
    Values have the types the settings window writes. *)
Record config := {
  device_name : option string;
  notifications_enabled : option bool;
  use_vad : option bool;
  vad_mode : option Z;
  vad_energy_floor : option Q;
  vad_energy_ratio : option Q;
  vad_min_energy_frames : option Z;
  vad_bridge_ms : option Z;
  vad_padding_ms : option Z;
  vad_min_output_ratio : option Q
}.

(** [DEFAULT_CFG], for the keys above. *)
Definition DEFAULT_CFG : config :=
  {| device_name := None;
     notifications_enabled := Some false;
     use_vad := Some false;
     vad_mode := None;
     vad_energy_floor := None;
     vad_energy_ratio := Some (2 # 100)%Q;
     vad_min_energy_frames := Some 2%Z;
     vad_bridge_ms := Some 180%Z;
     vad_padding_ms := None;
     vad_min_output_ratio := None |}.

(** Module constants fixed when the module is imported. *)
Class ModuleGlobals := {
  DEBUG : bool;
  VAD_AVAILABLE : bool
}.

Definition APP_NAME : string := "WhisprBar".

(** The entries of the global dict [state] that the session uses. *)
Record app_state := {
  recording : bool;
  device_idx : option nat;
  stream : option nat
}.

(** What leaves the process. *)
Inductive output :=
| NotifySend (title message : string)
| Stdout (line : string)
| Stderr (line : string).

(** The mutable globals and the outputs so far, oldest first.  A queue
    object is the list of the chunks put into it. *)
Record world := {
  state : app_state;
  AUDIO_QUEUE : option (list (list Q));
  outputs : list output
}.

(** A computation on the globals that returns or raises. *)
Definition M (A : Type) : Type := world -> py_result A * world.

#[global] Instance M_ret : MRet M := fun A a w => (Returned a, w).
#[global] Instance M_bind : MBind M := fun A B f m w =>
  match m w with
  | (Returned a, w') => f a w'
  | (Raised e, w') => (Raised e, w')
  end.

(** [try: body except Exception as exc: handler exc]; what the body did
    to the globals before it raised stays done. *)
Definition try_except {A} (body : M A) (handler : py_exception -> M A) : M A :=
  fun w =>
    match body w with
    | (Returned a, w') => (Returned a, w')
    | (Raised e, w') => handler e w'
    end.

(** The outcome of a library call. *)
Definition call {A} (r : py_result A) : M A := fun w => (r, w).

Definition get_state : M app_state := fun w => (Returned (state w), w).

Definition set_state (f : app_state -> app_state) : M unit :=
  fun w => (Returned tt,
            {| state := f (state w); AUDIO_QUEUE := AUDIO_QUEUE w;
               outputs := outputs w |}).

Definition set_AUDIO_QUEUE (q : option (list (list Q))) : M unit :=
  fun w => (Returned tt,
            {| state := state w; AUDIO_QUEUE := q; outputs := outputs w |}).

Definition emit (o : output) : M unit :=
  fun w => (Returned tt,
            {| state := state w; AUDIO_QUEUE := AUDIO_QUEUE w;
               outputs := outputs w ++ [o] |}).

(** [notify(message)]: the [Popen] of notify-send, whose own failure is
    swallowed. *)
Definition notify (cfg : config) (message : string) : M unit :=
  if negb (default true (notifications_enabled cfg)) then mret tt
  else emit (NotifySend APP_NAME message).

Definition debug `{ModuleGlobals} (message : string) : M unit :=
  if DEBUG then emit (Stdout ("[DEBUG] " +:+ message)) else mret tt.

(** ** sounddevice and the tray *)

(** One entry of [sd.query_devices()]. *)
Record device_info := {
  max_input_channels : option Z;
  dev_name : option string
}.

Class Sounddevice := {
  sd_query_devices : py_result (list device_info);
  (** [sd.InputStream(..., device=idx)]: a stream handle, or an exception *)
  sd_InputStream : option nat -> py_result nat;
  (** [stream.start()] *)
  sd_stream_start : nat -> py_result unit
}.

Class Tray := {
  tray_refresh_indicator : py_result unit;
  tray_refresh_menu : py_result unit
}.

(** ** Recording session (whisprbar.py 807-827, 916-918, 955-981) *)

Fixpoint enumerate_from {A} (i : nat) (l : list A) : list (nat * A) :=
  match l with
  | [] => []
  | x :: l' => (i, x) :: enumerate_from (S i) l'
  end.

(** The dicts [{"index": idx, "name": ...}] as pairs. *)
Definition list_input_devices `{Sounddevice} : M (list (nat * string)) :=
  infos ← call sd_query_devices;
  mret (flat_map
          (fun '(idx, info) =>
             if (0 <? default 0 (max_input_channels info))%Z
             then [(idx, default ("Device " +:+ str_of_nat idx) (dev_name info))]
             else [])
          (enumerate_from 0 infos)).

Fixpoint first_match (p : string -> bool) (devices : list (nat * string)) : option nat :=
  match devices with
  | [] => None
  | (idx, dev) :: devices' => if p dev then Some idx else first_match p devices'
  end.

Definition find_device_index_by_name `{Sounddevice} (dname : option string)
  : M (option nat) :=
  match dname with
  | None => mret None
  | Some dname =>
      if negb (nonempty dname) then mret None
      else
        devices ← list_input_devices;
        match first_match (fun dev => String.eqb (lower dev) (lower dname)) devices with
        | Some idx => mret (Some idx)
        | None =>
            devices ← list_input_devices;
            mret (first_match (fun dev => is_substring (lower dname) (lower dev)) devices)
        end
  end.

Definition update_device_index `{Sounddevice} (cfg : config) : M unit :=
  idx ← find_device_index_by_name (device_name cfg);
  set_state (fun s => {| recording := recording s; device_idx := idx;
                         stream := stream s |}).

Definition refresh_tray_indicator `{Tray} : M unit := call tray_refresh_indicator.
Definition refresh_menu `{Tray} : M unit := call tray_refresh_menu.

Definition start_recording `{ModuleGlobals} `{Sounddevice} `{Tray} (cfg : config)
  : M unit :=
  s ← get_state;
  if recording s then mret tt
  else
    update_device_index cfg;;
    try_except
      (set_AUDIO_QUEUE (Some []);;
       s ← get_state;
       stream_obj ← call (sd_InputStream (device_idx s));
       call (sd_stream_start stream_obj);;
       set_state (fun s => {| recording := recording s; device_idx := device_idx s;
                              stream := Some stream_obj |});;
       set_state (fun s => {| recording := true; device_idx := device_idx s;
                              stream := stream s |});;
       notify cfg "Recording started.";;
       debug "Recording started";;
       refresh_tray_indicator;;
       refresh_menu)
      (fun exc =>
         set_AUDIO_QUEUE None;;
         notify cfg ("Unable to start recording: " +:+ exc_msg exc);;
         emit (Stderr ("[ERROR] start_recording failed: " +:+ exc_msg exc))).


(** ** Boolean masks (numpy arrays of bool, one entry per frame) *)

(** [np.flatnonzero(mask)]: the indices of the true entries, ascending. *)
Fixpoint flatnonzero_from (i : nat) (mask : list bool) : list nat :=
  match mask with
  | [] => []
  | b :: mask' =>
      if b then i :: flatnonzero_from (S i) mask'
      else flatnonzero_from (S i) mask'
  end.

Definition flatnonzero (mask : list bool) : list nat := flatnonzero_from 0 mask.

(** [cleaned[a:b] = False] *)
Fixpoint clear_range (l : list bool) (a b : nat) : list bool :=
  match l with
  | [] => []
  | x :: l' =>
      match b with
      | 0 => l
      | S b' =>
          match a with
          | 0 => false :: clear_range l' 0 b'
          | S a' => x :: clear_range l' a' b'
          end
      end
  end.

(** [mask.any()] *)
Definition any (mask : list bool) : bool := existsb (fun b => b) mask.

(** ** [_drop_short_runs] (whisprbar.py 1161-1183) *)

(** One pass of the loop body for the index [val]; the accumulator is
    [(cleaned, start, prev, count)]. *)
Definition drop_runs_step (min_len : Z)
    (acc : list bool * nat * nat * nat) (val : nat) : list bool * nat * nat * nat :=
  let '(cleaned, start, prev, count) := acc in
  if val =? prev + 1 then (cleaned, start, val, count + 1)
  else
    let cleaned :=
      if (Z.of_nat count <? min_len)%Z
      then clear_range cleaned start (prev + 1) else cleaned in
    (cleaned, val, val, 1).

Definition _drop_short_runs (mask : list bool) (min_len : Z) : list bool :=
  if (min_len <=? 1)%Z then mask
  else
    let cleaned := mask in
    match flatnonzero cleaned with
    | [] => cleaned
    | i0 :: rest =>
        let '(cleaned, start, prev, count) :=
          fold_left (drop_runs_step min_len) rest (cleaned, i0, i0, 1) in
        if (Z.of_nat count <? min_len)%Z
        then clear_range cleaned start (prev + 1) else cleaned
    end.

(** [a, b) is a maximal run of true entries of [m]: a read past the end
    of a mask is false. *)
Definition is_run (m : list bool) (a b : nat) : Prop :=
  a < b <= length m /\
  (forall j, a <= j < b -> nth j m false = true) /\
  (a = 0 \/ nth (a - 1) m false = false) /\
  nth b m false = false.

(** The entry [i] lies in a block of at least [k] true entries inside
    [0, bound). *)
Definition in_long_block (m : list bool) (k : Z) (bound i : nat) : Prop :=
  exists a b, a <= i < b /\ b <= bound /\ (k <= Z.of_nat (b - a))%Z /\
              forall j, a <= j < b -> nth j m false = true.

(** The invariant of the loop of [_drop_short_runs], with [rest] the
    indices still to visit. *)
Definition drop_runs_inv (mask : list bool) (k : Z)
    (acc : list bool * nat * nat * nat) (rest : list nat) : Prop :=
  let '(cleaned, start, prev, count) := acc in
  length cleaned = length mask /\
  (start <= prev /\ count = prev - start + 1) /\
  (forall j, start <= j <= prev -> nth j mask false = true) /\
  (forall j, start <= j -> nth j cleaned false = nth j mask false) /\
  (forall j, nth j cleaned false = true -> nth j mask false = true) /\
  (forall j, j < start -> nth j cleaned false = true ->
             in_long_block cleaned k start j) /\
  StronglySorted lt (prev :: rest) /\
  (forall j, prev < j -> nth j mask false = true -> In j rest) /\
  (forall j, In j rest -> nth j mask false = true).
(** ** numpy and Python floats *)

(** The floating-point operations [apply_vad] uses.  [fl] holds the values
    of [float] and [np.float32]; every operation is whatever the machine
    computes, so a theorem over all instances holds of the real
    arithmetic. *)
Class FloatOps := {
  fl : Type;
  (** the float of a numeric literal or of a JSON number *)
  fl_lit : Q -> fl;
  (** [float(n)], and [astype(np.float32)] of an integer *)
  fl_of_int : Z -> fl;
  (** [astype(np.int16)] of one sample *)
  fl_to_int16 : fl -> Z;
  fl_mul : fl -> fl -> fl;
  fl_div : fl -> fl -> fl;
  (** [a < b] and [a <= b] *)
  fl_lt : fl -> fl -> bool;
  fl_le : fl -> fl -> bool;
  (** [np.clip(x, lo, hi)] of one sample *)
  np_clip : fl -> fl -> fl -> fl;
  (** [np.sqrt(np.mean(np.square(row)))] *)
  np_rms : list fl -> fl;
  (** [a.max()] *)
  np_max : list fl -> fl;
  (** [np.percentile(a, q)] *)
  np_percentile : list fl -> Z -> fl
}.

(** Python's [max(a, b)] and [min(a, b)]: the first argument unless the
    second is strictly beyond it. *)
Definition py_max `{FloatOps} (a b : fl) : fl := if fl_lt a b then b else a.
Definition py_min `{FloatOps} (a b : fl) : fl := if fl_lt b a then b else a.

(** [int(round(n / d))] for integers [n] and [d > 0]: the quotient rounded
    to the nearest integer, a tie to the even one. *)
Definition py_round_div (n d : Z) : Z :=
  let q := (n / d)%Z in
  let r := (n mod d)%Z in
  if (2 * r <? d)%Z then q
  else if (d <? 2 * r)%Z then (q + 1)%Z
  else if Z.even q then q else (q + 1)%Z.

(** [l[a:b]] for [0 <= a] and [0 <= b]. *)
Definition slice {A} (l : list A) (a b : nat) : list A := take (b - a) (drop a l).

(** [arr.reshape(rows, cols)] of a flat array of [rows * cols] entries. *)
Fixpoint reshape {A} (rows cols : nat) (l : list A) : list (list A) :=
  match rows with
  | 0 => []
  | S rows' => take cols l :: reshape rows' cols (drop cols l)
  end.

(** The full discrete convolution: entry [m] is the sum of
    [a[m - k] * v[k]]. *)
Definition convolve_full (a v : list Z) : list Z :=
  map (fun m =>
         fold_left Z.add
           (map (fun k => if k <=? m then (nth (m - k) a 0 * nth k v 0)%Z else 0%Z)
                (seq 0 (length v)))
           0%Z)
      (seq 0 (length a + length v - 1)).

(** [np.convolve(a, v, mode="same")] for non-empty [a] and [v]: the
    [max(M, N)] entries of the full convolution from offset
    [(min(M, N) - 1) // 2]. *)
Definition np_convolve_same (a v : list Z) : list Z :=
  let off := (Nat.min (length a) (length v) - 1) / 2 in
  slice (convolve_full a v) off (off + Nat.max (length a) (length v)).

(** ** webrtcvad *)

(** A [Vad] object has a state that each call may change; [is_speech]
    gets the frame as its 16-bit samples and the sample rate. *)
Class Webrtcvad := {
  vad_obj : Type;
  Vad : Z -> py_result vad_obj;
  is_speech : vad_obj -> list Z -> Z -> py_result (bool * vad_obj)
}.

(** ** [apply_vad] (whisprbar.py 1186-1346) *)

Definition SAMPLE_RATE : Z := 16000.
Definition frame_ms : Z := 30.

(** [int(SAMPLE_RATE * frame_ms / 1000)] *)
Definition frame_length : nat := Z.to_nat (SAMPLE_RATE * frame_ms / 1000).

(** [(np.clip(x, -1.0, 1.0) * 32767).astype(np.int16)], one sample. *)
Definition quantize `{FloatOps} (x : fl) : Z :=
  fl_to_int16 (fl_mul (np_clip x (fl_lit (-1)) (fl_lit 1)) (fl_of_int 32767)).

(** [z.astype(np.float32) / 32767.0], one sample. *)
Definition dequantize `{FloatOps} (z : Z) : fl :=
  fl_div (fl_of_int z) (fl_lit 32767).

(** The 16-bit re-quantization of a sample. *)
Definition requantize `{FloatOps} (x : fl) : fl := dequantize (quantize x).

Definition total_frames_of (pcm16 : list Z) : nat := length pcm16 / frame_length.

(** [frames] and [remainder] *)
Definition frames_of (pcm16 : list Z) : list (list Z) :=
  let total_frames := total_frames_of pcm16 in
  reshape total_frames frame_length (take (total_frames * frame_length) pcm16).

Definition remainder_of (pcm16 : list Z) : list Z :=
  drop (total_frames_of pcm16 * frame_length) pcm16.

(** [vad_mode] clamped to 0..3 and the [Vad] object, with the fallback
    [Vad(1)] of the [except] branch. *)
Definition make_vad `{Webrtcvad} (cfg : config) : py_result vad_obj :=
  let vad_mode := Z.max 0 (Z.min 3 (default 1%Z (vad_mode cfg))) in
  match Vad vad_mode with
  | Returned vad => Returned vad
  | Raised _ => Vad 1
  end.

(** The classification loop: [None] when [is_speech] raises on a frame. *)
Fixpoint classify_frames `{Webrtcvad} (vad : vad_obj) (frames : list (list Z))
  : option (list bool) :=
  match frames with
  | [] => Some []
  | frame :: frames' =>
      match is_speech vad frame SAMPLE_RATE with
      | Raised _ => None
      | Returned (b, vad') =>
          match classify_frames vad' frames' with
          | None => None
          | Some mask => Some (b :: mask)
          end
      end
  end.

Definition energy_floor_of `{FloatOps} (cfg : config) : fl :=
  fl_lit (default (5 # 10000)%Q (vad_energy_floor cfg)).

Definition min_energy_frames_of (cfg : config) : Z :=
  Z.max 1 (default 3%Z (vad_min_energy_frames cfg)).

(** [energy_mask] and [soft_mask] of the frames. *)
Definition energy_masks `{FloatOps} (cfg : config) (frames : list (list Z))
  : list bool * list bool :=
  let rms := map (fun frame => np_rms (map dequantize frame)) frames in
  let max_rms := match rms with [] => fl_lit 0 | _ => np_max rms end in
  let energy_floor := energy_floor_of cfg in
  let energy_ratio_cfg := fl_lit (default (5 # 100)%Q (vad_energy_ratio cfg)) in
  let energy_ratio :=
    py_max (fl_lit (5 # 1000)) (py_min energy_ratio_cfg (fl_lit (3 # 10))) in
  let energy_threshold := py_max energy_floor (fl_mul max_rms energy_ratio) in
  let nonzero_rms := List.filter (fun r => fl_lt energy_floor r) rms in
  let energy_threshold :=
    match nonzero_rms with
    | [] => energy_threshold
    | _ =>
        let percentile := np_percentile nonzero_rms 75 in
        py_min energy_threshold (py_max energy_floor percentile)
    end in
  let energy_mask := map (fun r => fl_le energy_threshold r) rms in
  let soft_ratio := py_max (fl_lit (2 # 1000)) (fl_mul energy_ratio (fl_lit (5 # 10))) in
  let soft_threshold :=
    py_max (fl_mul energy_floor (fl_lit (15 # 10))) (fl_mul max_rms soft_ratio) in
  let soft_mask := map (fun r => fl_le soft_threshold r) rms in
  let soft_mask :=
    if any soft_mask then _drop_short_runs soft_mask (min_energy_frames_of cfg)
    else soft_mask in
  (energy_mask, soft_mask).

(** [a | b] on masks of one length. *)
Definition mask_or (a b : list bool) : list bool := zip_with orb a b.

(** Bridging and the second [_drop_short_runs]. *)
Definition bridge_mask (cfg : config) (combined_mask : list bool) : list bool :=
  let bridge_ms := Z.max 0 (default 120%Z (vad_bridge_ms cfg)) in
  let bridge_frames :=
    if (bridge_ms =? 0)%Z then 0%Z else py_round_div bridge_ms frame_ms in
  let combined_mask :=
    if (0 <? bridge_frames)%Z then
      let kernel := repeat 1%Z (Z.to_nat (bridge_frames * 2 + 1)) in
      map (fun c => (0 <? c)%Z)
          (np_convolve_same (map (fun b : bool => if b then 1%Z else 0%Z) combined_mask)
                            kernel)
    else combined_mask in
  if (1 <? min_energy_frames_of cfg)%Z
  then _drop_short_runs combined_mask (min_energy_frames_of cfg)
  else combined_mask.

Definition padding_frames_of (cfg : config) : nat :=
  let padding_ms := Z.max 0 (default 200%Z (vad_padding_ms cfg)) in
  Z.to_nat (Z.max 1 (py_round_div padding_ms frame_ms)).

(** The loop that groups the voiced indices into [(start, end)] pairs;
    the accumulator is [(segments, segment_start, prev_idx)]. *)
Definition segments_step (acc : list (nat * nat) * nat * nat) (idx : nat)
  : list (nat * nat) * nat * nat :=
  let '(segments, segment_start, prev_idx) := acc in
  if (1 <? Z.of_nat idx - Z.of_nat prev_idx)%Z
  then (segments ++ [(segment_start, prev_idx)], idx, idx)
  else (segments, segment_start, idx).

(** [voiced_indices[0]] raises on an empty array. *)
Definition voiced_segments (voiced_indices : list nat) : py_result (list (nat * nat)) :=
  match voiced_indices with
  | [] => Raised IndexError
  | i0 :: rest =>
      let '(segments, segment_start, prev_idx) :=
        fold_left segments_step rest ([], i0, i0) in
      Returned (segments ++ [(segment_start, prev_idx)])
  end.

(** [start_idx] and [end_idx] of a segment. *)
Definition padded_bounds (total_frames padding_frames : nat) (seg : nat * nat)
  : nat * nat :=
  (Nat.max 0 (fst seg - padding_frames),
   Nat.min total_frames (snd seg + padding_frames + 1)).

(** One pass of the extraction loop; the accumulator is
    [(segment_buffers, tail_appended)]. *)
Definition extract_step `{FloatOps} (frames : list (list Z))
    (total_frames padding_frames : nat) (remainder_flat : list Z)
    (remainder_rms energy_floor : fl)
    (acc : list (list Z) * bool) (seg : nat * nat) : list (list Z) * bool :=
  let '(segment_buffers, tail_appended) := acc in
  let '(start_idx, end_idx) := padded_bounds total_frames padding_frames seg in
  let segment_frames := slice frames start_idx end_idx in
  if length (concat segment_frames) =? 0 then acc
  else
    let segment_int := concat segment_frames in
    if negb tail_appended
       && negb (length remainder_flat =? 0)
       && (total_frames <=? end_idx)
       && fl_le energy_floor remainder_rms
    then (segment_buffers ++ [segment_int ++ remainder_flat], true)
    else (segment_buffers ++ [segment_int], tail_appended).

Definition extract_segments `{FloatOps} (frames : list (list Z))
    (total_frames padding_frames : nat) (remainder_flat : list Z)
    (remainder_rms energy_floor : fl) (segments : list (nat * nat))
  : list (list Z) :=
  fst (fold_left
         (extract_step frames total_frames padding_frames remainder_flat
                       remainder_rms energy_floor)
         segments ([], false)).

(** [remainder_rms]: 0.0 for an empty remainder. *)
Definition remainder_rms_of `{FloatOps} (remainder_flat : list Z) : fl :=
  match remainder_flat with
  | [] => fl_lit 0
  | _ => np_rms (map dequantize remainder_flat)
  end.

(** The samples of a segment's padded frames, without the remainder. *)
Definition segment_buffer (frames : list (list Z))
    (total_frames padding_frames : nat) (seg : nat * nat) : list Z :=
  concat (slice frames (fst (padded_bounds total_frames padding_frames seg))
                       (snd (padded_bounds total_frames padding_frames seg))).

(** The segment's padded end reaches the end of the framed buffer. *)
Definition reaches_end (total_frames padding_frames : nat) (seg : nat * nat) : bool :=
  total_frames <=? snd (padded_bounds total_frames padding_frames seg).

(** The segments that contribute a buffer: those with a sample. *)
Definition output_segments (frames : list (list Z))
    (total_frames padding_frames : nat) (segments : list (nat * nat))
  : list (nat * nat) :=
  List.filter
    (fun seg => negb (length (segment_buffer frames total_frames padding_frames seg) =? 0))
    segments.

(** The rule in the spec's words: the remainder goes, once, to the first
    output segment whose padded end reaches the end, when [pending]. *)
Fixpoint remainder_once (frames : list (list Z))
    (total_frames padding_frames : nat) (remainder_flat : list Z)
    (pending : bool) (kept : list (nat * nat)) : list (list Z) :=
  match kept with
  | [] => []
  | seg :: kept' =>
      if pending && reaches_end total_frames padding_frames seg
      then (segment_buffer frames total_frames padding_frames seg ++ remainder_flat)
           :: map (segment_buffer frames total_frames padding_frames) kept'
      else segment_buffer frames total_frames padding_frames seg
           :: remainder_once frames total_frames padding_frames remainder_flat
                pending kept'
  end.

(** [out] is made of re-quantized samples of [audio]: the samples of the
    index ranges [ranges], in that order. *)
Definition requantized_from `{FloatOps} (audio out : list fl) : Prop :=
  exists ranges : list (nat * nat),
    Forall (fun r : nat * nat => snd r <= length audio) ranges /\
    out = map requantize
            (concat (map (fun r : nat * nat => slice audio (fst r) (snd r)) ranges)).

(** [is_speech] raises on one of the frames, the earlier ones classified. *)
Inductive vad_fails_on `{Webrtcvad} : vad_obj -> list (list Z) -> Prop :=
| vad_fails_here vad frame frames e :
    is_speech vad frame SAMPLE_RATE = Raised e ->
    vad_fails_on vad (frame :: frames)
| vad_fails_later vad frame frames b vad' :
    is_speech vad frame SAMPLE_RATE = Returned (b, vad') ->
    vad_fails_on vad' frames ->
    vad_fails_on vad (frame :: frames).

(** The [return] statements of [apply_vad], in source order. *)
Inductive return_site :=
| ret_vad_off          (* use_vad off or webrtcvad missing *)
| ret_frame_length     (* frame_length <= 0 *)
| ret_no_frames        (* total_frames == 0 *)
| ret_vad_failed       (* is_speech raised on a frame *)
| ret_no_speech        (* the combined mask is all false *)
| ret_no_segments      (* no segment buffer *)
| ret_low_ratio        (* retained ratio below the minimum *)
| ret_processed.       (* the segmented audio *)

(** [apply_vad], with the [return] statement that produced the value.
    [audio] is the flat sample sequence ([reshape(-1)]); the debug lines
    are left out. *)
Definition apply_vad_traced `{ModuleGlobals} `{FloatOps} `{Webrtcvad}
    (cfg : config) (audio : list fl) : py_result (return_site * list fl) :=
  let mono := audio in
  if negb (default false (use_vad cfg)) || negb VAD_AVAILABLE
  then Returned (ret_vad_off, mono)
  else
    let pcm16 := map quantize mono in
    if frame_length <=? 0 then Returned (ret_frame_length, mono)
    else
      let total_frames := total_frames_of pcm16 in
      if total_frames =? 0 then Returned (ret_no_frames, mono)
      else
        let remainder := remainder_of pcm16 in
        let frames := frames_of pcm16 in
        match make_vad cfg with
        | Raised e => Raised e
        | Returned vad =>
            match classify_frames vad frames with
            | None => Returned (ret_vad_failed, mono)
            | Some speech_mask =>
                let '(energy_mask, soft_mask) := energy_masks cfg frames in
                let energy_floor := energy_floor_of cfg in
                let combined_mask := mask_or (mask_or speech_mask energy_mask) soft_mask in
                if negb (any combined_mask) then Returned (ret_no_speech, mono)
                else
                  let combined_mask := bridge_mask cfg combined_mask in
                  let voiced_indices := flatnonzero combined_mask in
                  let padding_frames := padding_frames_of cfg in
                  let remainder_flat := remainder in
                  let remainder_rms := remainder_rms_of remainder_flat in
                  match voiced_segments voiced_indices with
                  | Raised e => Raised e
                  | Returned segments =>
                      let segment_buffers :=
                        extract_segments frames total_frames padding_frames
                          remainder_flat remainder_rms energy_floor segments in
                      match segment_buffers with
                      | [] => Returned (ret_no_segments, mono)
                      | _ =>
                          let processed_int := concat segment_buffers in
                          let processed_pcm := map dequantize processed_int in
                          let retained_ratio :=
                            if length mono =? 0 then fl_lit 1
                            else fl_div (fl_of_int (Z.of_nat (length processed_pcm)))
                                        (fl_of_int (Z.of_nat (length mono))) in
                          let min_ratio :=
                            fl_lit (default (4 # 10)%Q (vad_min_output_ratio cfg)) in
                          if fl_lt retained_ratio min_ratio
                          then Returned (ret_low_ratio, mono)
                          else Returned (ret_processed, processed_pcm)
                      end
                  end
            end
        end.

Definition apply_vad `{ModuleGlobals} `{FloatOps} `{Webrtcvad}
    (cfg : config) (audio : list fl) : py_result (list fl) :=
  match apply_vad_traced cfg audio with
  | Returned (_, out) => Returned out
  | Raised e => Raised e
  end.

(** ** Instances for concrete runs *)

(** Exact rational arithmetic in place of the machine's: every value a
    reduced fraction, the square root exact on squares of rationals (and
    rounded down, numerator and denominator apart, elsewhere). *)
Definition Q_sum (l : list Q) : Q := fold_left (fun a x => Qred (a + x)) l 0%Q.

Definition Q_sqrt (q : Q) : Q :=
  let r := Qred q in
  if (Qnum r <=? 0)%Z then 0%Q else (Z.sqrt (Qnum r) # Pos.sqrt (Qden r))%Q.

Definition Q_rms (row : list Q) : Q :=
  Q_sqrt (Q_sum (map (fun x => x * x)%Q row) / inject_Z (Z.of_nat (length row)))%Q.

Definition Q_ltb (a b : Q) : bool := negb (Qle_bool b a).

Definition Q_max_list (l : list Q) : Q :=
  match l with
  | [] => 0%Q
  | x :: l' => fold_left (fun m y => if Q_ltb m y then y else m) l' x
  end.

Fixpoint Q_insert (x : Q) (l : list Q) : list Q :=
  match l with
  | [] => [x]
  | y :: l' => if Qle_bool x y then x :: l else y :: Q_insert x l'
  end.

Definition Q_sort (l : list Q) : list Q := fold_right Q_insert [] l.

(** numpy's default (linear) percentile. *)
Definition Q_percentile (l : list Q) (q : Z) : Q :=
  let s := Q_sort l in
  let pos := Qred ((inject_Z (Z.of_nat (length s - 1)) * inject_Z q) / 100)%Q in
  let lo := (Qnum pos / Zpos (Qden pos))%Z in
  let frac := Qred (pos - inject_Z lo)%Q in
  let a := nth (Z.to_nat lo) s 0%Q in
  let b := nth (Z.to_nat lo + 1) s a in
  Qred (a + frac * (b - a))%Q.

(** Truncation toward zero, then the wrap of a 16-bit cast. *)
Definition Q_to_int16 (x : Q) : Z :=
  let t := Z.quot (Qnum x) (Zpos (Qden x)) in
  ((t + 32768) mod 65536 - 32768)%Z.

Definition exact_floats : FloatOps :=
  {| fl := Q;
     fl_lit := Qred;
     fl_of_int := inject_Z;
     fl_to_int16 := Q_to_int16;
     fl_mul := fun a b => Qred (a * b)%Q;
     fl_div := fun a b => Qred (a / b)%Q;
     fl_lt := Q_ltb;
     fl_le := Qle_bool;
     np_clip := fun x lo hi => if Q_ltb x lo then lo else if Q_ltb hi x then hi else x;
     np_rms := Q_rms;
     np_max := Q_max_list;
     np_percentile := Q_percentile |}.

(** A classifier without state that calls a frame speech when one of its
    samples reaches the level 1024, and raises on a frame that is not
    10, 20 or 30 ms long. *)
Definition level_vad : Webrtcvad :=
  {| vad_obj := unit;
     Vad := fun _ => Returned tt;
     is_speech := fun _ frame rate =>
       if existsb (Nat.eqb (length frame)) [160; 320; 480]
       then Returned (existsb (fun z => (1024 <=? Z.abs z)%Z) frame, tt)
       else Raised (Exception "Error" "Error while processing frame") |}.

(** A classifier whose every call raises. *)
Definition failing_vad : Webrtcvad :=
  {| vad_obj := unit;
     Vad := fun _ => Returned tt;
     is_speech := fun _ _ _ => Raised (Exception "Error" "Error while processing frame") |}.

Definition vad_on : ModuleGlobals := {| DEBUG := false; VAD_AVAILABLE := true |}.

(** [DEFAULT_CFG] with voice-activity filtering switched on. *)
Definition cfg_vad_on : config :=
  {| device_name := None;
     notifications_enabled := Some false;
     use_vad := Some true;
     vad_mode := None;
     vad_energy_floor := None;
     vad_energy_ratio := Some (2 # 100)%Q;
     vad_min_energy_frames := Some 2%Z;
     vad_bridge_ms := Some 180%Z;
     vad_padding_ms := None;
     vad_min_output_ratio := None |}.

(** [n] frames of one level. *)
Definition level_frames (x : Q) (n : nat) : list Q := repeat x (n * frame_length).

(** Filtering on, the energy floor at 0.0, no bridging. *)
Definition cfg_floor_zero : config :=
  {| device_name := None;
     notifications_enabled := Some false;
     use_vad := Some true;
     vad_mode := None;
     vad_energy_floor := Some 0%Q;
     vad_energy_ratio := Some (2 # 100)%Q;
     vad_min_energy_frames := Some 2%Z;
     vad_bridge_ms := Some 0%Z;
     vad_padding_ms := None;
     vad_min_output_ratio := None |}.

(** Filtering on, no bridging ([vad_bridge_ms] at the lower end of the
    settings window's scale). *)
Definition cfg_no_bridge : config :=
  {| device_name := None;
     notifications_enabled := Some false;
     use_vad := Some true;
     vad_mode := None;
     vad_energy_floor := None;
     vad_energy_ratio := Some (2 # 100)%Q;
     vad_min_energy_frames := Some 2%Z;
     vad_bridge_ms := Some 0%Z;
     vad_padding_ms := None;
     vad_min_output_ratio := None |}.


(** Two frames at speech level and one silent sample after them. *)
Definition floor_audio : list Q := level_frames (1 # 2) 2 ++ [0%Q].

(** One frame at speech level between silence. *)
Definition spike_audio : list Q :=
  level_frames 0 1 ++ level_frames (1 # 2) 1 ++ level_frames 0 1.


Definition quiet_tray : Tray :=
  {| tray_refresh_indicator := Returned tt; tray_refresh_menu := Returned tt |}.

Definition idle_world : world :=
  {| state := {| recording := false; device_idx := None; stream := None |};
     AUDIO_QUEUE := None;
     outputs := [] |}.

(** CTRL down, F9 down, F9 down again (key repeat), F9 up, F9 down, with
    the keys of [pynput_base]; no recording, no capture. *)
Definition sample_events : list key_event :=
  map (fun pk : bool * nat =>
         {| ev_press := fst pk; ev_key := Key (snd pk);
            ev_recording := false; ev_capture := false |})
      [(true, 7); (true, 22); (true, 22); (false, 22); (true, 22)].

(** The 16-bit samples of [floor_audio]. *)
Definition floor_pcm16 : list Z := map (quantize (H := exact_floats)) floor_audio.

(** An audio system that cannot list its devices. *)
Definition no_portaudio : Sounddevice :=
  {| sd_query_devices := Raised (Exception "PortAudioError" "Error querying device");
     sd_InputStream := fun _ =>
       Raised (Exception "PortAudioError" "Error opening InputStream");
     sd_stream_start := fun _ => Returned tt |}.

(** [DEFAULT_CFG] with an input device chosen by name. *)
Definition cfg_usb_mic : config :=
  {| device_name := Some "USB Microphone"%string;
     notifications_enabled := Some false;
     use_vad := Some false;
     vad_mode := None;
     vad_energy_floor := None;
     vad_energy_ratio := Some (2 # 100)%Q;
     vad_min_energy_frames := Some 2%Z;
     vad_bridge_ms := Some 180%Z;
     vad_padding_ms := None;
     vad_min_output_ratio := None |}.

(** ** Deciding the outcome of a concrete run *)

Definition Q_same (a b : Q) : bool :=
  Z.eqb (Qnum a) (Qnum b) && Pos.eqb (Qden a) (Qden b).

Fixpoint list_same (l1 l2 : list Q) : bool :=
  match l1, l2 with
  | [], [] => true
  | a :: l1', b :: l2' => Q_same a b && list_same l1' l2'
  | _, _ => false
  end.

Definition site_same (a b : return_site) : bool :=
  match a, b with
  | ret_vad_off, ret_vad_off | ret_frame_length, ret_frame_length
  | ret_no_frames, ret_no_frames | ret_vad_failed, ret_vad_failed
  | ret_no_speech, ret_no_speech | ret_no_segments, ret_no_segments
  | ret_low_ratio, ret_low_ratio | ret_processed, ret_processed => true
  | _, _ => false
  end.

Definition returns_same (r : py_result (list Q)) (x : list Q) : bool :=
  match r with
  | Returned l => list_same l x
  | Raised _ => false
  end.

Definition returns_at_same (r : py_result (return_site * list Q))
    (site : return_site) (x : list Q) : bool :=
  match r with
  | Returned (s, l) => site_same s site && list_same l x
  | Raised _ => false
  end.

(* ================================================================== *)
(** * Part I, continued. The rest of the modelled code                  *)
(* ================================================================== *)

From Stdlib Require Import DecimalNat.

(** ** [_drop_short_runs], continued *)

(** What the loop of [_drop_short_runs] keeps besides [drop_runs_inv]: the
    current run starts a maximal run of the input, and below it every
    entry in a long block of the input is still true. *)
Definition drop_runs_keep (mask : list bool) (k : Z)
    (acc : list bool * nat * nat * nat) : Prop :=
  let '(cleaned, start, prev, count) := acc in
  (start = 0 \/ nth (start - 1) mask false = false) /\
  (forall j, j < start -> in_long_block mask k (length mask) j ->
             nth j cleaned false = true).

(** ** Bridging in [apply_vad] (whisprbar.py 1265-1271) *)

(** [bridge_frames]: the bridging distance in frames. *)
Definition bridge_frames_of (cfg : config) : Z :=
  let bridge_ms := Z.max 0 (default 120%Z (vad_bridge_ms cfg)) in
  if (bridge_ms =? 0)%Z then 0%Z else py_round_div bridge_ms frame_ms.

(** [mask.astype(int)], one entry. *)
Definition mask_int (b : bool) : Z := if b then 1%Z else 0%Z.

(** The bridged mask: [np.convolve(mask.astype(int), kernel, mode="same") > 0]
    for the kernel of [2 * b + 1] ones. *)
Definition dilate (b : nat) (mask : list bool) : list bool :=
  map (fun c => (0 <? c)%Z)
      (np_convolve_same (map mask_int mask) (repeat 1%Z (2 * b + 1))).

(** ** Hotkey labels (whisprbar.py 641-646, 685-705, 722-723) *)

(** The text is in the ASCII fragment that the string functions above
    model. *)
Fixpoint is_ascii (s : string) : bool :=
  match s with
  | EmptyString => true
  | String c s' => (nat_of_ascii c <? 128) && is_ascii s'
  end.

Definition KeyError (k : string) : py_exception := Exception "KeyError" k.

Definition MODIFIER_LABELS : list (string * string) :=
  [("CTRL", "Ctrl"); ("ALT", "Alt"); ("SHIFT", "Shift"); ("SUPER", "Super")]%string.

(** [MODIFIER_LABELS[m]] *)
Definition MODIFIER_LABELS_item (m : string) : py_result string :=
  match List.find (fun kv => String.eqb m (fst kv)) MODIFIER_LABELS with
  | Some kv => Returned (snd kv)
  | None => Raised (KeyError m)
  end.

(** [[f(x) for x in l]] for an [f] that may raise: the first exception
    leaves the comprehension. *)
Fixpoint comprehension {A B} (f : A -> py_result B) (l : list A)
  : py_result (list B) :=
  match l with
  | [] => Returned []
  | x :: l' =>
      match f x with
      | Raised e => Raised e
      | Returned y =>
          match comprehension f l' with
          | Raised e => Raised e
          | Returned ys => Returned (y :: ys)
          end
      end
  end.

(** [str(key_obj)] of a member of [keyboard.Key], as in ["Key.esc"]. *)
Class PynputStr := {
  Key_str : nat -> string
}.

Definition key_to_label `{Pynput} `{PynputStr} (key_obj : key_obj_arg)
  : py_result string :=
  match key_obj with
  | TupleArg (modifiers, token) =>
      match comprehension MODIFIER_LABELS_item (sorted_modifiers modifiers) with
      | Raised e => Raised e
      | Returned parts =>
          let parts :=
            parts ++ [if in_FKEYS token then token else upper token] in
          match parts with
          | [] => Returned (upper token)
          | _ => Returned (join "+" parts)
          end
      end
  | KeyArg k =>
      match fkeys_name_of FKEYS k with
      | Some name => Returned name
      | None =>
          match k with
          | KeyCode (Some char) =>
              if nonempty char then Returned (upper char)
              else Returned "F9"%string
          | KeyCode None => Returned "F9"%string
          | Key key_id =>
              match index_last (split "." (Key_str key_id)) with
              | Raised e => Raised e
              | Returned name => Returned (upper name)
              end
          end
      end
  end.

Definition hotkey_to_label `{Pynput} `{PynputStr} (binding : HotkeyBinding)
  : py_result string :=
  key_to_label (TupleArg binding).

(** ** Hotkey capture (whisprbar.py 1502-1579) *)

(** The closure variables of [capture_hotkey] and the globals that its
    callbacks write: [state["hotkey_capture_active"]], [HOTKEY_KEY],
    [cfg["hotkey"]], and the messages handed to [notify], oldest first. *)
Record capture_state := {
  capture_modifiers : gset string;
  capture_done : bool;
  hotkey_capture_active : bool;
  HOTKEY_KEY : HotkeyBinding;
  cfg_hotkey : option string;
  notices : list string
}.

(** [update_hotkey_binding].  [save_config] swallows its own failure;
    [tail] is the outcome of [start_hotkey_listener(); refresh_menu()],
    the calls that end the function. *)
Definition update_hotkey_binding `{Pynput} `{PynputStr}
    (modifiers : gset string) (token : string) (notify_change : bool)
    (tail : py_result unit) (st : capture_state)
  : py_result unit * capture_state :=
  let normalized_token :=
    match normalize_key_token (Some token) with
    | Some t => if nonempty t then t else "F9"%string
    | None => "F9"%string
    end in
  let valid_mods : gset string :=
    filter (fun modn => in_MODIFIER_MAP modn = true) modifiers in
  let binding : HotkeyBinding := (valid_mods, normalized_token) in
  let st :=
    {| capture_modifiers := capture_modifiers st;
       capture_done := capture_done st;
       hotkey_capture_active := hotkey_capture_active st;
       HOTKEY_KEY := binding;
       cfg_hotkey := Some (hotkey_to_config binding);
       notices := notices st |} in
  if notify_change then
    match hotkey_to_label binding with
    | Raised e => (Raised e, st)
    | Returned label =>
        (tail,
         {| capture_modifiers := capture_modifiers st;
            capture_done := capture_done st;
            hotkey_capture_active := hotkey_capture_active st;
            HOTKEY_KEY := HOTKEY_KEY st;
            cfg_hotkey := cfg_hotkey st;
            notices := notices st ++ ["Hotkey set to " +:+ label +:+ "."] |})
    end
  else (tail, st).

(** [finalize_hotkey], for [on_complete] left at [None] as the tray menu
    calls [capture_hotkey]; stopping the capture listener is suppressed
    and touches none of the fields. *)
Definition finalize_hotkey `{Pynput} `{PynputStr} (notify_user : bool)
    (token : option string) (tail : py_result unit) (st : capture_state)
  : py_result unit * capture_state :=
  match token with
  | Some tok =>
      if capture_done st || negb (nonempty tok) then (Returned tt, st)
      else
        let st :=
          {| capture_modifiers := capture_modifiers st;
             capture_done := true;
             hotkey_capture_active := hotkey_capture_active st;
             HOTKEY_KEY := HOTKEY_KEY st;
             cfg_hotkey := cfg_hotkey st;
             notices := notices st |} in
        match update_hotkey_binding (capture_modifiers st) tok notify_user tail st with
        | (Raised e, st') => (Raised e, st')
        | (Returned _, st') =>
            (Returned tt,
             {| capture_modifiers := capture_modifiers st';
                capture_done := capture_done st';
                hotkey_capture_active := false;
                HOTKEY_KEY := HOTKEY_KEY st';
                cfg_hotkey := cfg_hotkey st';
                notices := notices st' |})
        end
  | None => (Returned tt, st)
  end.

(** [_on_press] of the capture listener. *)
Definition capture_on_press `{Pynput} `{PynputStr} (notify_user : bool)
    (k : key) (tail : py_result unit) (st : capture_state)
  : py_result unit * capture_state :=
  match modifier_name k with
  | Some modn =>
      (Returned tt,
       {| capture_modifiers := {[ modn ]} ∪ capture_modifiers st;
          capture_done := capture_done st;
          hotkey_capture_active := hotkey_capture_active st;
          HOTKEY_KEY := HOTKEY_KEY st;
          cfg_hotkey := cfg_hotkey st;
          notices := notices st |})
  | None =>
      match event_to_token k with
      | Some token => finalize_hotkey notify_user (Some token) tail st
      | None => (Returned tt, st)
      end
  end.

(** [_on_release] of the capture listener. *)
Definition capture_on_release `{Pynput} (k : key) (st : capture_state)
  : capture_state :=
  let mods :=
    match modifier_name k with
    | Some modn => capture_modifiers st ∖ {[ modn ]}
    | None => capture_modifiers st
    end in
  {| capture_modifiers := mods;
     capture_done := capture_done st;
     hotkey_capture_active :=
       if capture_done st then false else hotkey_capture_active st;
     HOTKEY_KEY := HOTKEY_KEY st;
     cfg_hotkey := cfg_hotkey st;
     notices := notices st |}.

(** One callback invocation of the capture listener: press or release
    of [cev_key], with the outcome [cev_tail] that restarting the hotkey
    listener and refreshing the menu have at that moment. *)
Record capture_event := {
  cev_press : bool;
  cev_key : key;
  cev_tail : py_result unit
}.

Definition capture_step `{Pynput} `{PynputStr} (notify_user : bool)
    (e : capture_event) (st : capture_state) : py_result unit * capture_state :=
  if cev_press e then capture_on_press notify_user (cev_key e) (cev_tail e) st
  else (Returned tt, capture_on_release (cev_key e) st).

(** The callbacks of a run of events; pynput ends a listener whose
    callback raises, so the run stops there. *)
Fixpoint capture_run `{Pynput} `{PynputStr} (notify_user : bool)
    (evs : list capture_event) (st : capture_state)
  : py_result unit * capture_state :=
  match evs with
  | [] => (Returned tt, st)
  | e :: evs' =>
      match capture_step notify_user e st with
      | (Raised exc, st') => (Raised exc, st')
      | (Returned _, st') => capture_run notify_user evs' st'
      end
  end.

(** [capture_hotkey] up to the start of its listener. *)
Definition capture_hotkey (notify_user : bool) (st : capture_state)
  : capture_state :=
  {| capture_modifiers := ∅;
     capture_done := false;
     hotkey_capture_active := true;
     HOTKEY_KEY := HOTKEY_KEY st;
     cfg_hotkey := cfg_hotkey st;
     notices :=
       if notify_user then notices st ++ ["Press a key for the new hotkey..."%string]
       else notices st |}.

(** [str] of the members of [pynput_base]. *)
Definition pynput_str : PynputStr :=
  {| Key_str := fun key_id => "Key." +:+ nth key_id pynput_names EmptyString |}.

Definition capture_idle : capture_state :=
  {| capture_modifiers := ∅;
     capture_done := false;
     hotkey_capture_active := false;
     HOTKEY_KEY := fallback_binding;
     cfg_hotkey := Some "F9"%string;
     notices := [] |}.

(** Left control goes down. *)
Definition ctrl_down : list capture_event :=
  [{| cev_press := true; cev_key := Key 8; cev_tail := Returned tt |}].

(** Then the R key. *)
Definition r_pressed : list capture_event :=
  ctrl_down ++
  [{| cev_press := true; cev_key := KeyCode (Some "r"%string);
      cev_tail := Returned tt |}].

(** The R key goes up and the X key down, at a moment when the hotkey
    listener could not be restarted. *)
Definition r_released : list capture_event :=
  [{| cev_press := false; cev_key := KeyCode (Some "r"%string);
      cev_tail := Returned tt |};
   {| cev_press := true; cev_key := KeyCode (Some "x"%string);
      cev_tail := Raised (Exception "RuntimeError" "listener") |}].

(** ** Device lookup, in the statements *)

(** The dicts of [list_input_devices], without the monad. *)
Definition input_devices_from (i : nat) (infos : list device_info)
  : list (nat * string) :=
  flat_map
    (fun '(idx, info) =>
       if (0 <? default 0 (max_input_channels info))%Z
       then [(idx, default ("Device " +:+ str_of_nat idx) (dev_name info))]
       else [])
    (enumerate_from i infos).

(** Entry [idx] of the device list can record, under the name [dev]. *)
Definition input_device (infos : list device_info) (idx : nat) (dev : string) : Prop :=
  exists info,
    infos !! idx = Some info /\
    (0 < default 0 (max_input_channels info))%Z /\
    dev = default ("Device " +:+ str_of_nat idx) (dev_name info).

(** Two input devices and an output in between. *)
Definition mic_list : list device_info :=
  [ {| max_input_channels := Some 2%Z; dev_name := Some "USB Mic Pro"%string |};
    {| max_input_channels := Some 0%Z; dev_name := Some "usb mic"%string |};
    {| max_input_channels := Some 1%Z; dev_name := Some "usb mic"%string |} ].

Definition two_mics : Sounddevice :=
  {| sd_query_devices := Returned mic_list;
     sd_InputStream := fun _ => Returned 0;
     sd_stream_start := fun _ => Returned tt |}.

(** ** Recording session, continued (whisprbar.py 946-952, 984-1016) *)

(** What a session does besides writing the globals: the calls on a
    stream handle and the transcription threads it starts, each with the
    audio handed over. *)
Inductive session_effect :=
| StreamStop (h : nat)
| StreamClose (h : nat)
| TranscribeThread (audio : list Q).

Record session := {
  globals : world;
  effects : list session_effect
}.

(** A computation on a session that returns or raises. *)
Definition SM (A : Type) : Type := session -> py_result A * session.

#[global] Instance SM_ret : MRet SM := fun A a s => (Returned a, s).
#[global] Instance SM_bind : MBind SM := fun A B f m s =>
  match m s with
  | (Returned a, s') => f a s'
  | (Raised e, s') => (Raised e, s')
  end.

(** A computation on the globals, inside a session. *)
Definition lift {A} (m : M A) : SM A :=
  fun s =>
    let '(r, w) := m (globals s) in
    (r, {| globals := w; effects := effects s |}).

Definition log (e : session_effect) : SM unit :=
  fun s => (Returned tt, {| globals := globals s; effects := effects s ++ [e] |}).

(** [with contextlib.suppress(Exception): body] *)
Definition suppress (body : SM unit) : SM unit :=
  fun s =>
    match body s with
    | (Returned _, s') => (Returned tt, s')
    | (Raised _, s') => (Returned tt, s')
    end.

Definition get_AUDIO_QUEUE : M (option (list (list Q))) :=
  fun w => (Returned (AUDIO_QUEUE w), w).

(** [stream.stop()] and [stream.close()] *)
Class StreamOps := {
  sd_stream_stop : nat -> py_result unit;
  sd_stream_close : nat -> py_result unit
}.

(** [f"{duration:.2f}"] *)
Class FloatFormat := {
  format_2f : Q -> string
}.

(** [recording_callback]: [overflow] is [str(status)] when the status has
    [input_overflow] set; [indata] is the chunk, one channel. *)
Definition recording_callback (overflow : option string) (indata : list Q) : M unit :=
  match overflow with
  | Some status => emit (Stderr ("[WARN] Audio overflow: " +:+ status))
  | None => mret tt
  end;;
  s ← get_state;
  if negb (recording s) then mret tt
  else
    queue_obj ← get_AUDIO_QUEUE;
    match queue_obj with
    | Some chunks => set_AUDIO_QUEUE (Some (chunks ++ [indata]))
    | None => mret tt
    end.

(** [stop_recording]; starting the transcription thread is taken to
    return. *)
Definition stop_recording `{ModuleGlobals} `{Tray} `{StreamOps} `{FloatFormat}
    (cfg : config) : SM unit :=
  s ← lift get_state;
  if negb (recording s) then mret tt
  else
    queue_obj ← lift get_AUDIO_QUEUE;
    lift (set_AUDIO_QUEUE None);;
    let stream_obj := stream s in
    lift (set_state (fun s => {| recording := false; device_idx := device_idx s;
                                 stream := stream s |}));;
    lift (set_state (fun s => {| recording := recording s; device_idx := device_idx s;
                                 stream := None |}));;
    lift refresh_tray_indicator;;
    lift refresh_menu;;
    match stream_obj with
    | Some h =>
        suppress (log (StreamStop h);;
                  lift (call (sd_stream_stop h));;
                  log (StreamClose h);;
                  lift (call (sd_stream_close h)))
    | None => mret tt
    end;;
    let frames := default [] queue_obj in
    match frames with
    | [] => lift (notify cfg "No audio captured.")
    | _ =>
        let audio := concat frames in
        let duration := (Z.of_nat (length audio) # Z.to_pos SAMPLE_RATE)%Q in
        lift (debug ("Captured audio duration: " +:+ format_2f duration
                     +:+ "s, samples: " +:+ str_of_nat (length audio)));;
        log (TranscribeThread audio)
    end.

Definition toggle_recording `{ModuleGlobals} `{Sounddevice} `{Tray} `{StreamOps}
    `{FloatFormat} (cfg : config) : SM unit :=
  s ← lift get_state;
  if recording s then stop_recording cfg else lift (start_recording cfg).

(** The stream's callbacks, one per chunk, in order. *)
Fixpoint feed (chunks : list (option string * list Q)) : SM unit :=
  match chunks with
  | [] => mret tt
  | (overflow, indata) :: chunks' =>
      lift (recording_callback overflow indata);; feed chunks'
  end.

(** A started session: the state [start_recording] leaves when every
    call of its [try] block returned. *)
Definition session_started (s : session) (h : nat) : Prop :=
  recording (state (globals s)) = true /\
  stream (state (globals s)) = Some h /\
  AUDIO_QUEUE (globals s) = Some [].

Definition session_idle (s : session) : Prop :=
  recording (state (globals s)) = false /\
  stream (state (globals s)) = None /\
  AUDIO_QUEUE (globals s) = None.

(** Streams that stop and close without complaint. *)
Definition calm_streams : StreamOps :=
  {| sd_stream_stop := fun _ => Returned tt;
     sd_stream_close := fun _ => Returned tt |}.

(** Two decimals, cut off; the theorems hold for any formatter. *)
Definition cut_format : FloatFormat :=
  {| format_2f := fun q =>
       let cents := (Qnum q * 100 / Z.pos (Qden q))%Z in
       str_of_nat (Z.to_nat (cents / 100)) +:+ "." +:+
       str_of_nat (Z.to_nat ((cents mod 100) / 10)) +:+
       str_of_nat (Z.to_nat (cents mod 10)) |}.

(** A tray whose indicator cannot be refreshed. *)
Definition broken_tray : Tray :=
  {| tray_refresh_indicator := Raised (Exception "RuntimeError" "indicator gone");
     tray_refresh_menu := Returned tt |}.

Definition idle_session : session := {| globals := idle_world; effects := [] |}.

(** Two chunks of two samples, the second after an overflow. *)
Definition two_chunks : list (option string * list Q) :=
  [(None, [1 # 2; 1 # 4]%Q); (Some "input overflow"%string, [0; 1 # 8]%Q)].

(** A session that records on stream 0 and holds one chunk. *)
Definition recording_session : session :=
  {| globals :=
       {| state := {| recording := true; device_idx := None; stream := Some 0 |};
          AUDIO_QUEUE := Some [[1 # 2; 1 # 4]%Q];
          outputs := [] |};
     effects := [] |}.

(** ** Version numbers (whisprbar.py 219-229, 249-250) *)

Definition is_digit (c : ascii) : bool :=
  let n := nat_of_ascii c in (48 <=? n) && (n <=? 57).

Definition digit_value (c : ascii) : Z := Z.of_nat (nat_of_ascii c - 48).

(** The digits of an [int] literal, with the single underscores that
    Python allows between two digits. *)
Fixpoint int_digits (s : string) (acc : Z) (after_digit : bool) : option Z :=
  match s with
  | EmptyString => if after_digit then Some acc else None
  | String c s' =>
      if is_digit c then int_digits s' (10 * acc + digit_value c) true
      else if Ascii.eqb c "_" && after_digit then
        match s' with
        | String d _ => if is_digit d then int_digits s' acc false else None
        | EmptyString => None
        end
      else None
  end.

(** [int(s)] on ASCII text; [None] is [ValueError]. *)
Definition py_int (s : string) : option Z :=
  match strip s with
  | String "+" digits => int_digits digits 0 false
  | String "-" digits => option_map Z.opp (int_digits digits 0 false)
  | digits => int_digits digits 0 false
  end.

Definition parse_version (value : string) : list Z :=
  let cleaned := strip value in
  let cleaned :=
    match cleaned with
    | String "v" rest => rest
    | _ => cleaned
    end in
  map (fun segment => default 0%Z (py_int segment)) (split "." cleaned).

(** [a > b] on tuples of integers. *)
Fixpoint tuple_gt (a b : list Z) : bool :=
  match a, b with
  | [], _ => false
  | _ :: _, [] => true
  | x :: a', y :: b' =>
      if (y <? x)%Z then true
      else if (x <? y)%Z then false
      else tuple_gt a' b'
  end.

Definition is_newer_version (latest current : string) : bool :=
  tuple_gt (parse_version latest) (parse_version current).

(** A version as the program's own [APP_VERSION] is written: numbers
    joined by dots. *)
Definition version_string (ns : list nat) : string :=
  join "." (map str_of_nat ns).

Fixpoint all_digits (s : string) : bool :=
  match s with
  | EmptyString => true
  | String c s' => is_digit c && all_digits s'
  end.

(** ** The segments of [apply_vad], in the statements *)

(** [a..e], both ends included, is a maximal block of consecutive
    members of [l]. *)
Definition index_run (l : list nat) (a e : nat) : Prop :=
  a <= e /\
  (forall j, a <= j <= e -> In j l) /\
  (a = 0 \/ ~ In (a - 1) l) /\
  ~ In (e + 1) l.

(** The invariant of the loop over [voiced_indices[1:]], with [l] the
    indices visited so far. *)
Definition segments_inv (l : list nat) (acc : list (nat * nat) * nat * nat) : Prop :=
  let '(segments, segment_start, prev_idx) := acc in
  segment_start <= prev_idx /\
  (forall j, segment_start <= j <= prev_idx -> In j l) /\
  (segment_start = 0 \/ ~ In (segment_start - 1) l) /\
  (forall x, In x l -> x <= prev_idx) /\
  (forall a e, In (a, e) segments <-> index_run l a e /\ e + 1 < segment_start).

(** ** The env file (whisprbar.py 144-164) *)

(** [s.strip(c)] for a one-character set. *)
Fixpoint lstrip_char (c : ascii) (s : string) : string :=
  match s with
  | EmptyString => EmptyString
  | String d s' => if Ascii.eqb d c then lstrip_char c s' else s
  end.

Fixpoint rstrip_char (c : ascii) (s : string) : string :=
  match s with
  | EmptyString => EmptyString
  | String d s' =>
      match rstrip_char c s' with
      | EmptyString => if Ascii.eqb d c then EmptyString else String d EmptyString
      | r => String d r
      end
  end.

Definition strip_char (c : ascii) (s : string) : string :=
  rstrip_char c (lstrip_char c s).

(** [s.split(sep, 1)] when [sep in s]: the text before the first
    separator and the text after it; [None] when there is none. *)
Fixpoint split_once (sep : ascii) (s : string) : option (string * string) :=
  match s with
  | EmptyString => None
  | String c s' =>
      if Ascii.eqb c sep then Some (EmptyString, s')
      else match split_once sep s' with
           | Some (a, b) => Some (String c a, b)
           | None => None
           end
  end.

Definition double_quote : ascii := ascii_of_nat 34.
Definition single_quote : ascii := ascii_of_nat 39.

(** The body of the loop over the lines of the file. *)
Definition env_line (values : gmap string string) (line : string)
  : gmap string string :=
  let stripped := strip line in
  if negb (nonempty stripped) || is_prefix "#" stripped then values
  else
    match split_once "=" stripped with
    | None => values
    | Some (key, value) =>
        let key := strip key in
        let value := strip_char single_quote (strip_char double_quote (strip value)) in
        if nonempty key then <[key := value]> values else values
    end.

(** [load_env_file_values] on the lines read from the file. *)
Definition load_env_file_values (lines : list string) : gmap string string :=
  fold_left env_line lines ∅.

(** A quote character around a value, or none. *)
Inductive quoting := Unquoted | DoubleQuoted | SingleQuoted.

Definition quoted (q : quoting) (value : string) : string :=
  match q with
  | Unquoted => value
  | DoubleQuoted =>
      String double_quote value +:+ String double_quote EmptyString
  | SingleQuoted =>
      String single_quote value +:+ String single_quote EmptyString
  end.

(** The first and the last character of [s] differ from [c]; the empty
    text passes. *)
Definition ends_free (c : ascii) (s : string) : bool :=
  String.eqb (strip_char c s) s.

(** White space only, as the end of a line is. *)
Fixpoint all_space (s : string) : bool :=
  match s with
  | EmptyString => true
  | String c s' => is_space c && all_space s'
  end.

Definition newline : string := String (ascii_of_nat 10) EmptyString.

(** ** The output of [apply_vad], in the statements *)


(* ================================================================== *)
(** * Part II. Theorems                                                *)
(* ================================================================== *)

(** ** Text lemmas *)

Lemma lstrip_id s : head_ok s = true -> lstrip s = s.
Proof.
  destruct s as [|c s]; simpl; [done|].
  intros Hc. apply negb_true_iff in Hc. by rewrite Hc.
Qed.

Lemma last_ok_nonempty s : last_ok s = true -> s <> EmptyString.
Proof. by destruct s. Qed.

Lemma rstrip_id s : last_ok s = true -> rstrip s = s.
Proof.
  induction s as [|c s IH]; [done|].
  destruct s as [|d s].
  - simpl. intros Hc. apply negb_true_iff in Hc. by rewrite Hc.
  - intros Hl. change (last_ok (String d s) = true) in Hl.
    specialize (IH Hl).
    change (rstrip (String c (String d s)))
      with (match rstrip (String d s) with
            | EmptyString => if is_space c then EmptyString else String c EmptyString
            | r => String c r
            end).
    by rewrite IH.
Qed.

Lemma strip_id s : head_ok s = true -> last_ok s = true -> strip s = s.
Proof. intros Hh Hl. unfold strip. rewrite lstrip_id by done. by apply rstrip_id. Qed.


Lemma lstrip_head s : lstrip s = EmptyString \/ head_ok (lstrip s) = true.
Proof.
  induction s as [|c s IH]; simpl; [by left|].
  destruct (is_space c) eqn:Ec; [done|]. right. simpl. by rewrite Ec.
Qed.

Lemma rstrip_head s : head_ok s = true -> head_ok (rstrip s) = true.
Proof.
  destruct s as [|c s]; simpl; [done|]. intros Hc.
  destruct (rstrip s); [|done].
  apply negb_true_iff in Hc. rewrite Hc. simpl. by rewrite Hc.
Qed.



Lemma upper_nonempty s : nonempty (upper s) = nonempty s.
Proof. by destruct s. Qed.

Lemma append_String c s t : (String c s +:+ t)%string = String c (s +:+ t).
Proof. done. Qed.

Lemma split_no_sep sep p : no_sep sep p = true -> split sep p = [p].
Proof.
  induction p as [|c p IH]; simpl; [done|].
  intros [Hc Hp]%andb_true_iff. apply negb_true_iff in Hc.
  rewrite Hc, IH by done. done.
Qed.

Lemma split_app sep p rest :
  no_sep sep p = true ->
  split sep (p +:+ String sep rest) = p :: split sep rest.
Proof.
  induction p as [|c p IH]; simpl.
  - intros _. by rewrite Ascii.eqb_refl.
  - intros [Hc Hp]%andb_true_iff. apply negb_true_iff in Hc.
    rewrite Hc, IH by done. done.
Qed.

Lemma split_join parts :
  parts <> [] ->
  Forall (fun p => no_sep "+" p = true) parts ->
  split "+" (join "+" parts) = parts.
Proof.
  induction parts as [|p ps IH]; [done|].
  intros _ Hall. apply Forall_cons in Hall as [Hp Hps].
  destruct ps as [|q ps].
  - simpl. by apply split_no_sep.
  - change (join "+" (p :: q :: ps))
      with (p +:+ String "+" (join "+" (q :: ps))).
    rewrite split_app by done. f_equal. by apply IH.
Qed.

Lemma head_ok_append p x : head_ok p = true -> head_ok (p +:+ x) = true.
Proof. by destruct p. Qed.

Lemma last_ok_append x p : last_ok p = true -> last_ok (x +:+ p) = true.
Proof.
  intros Hp. induction x as [|c x IH]; [done|].
  rewrite append_String.
  destruct (x +:+ p)%string eqn:E; [|done].
  by apply last_ok_nonempty in IH.
Qed.

Lemma join_head_last parts :
  parts <> [] ->
  Forall (fun p => clean_part p = true) parts ->
  head_ok (join "+" parts) = true /\ last_ok (join "+" parts) = true.
Proof.
  induction parts as [|p ps IH]; [done|].
  intros _ Hall. apply Forall_cons in Hall as [Hp Hps].
  unfold clean_part in Hp.
  apply andb_true_iff in Hp as [[Hh Hl]%andb_true_iff Hn].
  destruct ps as [|q ps]; [done|].
  destruct IH as [_ IHl]; [done|done|].
  change (join "+" (p :: q :: ps))
    with (p +:+ String "+" (join "+" (q :: ps))).
  split.
  - by apply head_ok_append.
  - apply last_ok_append.
    change (String "+" (join "+" (q :: ps)))
      with ("+" +:+ join "+" (q :: ps))%string.
    by apply last_ok_append.
Qed.

Lemma filter_Forall_id {A} (P : A -> Prop) `{forall x, Decision (P x)} (l : list A) :
  Forall P l -> filter P l = l.
Proof.
  induction 1 as [|x l Hx Hl IH]; [done|].
  rewrite filter_cons_True by done. by rewrite IH.
Qed.

Lemma map_Forall_id {A} (f : A -> A) (l : list A) :
  Forall (fun x => f x = x) l -> map f l = l.
Proof. induction 1; simpl; congruence. Qed.

Lemma hotkey_parts_join parts :
  parts <> [] ->
  Forall (fun p => clean_part p = true) parts ->
  hotkey_parts (join "+" parts) = parts.
Proof.
  intros Hne Hall. unfold hotkey_parts.
  rewrite split_join; [|done|].
  2:{ eapply Forall_impl; [exact Hall|]. intros p Hp. unfold clean_part in Hp.
      by apply andb_true_iff in Hp as [_ ?]. }
  rewrite map_Forall_id.
  2:{ eapply Forall_impl; [exact Hall|]. intros p Hp. unfold clean_part in Hp.
      apply andb_true_iff in Hp as [[Hh Hl]%andb_true_iff _]. by apply strip_id. }
  apply filter_Forall_id.
  eapply Forall_impl; [exact Hall|]. intros p Hp. unfold clean_part in Hp.
  apply andb_true_iff in Hp as [[Hh Hl]%andb_true_iff _]. by destruct p.
Qed.

(** ** Hotkey binding *)

Lemma FKEYS_names `{Pynput} (l : list nat) :
  forall t,
    In t (map fst (flat_map
      (fun idx =>
         match Key_attr ("f" +:+ str_of_nat idx) with
         | Some key_obj => [("F" +:+ str_of_nat idx, Key key_obj)]
         | None => []
         end) l)) ->
    In t (map (fun idx => "F" +:+ str_of_nat idx) l).
Proof.
  induction l as [|i l IH]; simpl; [done|].
  intros t. destruct (Key_attr _); simpl; intros Ht.
  - destruct Ht as [<-|Ht]; [by left|]. right. by apply IH.
  - right. by apply IH.
Qed.

Lemma in_FKEYS_fkey_name `{Pynput} t : in_FKEYS t = true -> is_fkey_name t = true.
Proof.
  unfold in_FKEYS, is_fkey_name. rewrite !existsb_exists.
  intros (x & Hx & Heq). exists x. split; [|done].
  by apply FKEYS_names.
Qed.

Lemma fkey_name_props t :
  is_fkey_name t = true ->
  clean_part t = true /\ upper t = t /\ nonempty t = true.
Proof.
  unfold is_fkey_name. rewrite existsb_exists.
  intros (x & Hx & Heq). apply String.eqb_eq in Heq. subst x.
  assert (Hall : forallb (fun t => clean_part t && String.eqb (upper t) t && nonempty t)
                   fkey_names = true) by (vm_compute; reflexivity).
  rewrite forallb_forall in Hall. specialize (Hall t Hx).
  apply andb_true_iff in Hall as [[H1 H2]%andb_true_iff H3].
  by apply String.eqb_eq in H2.
Qed.

Lemma parse_hotkey_parts `{Pynput} (b : string) (ps : list string) (t : string) :
  nonempty (strip b) = true ->
  hotkey_parts (strip b) = ps ++ [t] ->
  parse_hotkey (Some b) =
    match normalize_key_token (Some t) with
    | None => Returned fallback_binding
    | Some key_token =>
        Returned (list_to_set
                    (map upper
                       (filter (fun part => in_MODIFIER_MAP (upper part) = true) ps)),
                  key_token)
    end.
Proof.
  intros Hne Hparts. unfold parse_hotkey. simpl default. rewrite Hne. simpl negb.
  cbv iota. rewrite Hparts.
  assert (Hl : index_last (ps ++ [t]) = Returned t).
  { unfold index_last. by rewrite last_snoc. }
  assert (Ha : all_but_last (ps ++ [t]) = ps).
  { unfold all_but_last. apply take_app_length'. rewrite length_app. simpl. lia. }
  rewrite Hl, Ha.
  destruct (ps ++ [t]) eqn:E; [by destruct ps|]. done.
Qed.

Lemma modifier_name_props `{Pynput} m :
  m ∈ modifier_names ->
  clean_part m = true /\ upper m = m /\ in_MODIFIER_MAP (upper m) = true.
Proof.
  unfold modifier_names. rewrite !elem_of_union, !elem_of_singleton.
  intros [[[-> | ->] | ->] | ->]; by vm_compute.
Qed.

Lemma storable_token_props `{Pynput} token :
  storable_token token ->
  clean_part token = true /\ upper token = token /\
  normalize_key_token (Some token) = Some token.
Proof.
  intros [Hf | (c & -> & _ & Hs & Hu & Hp)].
  - destruct (fkey_name_props token) as (Hc & Hup & Hne);
      [by apply in_FKEYS_fkey_name|].
    split; [done|]. split; [done|].
    unfold normalize_key_token. simpl default.
    unfold clean_part in Hc.
    apply andb_true_iff in Hc as [[Hh Hl]%andb_true_iff _].
    rewrite strip_id by done. rewrite Hup, Hne. simpl. by rewrite Hf.
  - assert (Hc : clean_part (String c EmptyString) = true).
    { unfold clean_part. simpl. rewrite Hs. simpl.
      destruct (Ascii.eqb_spec c "+"); [done|]. done. }
    split; [done|]. split; [by simpl; rewrite Hu|].
    unfold normalize_key_token. simpl default.
    unfold clean_part in Hc.
    apply andb_true_iff in Hc as [[Hh Hl]%andb_true_iff _].
    rewrite strip_id by done. simpl. rewrite Hu.
    by destruct (in_FKEYS _).
Qed.





(** The separator as key token: the config string of CTRL with ["+"] is
    ["CTRL++"], which parses as the fallback. *)
Lemma hotkey_roundtrip_plus :
  key_to_config_string (H := pynput_base) (TupleArg ({[ "CTRL"%string ]}, "+"%string))
  = "CTRL++"%string /\
  parse_hotkey (H := pynput_base) (Some "CTRL++"%string) = Returned fallback_binding.
Proof. split; vm_compute; reflexivity. Qed.

(** ** Hotkey listener *)

Lemma key_eqb_eq a b : key_eqb a b = true <-> a = b.
Proof.
  destruct a as [i|[c|]], b as [j|[d|]]; simpl; split; try done.
  - intros ?%Nat.eqb_eq. by subst.
  - intros [= ->]. apply Nat.eqb_refl.
  - intros ?%String.eqb_eq. by subst.
  - intros [= ->]. apply String.eqb_refl.
Qed.

Lemma key_eqb_refl a : key_eqb a a = true.
Proof. by apply key_eqb_eq. Qed.

Lemma key_held_snoc evs e k :
  key_held (evs ++ [e]) k = if key_eqb (ev_key e) k then ev_press e else key_held evs k.
Proof. unfold key_held. by rewrite fold_left_app. Qed.

Lemma listener_after_snoc `{Pynput} b evs e st :
  listener_after b (evs ++ [e]) st = fst (listener_step b e (listener_after b evs st)).
Proof. unfold listener_after. by rewrite fold_left_app. Qed.

Lemma listener_run_lookup `{Pynput} b evs st i a :
  listener_run b evs st !! i = Some a ->
  exists e, evs !! i = Some e /\
            a = snd (listener_step b e (listener_after b (take i evs) st)).
Proof.
  revert st i. induction evs as [|e evs IH]; intros st i; [done|].
  simpl. destruct (listener_step b e st) as [st' a'] eqn:E.
  destruct i as [|i]; simpl.
  - intros [= <-]. exists e. by rewrite E.
  - intros Hi. apply IH in Hi as (e' & He' & ->). exists e'. split; [done|].
    unfold listener_after. simpl. by rewrite E.
Qed.

(** A toggle is fired by a key-down of the configured token that was not
    held, with the required modifiers tracked; it marks the token held. *)
Lemma listener_step_toggle `{Pynput} b e st st' :
  listener_step b e st = (st', ToggleRecording) ->
  is_key_down (snd b) e /\ (snd b ∉ active_tokens st) /\
  (snd b ∈ active_tokens st') /\ (fst b ⊆ active_modifiers st) /\
  ev_capture e = false.
Proof.
  unfold listener_step, on_press, is_key_down. destruct b as [mods tok]. simpl.
  destruct (ev_press e); [|done].
  destruct (ev_recording e && key_eqb (ev_key e) (Key Key_esc)); [done|].
  destruct (ev_capture e); [done|].
  destruct (modifier_name (ev_key e)); [done|].
  destruct (event_to_token (ev_key e)) as [token|]; [|done].
  destruct (String.eqb_spec token tok) as [->|]; simpl; [|done].
  destruct (decide (tok ∈ active_tokens st)); [done|].
  destruct (decide (mods ⊆ active_modifiers st)); [|done].
  intros [= <-]. simpl. repeat split; try done. set_solver.
Qed.

(** Only a key-up of the token, outside capture, removes it from the held
    tokens. *)
Lemma listener_step_keeps_token `{Pynput} b e st tok :
  tok ∈ active_tokens st ->
  is_key_up tok e \/ tok ∈ active_tokens (fst (listener_step b e st)).
Proof.
  intros Hin. unfold listener_step, is_key_up.
  destruct (ev_press e) eqn:Ep.
  - right. unfold on_press. destruct b as [mods rtok].
    destruct (ev_recording e && key_eqb (ev_key e) (Key Key_esc)); [done|].
    destruct (ev_capture e); [done|].
    destruct (modifier_name (ev_key e)); [done|].
    destruct (event_to_token (ev_key e)) as [token|]; [|done].
    destruct (negb _); [done|].
    destruct (decide _); [done|].
    destruct (decide _); simpl; set_solver.
  - simpl. unfold on_release.
    destruct (ev_capture e); [by right|].
    destruct (event_to_token (ev_key e)) as [token|] eqn:Et.
    + destruct (decide (token = tok)) as [->|Hne]; [by left|].
      right. destruct (modifier_name (ev_key e)); simpl; set_solver.
    + right. by destruct (modifier_name (ev_key e)).
Qed.

Lemma listener_no_refire `{Pynput} b evs st j :
  snd b ∈ active_tokens st ->
  listener_run b evs st !! j = Some ToggleRecording ->
  exists k e, k < j /\ evs !! k = Some e /\ is_key_up (snd b) e.
Proof.
  revert st j. induction evs as [|e evs IH]; intros st j Hin; [done|].
  simpl. destruct (listener_step b e st) as [st' a] eqn:E.
  destruct j as [|j]; simpl.
  - intros [= ->]. apply listener_step_toggle in E as (_ & Hn & _). done.
  - intros Hj.
    destruct (listener_step_keeps_token b e st _ Hin) as [Hup | Hkeep].
    + exists 0, e. split; [lia|]. done.
    + rewrite E in Hkeep. simpl in Hkeep.
      destruct (IH st' j Hkeep Hj) as (k & e' & Hk & He' & Hup).
      exists (S k), e'. split; [lia|]. done.
Qed.

Lemma listener_once_per_press `{Pynput} b evs st i j :
  i < j ->
  listener_run b evs st !! i = Some ToggleRecording ->
  listener_run b evs st !! j = Some ToggleRecording ->
  exists k e, i < k < j /\ evs !! k = Some e /\ is_key_up (snd b) e.
Proof.
  revert st i j. induction evs as [|e evs IH]; intros st i j Hij; [done|].
  simpl. destruct (listener_step b e st) as [st' a] eqn:E.
  destruct j as [|j]; [lia|]. destruct i as [|i]; simpl.
  - intros [= ->] Hj.
    apply listener_step_toggle in E as (_ & _ & Hin & _).
    destruct (listener_no_refire b evs st' j Hin Hj) as (k & e' & Hk & He' & Hup).
    exists (S k), e'. split; [lia|]. done.
  - intros Hi Hj.
    destruct (IH st' i j ltac:(lia) Hi Hj) as (k & e' & Hk & He' & Hup).
    exists (S k), e'. split; [lia|]. done.
Qed.

(** A key-up outside capture leaves no tracked modifier of the key's own
    name. *)
Lemma on_release_modifiers `{Pynput} k st m :
  m ∈ active_modifiers (on_release false k st) ->
  m ∈ active_modifiers st /\ modifier_name k <> Some m.
Proof.
  unfold on_release.
  destruct (event_to_token k), (modifier_name k) as [m0|]; simpl;
    rewrite ?elem_of_difference, ?elem_of_singleton;
    try (intros [Hm Hne]; split; [done|congruence]);
    intros Hm; split; done.
Qed.

(** Outside capture, every tracked modifier name is the name of a key
    that is physically held. *)
Lemma listener_tracked_held `{Pynput} b evs :
  Forall (fun e => ev_capture e = false) evs ->
  forall m, m ∈ active_modifiers (listener_after b evs listener_init) ->
    exists k, key_held evs k = true /\ modifier_name k = Some m.
Proof.
  induction evs as [|e evs IH] using rev_ind; intros Hall m.
  { simpl. set_solver. }
  apply Forall_app in Hall as [Hall He]. apply Forall_inv in He.
  simpl in He.
  specialize (IH Hall).
  rewrite listener_after_snoc.
  set (st := listener_after b evs listener_init) in *.
  unfold listener_step. destruct (ev_press e) eqn:Ep.
  - assert (Hkeep : forall k, key_held evs k = true -> key_held (evs ++ [e]) k = true).
    { intros k Hk. rewrite key_held_snoc, Ep. by destruct (key_eqb _ _). }
    unfold on_press. destruct b as [mods rtok].
    destruct (ev_recording e && key_eqb (ev_key e) (Key Key_esc)).
    { simpl. intros Hm. destruct (IH m Hm) as (k & Hk & Hn). eauto. }
    rewrite He.
    destruct (modifier_name (ev_key e)) as [m0|] eqn:Em.
    { simpl. rewrite elem_of_union, elem_of_singleton. intros [-> | Hm].
      - exists (ev_key e). split; [|done].
        by rewrite key_held_snoc, key_eqb_refl.
      - destruct (IH m Hm) as (k & Hk & Hn). eauto. }
    assert (Hsame : forall st' a, active_modifiers st' = active_modifiers st ->
              m ∈ active_modifiers (fst (st', a : listener_action)) ->
              exists k, key_held (evs ++ [e]) k = true /\ modifier_name k = Some m).
    { intros st' a Heq. simpl. rewrite Heq. intros Hm.
      destruct (IH m Hm) as (k & Hk & Hn). eauto. }
    destruct (event_to_token (ev_key e)) as [token|]; [|by apply Hsame].
    destruct (negb _); [by apply Hsame|].
    destruct (decide _); [by apply Hsame|].
    destruct (decide _); by apply Hsame.
  - simpl. intros Hm. rewrite He in Hm.
    apply on_release_modifiers in Hm as [Hm Hne].
    destruct (IH m Hm) as (k & Hk & Hn). exists k. split; [|done].
    rewrite key_held_snoc, Ep.
    destruct (key_eqb (ev_key e) k) eqn:Ek; [|done].
    apply key_eqb_eq in Ek. congruence.
Qed.

(** C8.  In Listening mode (no event arrives while a capture is active),
    for every binding and every sequence of key events: between two
    firings of [toggle_recording] there is a key-up of the configured
    token, so one press fires at most once; and every firing happens at a
    key-down of the configured token while, for each required modifier, a
    key of that modifier is physically held. *)
Theorem listener_toggle_once_per_press `{Pynput}
    (HOTKEY_KEY : HotkeyBinding) (evs : list key_event) :
  Forall (fun e => ev_capture e = false) evs ->
  let fired := listener_run HOTKEY_KEY evs listener_init in
  (forall i j, i < j ->
     fired !! i = Some ToggleRecording -> fired !! j = Some ToggleRecording ->
     exists k e, i < k < j /\ evs !! k = Some e /\ is_key_up (snd HOTKEY_KEY) e) /\
  (forall i, fired !! i = Some ToggleRecording ->
     (exists e, evs !! i = Some e /\ is_key_down (snd HOTKEY_KEY) e) /\
     forall m, m ∈ fst HOTKEY_KEY ->
       exists k, key_held (take i evs) k = true /\ modifier_name k = Some m).
Proof.
  intros Hall fired. split.
  - intros i j Hij Hi Hj. by eapply listener_once_per_press.
  - intros i Hi. unfold fired in Hi.
    apply listener_run_lookup in Hi as (e & He & Ha).
    destruct (listener_step HOTKEY_KEY e
                (listener_after HOTKEY_KEY (take i evs) listener_init))
      as [st' a] eqn:E.
    simpl in Ha. subst a.
    apply listener_step_toggle in E as (Hdown & _ & _ & Hsub & _).
    split; [by exists e|].
    intros m Hm. apply (listener_tracked_held HOTKEY_KEY).
    + by apply Forall_take.
    + by apply Hsub.
Qed.

(** ** Recording session *)

Lemma notify_spec cfg msg w :
  exists w', notify cfg msg w = (Returned tt, w') /\
    state w' = state w /\ AUDIO_QUEUE w' = AUDIO_QUEUE w /\
    (forall o, In o (outputs w) -> In o (outputs w')) /\
    (default true (notifications_enabled cfg) = true ->
     In (NotifySend APP_NAME msg) (outputs w')).
Proof.
  unfold notify. destruct (default true (notifications_enabled cfg)); simpl.
  - eexists. split; [reflexivity|]. simpl. repeat split; try done.
    + intros o Ho. apply in_or_app. by left.
    + intros _. apply in_or_app. right. by left.
  - eexists. split; [reflexivity|]. repeat split; done.
Qed.



(** What the [try] does not cover: an exception of the device lookup
    leaves [start_recording]. *)
Lemma start_recording_lookup_raises
    `{ModuleGlobals} `{Sounddevice} `{Tray}
    (cfg : config) (w w1 : world) (exc : py_exception) :
  recording (state w) = false ->
  update_device_index cfg w = (Raised exc, w1) ->
  start_recording cfg w = (Raised exc, w1).
Proof.
  intros Hrec Hdev.
  unfold start_recording, mbind, M_bind, get_state.
  by rewrite Hrec, Hdev.
Qed.

(** ** Masks and [_drop_short_runs] *)

Lemma flatnonzero_from_In i mask j :
  In j (flatnonzero_from i mask) <-> i <= j /\ nth (j - i) mask false = true.
Proof.
  revert i. induction mask as [|b mask IH]; intros i; simpl.
  - split; [done|]. intros [_ Hn]. by destruct (j - i).
  - assert (Hrest : In j (flatnonzero_from (S i) mask) <->
                    i < j /\ nth (j - i) (b :: mask) false = true).
    { rewrite IH. split.
      - intros [Hle Hn]. split; [lia|].
        replace (j - i) with (S (j - S i)) by lia. done.
      - intros [Hlt Hn]. split; [lia|].
        replace (j - i) with (S (j - S i)) in Hn by lia. done. }
    destruct b; simpl.
    + rewrite Hrest. split.
      * intros [<- | [Hlt Hn]]; [|split; [lia|done]].
        split; [lia|]. by rewrite Nat.sub_diag.
      * intros [Hle Hn]. destruct (decide (i = j)) as [->|]; [by left|].
        right. split; [lia|done].
    + rewrite Hrest. split.
      * intros [Hlt Hn]. split; [lia|done].
      * intros [Hle Hn]. split; [|done].
        destruct (decide (i = j)) as [->|]; [|lia].
        by rewrite Nat.sub_diag in Hn.
Qed.

Lemma flatnonzero_from_sorted i mask : StronglySorted lt (flatnonzero_from i mask).
Proof.
  revert i. induction mask as [|b mask IH]; intros i; simpl; [constructor|].
  destruct b; [|apply IH].
  constructor; [apply IH|].
  apply Forall_forall. intros j Hj.
  apply list_elem_of_In, flatnonzero_from_In in Hj. lia.
Qed.

Lemma flatnonzero_In mask j : In j (flatnonzero mask) <-> nth j mask false = true.
Proof.
  unfold flatnonzero. rewrite flatnonzero_from_In, Nat.sub_0_r.
  split; [by intros [_ ?]|]. intros ?. split; [lia|done].
Qed.

Lemma nth_true_lt (m : list bool) j : nth j m false = true -> j < length m.
Proof.
  intros Hj. destruct (decide (j < length m)); [done|].
  rewrite nth_overflow in Hj by lia. done.
Qed.

Lemma clear_range_length l a b : length (clear_range l a b) = length l.
Proof.
  revert a b. induction l as [|x l IH]; intros a b; [done|].
  destruct b; [done|]. destruct a; simpl; by rewrite IH.
Qed.

Lemma clear_range_nth l a b j :
  nth j (clear_range l a b) false =
  if (a <=? j) && (j <? b) then false else nth j l false.
Proof.
  revert a b j. induction l as [|x l IH]; intros a b j.
  - simpl. destruct j; by destruct (_ && _).
  - destruct b as [|b].
    { simpl. rewrite andb_false_r. done. }
    destruct a as [|a], j as [|j]; simpl; try done; by rewrite IH.
Qed.

Lemma in_long_block_weaken m m' k bound bound' i :
  in_long_block m k bound i ->
  bound <= bound' ->
  (forall j, j < bound -> nth j m' false = nth j m false) ->
  in_long_block m' k bound' i.
Proof.
  intros (a & b & Hi & Hb & Hk & Hall) Hle Hsame.
  exists a, b. repeat split; try lia.
  intros j Hj. rewrite Hsame by lia. by apply Hall.
Qed.

Lemma drop_runs_step_inv mask k acc val rest :
  drop_runs_inv mask k acc (val :: rest) ->
  drop_runs_inv mask k (drop_runs_step k acc val) rest.
Proof.
  destruct acc as [[[cleaned start] prev] count].
  intros (Hlen & [Hsp Hcount] & Hrun & Hsame & Hsub & Hblk & Hsort & Hall & Htrue).
  apply StronglySorted_inv in Hsort as [Hsort Hprev].
  apply Forall_cons in Hprev as [Hpv Hprev].
  assert (Hval : nth val mask false = true) by (apply Htrue; by left).
  assert (Hall' : forall j, val < j -> nth j mask false = true -> In j rest).
  { intros j Hj Hm. destruct (Hall j ltac:(lia) Hm) as [->|]; [lia|done]. }
  assert (Htrue' : forall j, In j rest -> nth j mask false = true).
  { intros j Hj. apply Htrue. by right. }
  unfold drop_runs_step.
  destruct (Nat.eqb_spec val (prev + 1)) as [->|Hne].
  - repeat split; try done; try lia.
    + intros j Hj. destruct (decide (j = prev + 1)) as [->|]; [done|].
      apply Hrun. lia.
  - assert (Hgap : forall j, prev < j < val -> nth j mask false = false).
    { intros j Hj. destruct (nth j mask false) eqn:E; [|done].
      destruct (Hall j ltac:(lia) E) as [->|Hin]; [lia|].
      apply StronglySorted_inv in Hsort as [_ Hv].
      rewrite Forall_forall in Hv. apply list_elem_of_In, Hv in Hin. lia. }
    set (cleaned' := if (Z.of_nat count <? k)%Z
                     then clear_range cleaned start (prev + 1) else cleaned).
    assert (Hnth : forall j, nth j cleaned' false =
              if (Z.of_nat count <? k)%Z && (start <=? j) && (j <? prev + 1)
              then false else nth j cleaned false).
    { intros j. unfold cleaned'. destruct (Z.of_nat count <? k)%Z; [|done].
      simpl. rewrite clear_range_nth. done. }
    repeat split; try done; try lia.
    + unfold cleaned'. destruct (_ <? _)%Z; [|done]. by rewrite clear_range_length.
    + intros j Hj. by replace j with val by lia.
    + intros j Hj. rewrite Hnth.
      replace (j <? prev + 1) with false by (symmetry; apply Nat.ltb_ge; lia).
      rewrite andb_false_r. apply Hsame. lia.
    + intros j. rewrite Hnth. destruct (_ && _); [done|]. apply Hsub.
    + intros j Hj. rewrite Hnth.
      destruct (decide (j < start)) as [Hlt|Hge].
      * replace (start <=? j) with false by (symmetry; apply Nat.leb_gt; lia).
        rewrite andb_false_r. simpl. intros Hc.
        eapply in_long_block_weaken; [by apply Hblk| lia |].
        intros i Hi. rewrite Hnth.
        replace (start <=? i) with false by (symmetry; apply Nat.leb_gt; lia).
        by rewrite andb_false_r.
      * destruct (decide (j <= prev)) as [Hjp|Hjp].
        -- replace (start <=? j) with true by (symmetry; apply Nat.leb_le; lia).
           replace (j <? prev + 1) with true by (symmetry; apply Nat.ltb_lt; lia).
           destruct (Z.ltb_spec (Z.of_nat count) k); simpl; [done|]. intros _.
           exists start, (prev + 1). repeat split; try lia.
           intros i Hi. rewrite Hnth.
           replace (Z.of_nat count <? k)%Z with false
             by (symmetry; apply Z.ltb_ge; lia).
           simpl. rewrite Hsame by lia. apply Hrun. lia.
        -- replace (j <? prev + 1) with false by (symmetry; apply Nat.ltb_ge; lia).
           rewrite andb_false_r. rewrite Hsame by lia.
           rewrite Hgap by lia. done.
Qed.

Lemma drop_runs_fold_inv mask k rest acc :
  drop_runs_inv mask k acc rest ->
  drop_runs_inv mask k (fold_left (drop_runs_step k) rest acc) [].
Proof.
  revert acc. induction rest as [|val rest IH]; intros acc Hinv; [done|].
  simpl. apply IH. by apply drop_runs_step_inv.
Qed.

Lemma long_blocks_runs (m : list bool) (k : Z) :
  (forall j, nth j m false = true -> exists bound, in_long_block m k bound j) ->
  forall a b, is_run m a b -> (k <= Z.of_nat (b - a))%Z.
Proof.
  intros Hblk a b ([Hab Hb] & Hall & Hleft & Hright).
  destruct (Hblk a) as (bound & a' & b' & Ha & _ & Hk & Htrue).
  { apply Hall. lia. }
  assert (a' = a).
  { destruct Hleft as [->|Hleft]; [lia|].
    destruct (decide (a' = a)); [done|].
    rewrite Htrue in Hleft by lia. done. }
  assert (b' <= b).
  { destruct (decide (b' <= b)); [done|].
    rewrite Htrue in Hright by lia. done. }
  lia.
Qed.

(** C3.  For every mask and every [min_len], the mask returned by
    [_drop_short_runs] has the length of the input, each of its maximal
    runs of true entries has at least [min_len] entries, and an entry
    that is true in it is true in the input. *)
Theorem drop_short_runs_spec (mask : list bool) (min_len : Z) :
  length (_drop_short_runs mask min_len) = length mask /\
  (forall a b, is_run (_drop_short_runs mask min_len) a b ->
               (min_len <= Z.of_nat (b - a))%Z) /\
  (forall i, nth i (_drop_short_runs mask min_len) false = true ->
             nth i mask false = true).
Proof.
  unfold _drop_short_runs.
  destruct (Z.leb_spec min_len 1) as [Hle|Hgt].
  { split; [done|]. split; [|done]. intros a b [Hab _]. lia. }
  pose proof (flatnonzero_In mask) as Hin.
  pose proof (flatnonzero_from_sorted 0 mask) as Hsorted.
  fold (flatnonzero mask) in Hsorted.
  destruct (flatnonzero mask) as [|i0 rest] eqn:Enz.
  { split; [done|]. split; [|done].
    intros a b ([Hab _] & Hall & _). specialize (Hall a ltac:(lia)).
    by apply Hin in Hall. }
  assert (Hinit : drop_runs_inv mask min_len (mask, i0, i0, 1) rest).
  { repeat split; try done; try lia.
    - intros j Hj. replace j with i0 by lia. apply Hin. by left.
    - intros j Hj Hm. apply Hin in Hm as [->|Hm]; [lia|].
      apply StronglySorted_inv in Hsorted as [_ Hlt].
      rewrite Forall_forall in Hlt. apply list_elem_of_In, Hlt in Hm. lia.
    - intros j Hj Hm. apply Hin in Hm as [->|Hm]; [lia|done].
    - intros j Hj. apply Hin. by right. }
  apply drop_runs_fold_inv in Hinit.
  destruct (fold_left (drop_runs_step min_len) rest (mask, i0, i0, 1))
    as [[[cleaned start] prev] count].
  destruct Hinit as
    (Hlen & [Hsp Hcount] & Hrun & Hsame & Hsub & Hblk & _ & Hall & _).
  set (out := if (Z.of_nat count <? min_len)%Z
              then clear_range cleaned start (prev + 1) else cleaned).
  assert (Hnth : forall j, nth j out false =
            if (Z.of_nat count <? min_len)%Z && (start <=? j) && (j <? prev + 1)
            then false else nth j cleaned false).
  { intros j. unfold out. destruct (Z.of_nat count <? min_len)%Z; [|done].
    simpl. rewrite clear_range_nth. done. }
  split.
  { unfold out. destruct (_ <? _)%Z; [|done]. by rewrite clear_range_length. }
  split.
  - apply long_blocks_runs. intros j. rewrite Hnth.
    destruct (decide (j < start)) as [Hlt|Hge].
    + replace (start <=? j) with false by (symmetry; apply Nat.leb_gt; lia).
      rewrite andb_false_r. simpl. intros Hc. exists start.
      eapply in_long_block_weaken; [by apply Hblk| lia |].
      intros i Hi. rewrite Hnth.
      replace (start <=? i) with false by (symmetry; apply Nat.leb_gt; lia).
      by rewrite andb_false_r.
    + destruct (decide (j <= prev)) as [Hjp|Hjp].
      * replace (start <=? j) with true by (symmetry; apply Nat.leb_le; lia).
        replace (j <? prev + 1) with true by (symmetry; apply Nat.ltb_lt; lia).
        destruct (Z.ltb_spec (Z.of_nat count) min_len); simpl; [done|]. intros _.
        exists (prev + 1), start, (prev + 1). repeat split; try lia.
        intros i Hi. rewrite Hnth.
        replace (Z.of_nat count <? min_len)%Z with false
          by (symmetry; apply Z.ltb_ge; lia).
        simpl. rewrite Hsame by lia. apply Hrun. lia.
      * replace (j <? prev + 1) with false by (symmetry; apply Nat.ltb_ge; lia).
        rewrite andb_false_r. rewrite Hsame by lia. intros Hm.
        by apply Hall in Hm; [|lia].
  - intros i. rewrite Hnth. destruct (_ && _); [done|]. apply Hsub.
Qed.

(** ** Arrays *)

Lemma reshape_take_concat {A} (n c k : nat) (l : list A) :
  k <= n -> n * c <= length l ->
  concat (take k (reshape n c l)) = take (k * c) l.
Proof.
  revert k l. induction n as [|n IH]; intros k l Hk Hl.
  - by replace k with 0 by lia.
  - destruct k as [|k]; [done|]. simpl.
    rewrite IH; [|lia|rewrite length_drop; lia].
    by rewrite take_take_drop.
Qed.

Lemma reshape_drop {A} (n c s : nat) (l : list A) :
  drop s (reshape n c l) = reshape (n - s) c (drop (s * c) l).
Proof.
  revert s l. induction n as [|n IH]; intros s l.
  - simpl. by rewrite drop_nil.
  - destruct s as [|s]; [done|]. simpl.
    rewrite IH. by rewrite drop_drop.
Qed.

Lemma reshape_slice_concat {A} (n c s e : nat) (l : list A) :
  e <= n -> n * c <= length l ->
  concat (slice (reshape n c l) s e) = slice l (s * c) (e * c).
Proof.
  intros He Hl. unfold slice.
  destruct (decide (s <= e)) as [Hse|Hse].
  - rewrite reshape_drop.
    rewrite reshape_take_concat; [|lia|rewrite length_drop; nia].
    by rewrite Nat.mul_sub_distr_r.
  - replace (e - s) with 0 by lia. replace (e * c - s * c) with 0 by nia. done.
Qed.

Lemma slice_take {A} (l : list A) (m a b : nat) :
  b <= m -> slice (take m l) a b = slice l a b.
Proof.
  intros Hb. unfold slice. rewrite skipn_firstn_comm.
  rewrite take_take. f_equal. lia.
Qed.

Lemma slice_map {A B} (f : A -> B) (l : list A) (a b : nat) :
  slice (map f l) a b = map f (slice l a b).
Proof. unfold slice. by rewrite skipn_map, firstn_map. Qed.

Lemma total_frames_bound (pcm16 : list Z) :
  total_frames_of pcm16 * frame_length <= length pcm16.
Proof.
  unfold total_frames_of. rewrite Nat.mul_comm.
  apply Nat.Div0.mul_div_le.
Qed.

(** A segment's buffer is a range of the quantized samples. *)
Lemma segment_buffer_slice (pcm16 : list Z) (padding : nat) (seg : nat * nat) :
  exists a b, b <= length pcm16 /\
    segment_buffer (frames_of pcm16) (total_frames_of pcm16) padding seg
    = slice pcm16 a b.
Proof.
  pose proof (total_frames_bound pcm16) as Hb.
  unfold segment_buffer, frames_of, padded_bounds. simpl.
  set (n := total_frames_of pcm16) in *.
  set (e := Nat.min n (seg.2 + padding + 1)).
  set (s := seg.1 - padding).
  exists (s * frame_length), (e * frame_length).
  assert (He : e <= n) by (unfold e; lia).
  split; [nia|].
  rewrite reshape_slice_concat; [|done|rewrite length_take; lia].
  apply slice_take. nia.
Qed.

Lemma remainder_slice (pcm16 : list Z) :
  remainder_of pcm16
  = slice pcm16 (total_frames_of pcm16 * frame_length) (length pcm16).
Proof.
  unfold remainder_of, slice. rewrite take_ge; [done|].
  rewrite length_drop. lia.
Qed.

(** ** Segment extraction *)

Lemma remainder_once_not_pending frames total padding remainder kept :
  remainder_once frames total padding remainder false kept
  = map (segment_buffer frames total padding) kept.
Proof. induction kept as [|seg kept IH]; simpl; [done|]. by rewrite IH. Qed.

Lemma extract_step_spec `{FloatOps} frames total padding remainder rms floor
    acc (appended : bool) seg :
  extract_step frames total padding remainder rms floor (acc, appended) seg
  = if length (segment_buffer frames total padding seg) =? 0 then (acc, appended)
    else if negb appended && negb (length remainder =? 0)
            && reaches_end total padding seg && fl_le floor rms
         then (acc ++ [segment_buffer frames total padding seg ++ remainder], true)
         else (acc ++ [segment_buffer frames total padding seg], appended).
Proof.
  unfold extract_step, segment_buffer, reaches_end.
  by destruct (padded_bounds total padding seg).
Qed.

(** The loop, from any accumulator, against the rule. *)
Lemma extract_fold_spec `{FloatOps} frames total padding remainder rms floor
    segs acc (appended : bool) :
  fst (fold_left (extract_step frames total padding remainder rms floor)
                 segs (acc, appended))
  = acc ++ remainder_once frames total padding remainder
             (negb appended && negb (length remainder =? 0) && fl_le floor rms)
             (output_segments frames total padding segs).
Proof.
  revert acc appended. induction segs as [|seg segs IH]; intros acc appended.
  { simpl. by rewrite app_nil_r. }
  change (fold_left ?f (seg :: segs) ?a) with (fold_left f segs (f a seg)).
  rewrite extract_step_spec.
  unfold output_segments. simpl List.filter.
  fold (output_segments frames total padding segs).
  destruct (length (segment_buffer frames total padding seg) =? 0) eqn:El;
    simpl negb; cbv iota.
  { apply IH. }
  simpl remainder_once.
  destruct appended, (length remainder =? 0), (reaches_end total padding seg),
    (fl_le floor rms) eqn:Ele; simpl; rewrite IH; rewrite ?Ele; simpl;
    rewrite ?remainder_once_not_pending; by rewrite <- app_assoc.
Qed.

Lemma extract_segments_spec `{FloatOps} frames total padding remainder rms floor segs :
  extract_segments frames total padding remainder rms floor segs
  = remainder_once frames total padding remainder
      (negb (length remainder =? 0) && fl_le floor rms)
      (output_segments frames total padding segs).
Proof. unfold extract_segments. by rewrite extract_fold_spec. Qed.

(** The rule, position by position: [tail_at] is where the remainder is. *)
Lemma remainder_once_positions frames total padding remainder (pending : bool) kept :
  exists tail_at : option nat,
    length (remainder_once frames total padding remainder pending kept) = length kept /\
    (forall i seg, kept !! i = Some seg ->
       remainder_once frames total padding remainder pending kept !! i
       = Some (segment_buffer frames total padding seg ++
               (if decide (tail_at = Some i) then remainder else []))) /\
    match tail_at with
    | Some i =>
        pending = true /\
        (exists seg, kept !! i = Some seg /\ reaches_end total padding seg = true) /\
        (forall j seg, j < i -> kept !! j = Some seg ->
                       reaches_end total padding seg = false)
    | None =>
        pending = false \/
        Forall (fun seg => reaches_end total padding seg = false) kept
    end.
Proof.
  induction kept as [|seg kept IH].
  { exists None. split; [done|]. split; [done|]. by right. }
  simpl. destruct (pending && reaches_end total padding seg) eqn:Ec.
  - apply andb_true_iff in Ec as [-> Hr].
    exists (Some 0). split; [by simpl; rewrite length_map|]. split.
    + intros [|i] seg'; simpl.
      * intros [= <-]. done.
      * intros Hi. rewrite list_lookup_fmap, Hi. simpl.
        destruct (decide (Some 0 = Some (S i))) as [[=]|_]. by rewrite app_nil_r.
    + split; [done|]. split; [by exists seg|]. intros j seg' Hj. lia.
  - destruct IH as (tail_at & Hlen & Hat & Hcond).
    exists (S <$> tail_at). split; [by simpl; rewrite Hlen|]. split.
    + intros [|i] seg'; simpl.
      * intros [= <-]. destruct tail_at; simpl.
        -- destruct (decide (Some (S n) = Some 0)) as [[=]|_]. by rewrite app_nil_r.
        -- destruct (decide (None = Some 0)) as [[=]|_]. by rewrite app_nil_r.
      * intros Hi. rewrite (Hat i seg' Hi). do 2 f_equal.
        destruct tail_at as [t|]; simpl; [|done].
        destruct (decide (Some t = Some i)) as [Heq|Hne];
          destruct (decide (Some (S t) = Some (S i))) as [Heq'|Hne']; try done.
        ++ destruct Hne'. congruence.
        ++ destruct Hne. congruence.
    + destruct tail_at as [t|]; simpl.
      * destruct Hcond as (Hp & Hex & Hbefore). split; [done|]. split; [done|].
        intros [|j] seg'; simpl.
        -- intros _ [= <-]. rewrite Hp in Ec. done.
        -- intros Hj Hl. apply (Hbefore j); [lia|done].
      * destruct Hcond as [Hp | Hall]; [by left|].
        apply andb_false_iff in Ec as [Hp | Hr]; [by left|].
        right. by constructor.
Qed.

(** C6 (amended).  In the segment extraction of [apply_vad] the remainder
    is appended to at most one output segment, at [tail_at]; when it is
    appended the remainder is not empty, its RMS is at or above the energy
    floor ([remainder_rms >= energy_floor]), and the segment is the first
    output segment whose padded end reaches the end of the framed buffer;
    when the remainder is empty, its RMS is not at or above the floor, or
    no output segment's padded end reaches the end, no buffer holds the
    remainder. *)
Theorem remainder_appended_once `{FloatOps}
    (frames : list (list Z)) (total_frames padding_frames : nat)
    (remainder_flat : list Z) (remainder_rms energy_floor : fl)
    (segments : list (nat * nat)) :
  exists tail_at : option nat,
    length (extract_segments frames total_frames padding_frames remainder_flat
              remainder_rms energy_floor segments)
    = length (output_segments frames total_frames padding_frames segments) /\
    (forall i seg,
       output_segments frames total_frames padding_frames segments !! i = Some seg ->
       extract_segments frames total_frames padding_frames remainder_flat
         remainder_rms energy_floor segments !! i
       = Some (segment_buffer frames total_frames padding_frames seg ++
               (if decide (tail_at = Some i) then remainder_flat else []))) /\
    match tail_at with
    | Some i =>
        remainder_flat <> [] /\
        fl_le energy_floor remainder_rms = true /\
        (exists seg,
           output_segments frames total_frames padding_frames segments !! i = Some seg /\
           reaches_end total_frames padding_frames seg = true) /\
        (forall j seg, j < i ->
           output_segments frames total_frames padding_frames segments !! j = Some seg ->
           reaches_end total_frames padding_frames seg = false)
    | None =>
        remainder_flat = [] \/
        fl_le energy_floor remainder_rms = false \/
        Forall (fun seg => reaches_end total_frames padding_frames seg = false)
               (output_segments frames total_frames padding_frames segments)
    end.
Proof.
  rewrite extract_segments_spec.
  destruct (remainder_once_positions frames total_frames padding_frames remainder_flat
              (negb (length remainder_flat =? 0) && fl_le energy_floor remainder_rms)
              (output_segments frames total_frames padding_frames segments))
    as (tail_at & Hlen & Hat & Hcond).
  exists tail_at. split; [done|]. split; [done|].
  destruct tail_at as [i|].
  - destruct Hcond as (Hp & Hex & Hbefore).
    apply andb_true_iff in Hp as [Hr Hle].
    split; [|done]. intros ->. done.
  - destruct Hcond as [Hp | Hall]; [|by right; right].
    apply andb_false_iff in Hp as [Hr | Hle]; [|by right; left].
    left. apply negb_false_iff, Nat.eqb_eq in Hr. by destruct remainder_flat.
Qed.

(** ** [apply_vad] *)

(** C4.  When voice-activity filtering is off ([cfg.get("use_vad")] is
    false or absent), [apply_vad] returns its input, sample for sample. *)
Theorem apply_vad_disabled_identity `{ModuleGlobals} `{FloatOps} `{Webrtcvad}
    (cfg : config) (audio : list fl) :
  default false (use_vad cfg) = false ->
  apply_vad cfg audio = Returned audio.
Proof.
  intros Hoff. unfold apply_vad, apply_vad_traced. by rewrite Hoff.
Qed.

Lemma classify_frames_fails `{Webrtcvad} vad frames :
  vad_fails_on vad frames -> classify_frames vad frames = None.
Proof.
  induction 1 as [vad frame frames e He | vad frame frames b vad' He _ IH]; simpl.
  - by rewrite He.
  - by rewrite He, IH.
Qed.

(** C5.  Whatever the input and the configuration, when the classifier
    object has been built and [is_speech] raises on one of the frames,
    [apply_vad] returns the original input. *)
Theorem apply_vad_classifier_failure `{ModuleGlobals} `{FloatOps} `{Webrtcvad}
    (cfg : config) (audio : list fl) (vad : vad_obj) :
  make_vad cfg = Returned vad ->
  vad_fails_on vad (frames_of (map quantize audio)) ->
  apply_vad cfg audio = Returned audio.
Proof.
  intros Hvad Hfail. unfold apply_vad, apply_vad_traced.
  destruct (negb (default false (use_vad cfg)) || negb VAD_AVAILABLE); [done|].
  destruct (frame_length <=? 0); [done|].
  destruct (total_frames_of (map quantize audio) =? 0); [done|].
  rewrite Hvad. by rewrite (classify_frames_fails _ _ Hfail).
Qed.

(** Every [return] of [apply_vad] but the last gives the input back; the
    last gives the de-quantized segment buffers, and only when the
    retained ratio is not below the minimum. *)
Lemma apply_vad_traced_cases `{ModuleGlobals} `{FloatOps} `{Webrtcvad}
    (cfg : config) (audio : list fl) (site : return_site) (out : list fl) :
  apply_vad_traced cfg audio = Returned (site, out) ->
  (site <> ret_processed /\ out = audio) \/
  (site = ret_processed /\
   exists segments : list (nat * nat),
     out = map dequantize
             (concat (extract_segments
                        (frames_of (map quantize audio))
                        (total_frames_of (map quantize audio))
                        (padding_frames_of cfg)
                        (remainder_of (map quantize audio))
                        (remainder_rms_of (remainder_of (map quantize audio)))
                        (energy_floor_of cfg) segments)) /\
     fl_lt (fl_div (fl_of_int (Z.of_nat (length out)))
                   (fl_of_int (Z.of_nat (length audio))))
           (fl_lit (default (4 # 10)%Q (vad_min_output_ratio cfg))) = false).
Proof.
  unfold apply_vad_traced. intros Heq.
  repeat case_match; simplify_eq; try (left; split; [discriminate|reflexivity]).
  - match goal with
    | Hl : (length audio =? 0) = true |- _ =>
        apply Nat.eqb_eq in Hl; destruct audio; [|done]
    end.
    match goal with
    | Ht : (total_frames_of (map quantize []) =? 0) = false |- _ =>
        by vm_compute in Ht
    end.
  - right. split; [done|].
    match goal with
    | Hx : extract_segments _ _ _ _ _ _ ?segs = _ |- _ =>
        exists segs; rewrite Hx
    end.
    split; [reflexivity|assumption].
Qed.

Lemma requantized_from_nil `{FloatOps} audio : requantized_from audio [].
Proof. exists []. by split. Qed.

Lemma requantized_from_app `{FloatOps} audio out1 out2 :
  requantized_from audio out1 -> requantized_from audio out2 ->
  requantized_from audio (out1 ++ out2).
Proof.
  intros (r1 & Hr1 & ->) (r2 & Hr2 & ->). exists (r1 ++ r2). split.
  - by apply Forall_app.
  - by rewrite map_app, concat_app, map_app.
Qed.

Lemma requantized_from_slice `{FloatOps} audio a b :
  b <= length audio ->
  requantized_from audio (map dequantize (slice (map quantize audio) a b)).
Proof.
  intros Hb. exists [(a, b)]. split; [by repeat constructor|].
  simpl. rewrite app_nil_r, slice_map, map_map. done.
Qed.

Lemma requantized_from_buffers `{FloatOps} audio padding remainder_rms floor segments :
  requantized_from audio
    (map dequantize
       (concat (extract_segments
                  (frames_of (map quantize audio))
                  (total_frames_of (map quantize audio)) padding
                  (remainder_of (map quantize audio))
                  remainder_rms floor segments))).
Proof.
  rewrite extract_segments_spec.
  set (pcm16 := map quantize audio).
  set (pending := negb _ && _). clearbody pending.
  set (kept := output_segments _ _ _ _). clearbody kept.
  assert (Hseg : forall seg,
    requantized_from audio
      (map dequantize (segment_buffer (frames_of pcm16) (total_frames_of pcm16)
                         padding seg))).
  { intros seg. destruct (segment_buffer_slice pcm16 padding seg) as (a & b & Hb & ->).
    apply requantized_from_slice. unfold pcm16 in Hb. by rewrite length_map in Hb. }
  assert (Hrem : requantized_from audio (map dequantize (remainder_of pcm16))).
  { rewrite remainder_slice. unfold pcm16 at 1 3. rewrite length_map.
    by apply requantized_from_slice. }
  assert (Hplain : forall l,
    requantized_from audio
      (map dequantize
         (concat (map (segment_buffer (frames_of pcm16) (total_frames_of pcm16) padding)
                      l)))).
  { induction l as [|seg l IH]; simpl; [apply requantized_from_nil|].
    rewrite map_app. by apply requantized_from_app. }
  revert pending. induction kept as [|seg kept IH]; intros pending; simpl.
  { apply requantized_from_nil. }
  destruct (pending && _); simpl; rewrite !map_app.
  - apply requantized_from_app; [|apply Hplain].
    apply requantized_from_app; [apply Hseg|apply Hrem].
  - apply requantized_from_app; [apply Hseg|apply IH].
Qed.

Lemma list_same_eq l1 l2 : list_same l1 l2 = true -> l1 = l2.
Proof.
  revert l2. induction l1 as [|a l1 IH]; intros [|b l2]; simpl; try done.
  intros [Hab Hl]%andb_true_iff. f_equal; [|by apply IH].
  unfold Q_same in Hab. apply andb_true_iff in Hab as [Hn Hd].
  apply Z.eqb_eq in Hn. apply Pos.eqb_eq in Hd.
  destruct a, b; simpl in *; congruence.
Qed.

Lemma returns_same_eq r x : returns_same r x = true -> r = Returned x.
Proof.
  destruct r as [l|e]; simpl; [|done]. intros Hl. f_equal. by apply list_same_eq.
Qed.

Lemma returns_at_same_eq r site x :
  returns_at_same r site x = true -> r = Returned (site, x).
Proof.
  destruct r as [[s l]|e]; simpl; [|done].
  intros [Hs Hl]%andb_true_iff. apply list_same_eq in Hl. subst l.
  by destruct s, site.
Qed.




(** What [apply_vad] returns is the input itself, or re-quantized input
    samples whose count, divided by the input's, is not below the minimum
    retention ratio. *)
Theorem apply_vad_fallback_or_retained `{ModuleGlobals} `{FloatOps} `{Webrtcvad}
    (cfg : config) (audio out : list fl) :
  apply_vad cfg audio = Returned out ->
  out = audio \/
  (requantized_from audio out /\
   fl_lt (fl_div (fl_of_int (Z.of_nat (length out)))
                 (fl_of_int (Z.of_nat (length audio))))
         (fl_lit (default (4 # 10)%Q (vad_min_output_ratio cfg))) = false).
Proof.
  unfold apply_vad.
  destruct (apply_vad_traced cfg audio) as [[site out']|e] eqn:E; [|done].
  intros [= <-].
  apply apply_vad_traced_cases in E as [[_ ->] | (_ & segments & -> & Hr)];
    [by left|].
  right. split; [apply requantized_from_buffers|done].
Qed.

Lemma apply_vad_fallback_or_retained_witness :
  map (requantize (H := exact_floats)) (level_frames (1 # 2) 2) = floor_audio \/
  (requantized_from (H := exact_floats) floor_audio
     (map (requantize (H := exact_floats)) (level_frames (1 # 2) 2)) /\
   fl_lt (FloatOps := exact_floats)
         (fl_div (fl_of_int (Z.of_nat (length
                    (map (requantize (H := exact_floats)) (level_frames (1 # 2) 2)))))
                 (fl_of_int (Z.of_nat (length floor_audio))))
         (fl_lit (default (4 # 10)%Q (vad_min_output_ratio cfg_no_bridge))) = false).
Proof.
  apply (apply_vad_fallback_or_retained (H := vad_on) (H0 := exact_floats)
           (H1 := level_vad) cfg_no_bridge floor_audio).
  apply returns_same_eq. vm_compute. reflexivity.
Defined.

(** With bridging off, a lone voiced frame is erased by the second
    [_drop_short_runs]; [voiced_indices[0]] then raises, and the
    [IndexError] leaves [apply_vad]. *)
Theorem apply_vad_lone_frame_raises :
  bridge_mask cfg_no_bridge [false; true; false] = [false; false; false] /\
  apply_vad (H := vad_on) (H0 := exact_floats) (H1 := level_vad)
    cfg_no_bridge spike_audio = Raised IndexError.
Proof. split; vm_compute; reflexivity. Qed.

(** C6, as stated, fails at the floor itself: with the energy floor at
    0.0 a silent remainder has RMS 0.0, which is not above the floor, and
    it is appended all the same. *)
Lemma remainder_at_floor_counterexample :
  apply_vad_traced (H := vad_on) (H0 := exact_floats) (H1 := level_vad)
    cfg_floor_zero floor_audio
  = Returned (ret_processed, map (requantize (H := exact_floats)) floor_audio) /\
  extract_segments (H := exact_floats)
    (frames_of floor_pcm16) 2 7 (remainder_of floor_pcm16)
    (remainder_rms_of (remainder_of floor_pcm16))
    (energy_floor_of cfg_floor_zero) [(0, 1)]
  = [concat (frames_of floor_pcm16) ++ remainder_of floor_pcm16] /\
  remainder_of floor_pcm16 = [0%Z] /\
  fl_lt (FloatOps := exact_floats) (energy_floor_of cfg_floor_zero)
    (remainder_rms_of (remainder_of floor_pcm16)) = false.
Proof.
  split; [apply returns_at_same_eq; vm_compute; reflexivity|].
  repeat split; vm_compute; reflexivity.
Qed.

(** ** Instances of the theorems with hypotheses *)

Lemma apply_vad_disabled_identity_witness :
  apply_vad (H := vad_on) (H0 := exact_floats) (H1 := level_vad)
    DEFAULT_CFG floor_audio = Returned floor_audio.
Proof.
  apply (apply_vad_disabled_identity (H := vad_on) (H0 := exact_floats)
           (H1 := level_vad) DEFAULT_CFG floor_audio).
  reflexivity.
Defined.

Lemma apply_vad_classifier_failure_witness :
  apply_vad (H := vad_on) (H0 := exact_floats) (H1 := failing_vad)
    cfg_vad_on floor_audio = Returned floor_audio.
Proof.
  apply (apply_vad_classifier_failure (H := vad_on) (H0 := exact_floats)
           (H1 := failing_vad) cfg_vad_on floor_audio tt).
  - reflexivity.
  - vm_compute. eapply vad_fails_here. reflexivity.
Defined.


Lemma listener_toggle_once_per_press_witness :
  listener_run (H := pynput_base) ({[ "CTRL"%string ]}, "F9"%string)
    sample_events listener_init
  = [NoAction; ToggleRecording; NoAction; NoAction; ToggleRecording] /\
  exists k e, 1 < k < 4 /\ sample_events !! k = Some e /\
              is_key_up (H := pynput_base) "F9" e.
Proof.
  split; [vm_compute; reflexivity|].
  apply (proj1 (listener_toggle_once_per_press (H := pynput_base)
                  ({[ "CTRL"%string ]}, "F9"%string) sample_events
                  ltac:(repeat constructor)) 1 4);
    [lia | vm_compute; reflexivity | vm_compute; reflexivity].
Defined.

Lemma start_recording_lookup_raises_witness :
  start_recording (H := vad_on) (H0 := no_portaudio) (H1 := quiet_tray)
    cfg_usb_mic idle_world
  = (Raised (Exception "PortAudioError" "Error querying device"), idle_world).
Proof.
  apply (start_recording_lookup_raises (H := vad_on) (H0 := no_portaudio)
           (H1 := quiet_tray) cfg_usb_mic idle_world idle_world).
  - reflexivity.
  - reflexivity.
Defined.

(* ================================================================== *)
(** * Part II, continued. Further properties of the code                *)
(* ================================================================== *)

(** ** [_drop_short_runs]: what survives *)

Lemma drop_runs_step_keep mask k acc val rest :
  drop_runs_inv mask k acc (val :: rest) ->
  drop_runs_keep mask k acc ->
  drop_runs_keep mask k (drop_runs_step k acc val).
Proof.
  destruct acc as [[[cleaned start] prev] count].
  intros (Hlen & [Hsp Hcount] & Hrun & Hsame & Hsub & Hblk & Hsort & Hall & Htrue)
         [Hleft Hkeep].
  apply StronglySorted_inv in Hsort as [Hsort Hprev].
  apply Forall_cons in Hprev as [Hpv Hprev].
  unfold drop_runs_step.
  destruct (Nat.eqb_spec val (prev + 1)) as [->|Hne]; [by split|].
  assert (Hgap : forall j, prev < j < val -> nth j mask false = false).
  { intros j Hj. destruct (nth j mask false) eqn:E; [|done].
    destruct (Hall j ltac:(lia) E) as [->|Hin]; [lia|].
    apply StronglySorted_inv in Hsort as [_ Hv].
    rewrite Forall_forall in Hv. apply list_elem_of_In, Hv in Hin. lia. }
  split.
  { right. apply Hgap. lia. }
  intros j Hj Hlong.
  assert (Hnth : forall i, nth i (if (Z.of_nat count <? k)%Z
                                   then clear_range cleaned start (prev + 1)
                                   else cleaned) false =
            if (Z.of_nat count <? k)%Z && (start <=? i) && (i <? prev + 1)
            then false else nth i cleaned false).
  { intros i. destruct (Z.of_nat count <? k)%Z; [|done].
    simpl. rewrite clear_range_nth. done. }
  rewrite Hnth.
  destruct (decide (j < start)) as [Hlt|Hge].
  { replace (start <=? j) with false by (symmetry; apply Nat.leb_gt; lia).
    rewrite andb_false_r. simpl. by apply Hkeep. }
  destruct Hlong as (a & b & Hab & Hb & Hk & Hblock).
  assert (Hjp : j <= prev).
  { destruct (decide (j <= prev)); [done|].
    specialize (Hblock j ltac:(lia)). rewrite Hgap in Hblock by lia. done. }
  assert (Ha : start <= a).
  { destruct Hleft as [->|Hleft]; [lia|].
    destruct (decide (start <= a)); [done|].
    rewrite Hblock in Hleft by lia. done. }
  assert (Hb' : b <= prev + 1).
  { destruct (decide (b <= prev + 1)); [done|].
    specialize (Hblock (prev + 1) ltac:(lia)).
    rewrite Hgap in Hblock by lia. done. }
  replace (Z.of_nat count <? k)%Z with false by (symmetry; apply Z.ltb_ge; lia).
  simpl. rewrite Hsame by lia. apply Hrun. lia.
Qed.

Lemma drop_runs_fold_keep mask k rest acc :
  drop_runs_inv mask k acc rest ->
  drop_runs_keep mask k acc ->
  drop_runs_keep mask k (fold_left (drop_runs_step k) rest acc).
Proof.
  revert acc. induction rest as [|val rest IH]; intros acc Hinv Hkeep; [done|].
  simpl. apply IH.
  - by apply drop_runs_step_inv.
  - by eapply drop_runs_step_keep.
Qed.

Lemma in_long_block_true m k bound i :
  in_long_block m k bound i -> nth i m false = true.
Proof. intros (a & b & Hi & _ & _ & Hall). apply Hall. lia. Qed.

Lemma drop_short_runs_nth (mask : list bool) (min_len : Z) (i : nat) :
  nth i (_drop_short_runs mask min_len) false = true <->
  in_long_block mask min_len (length mask) i.
Proof.
  unfold _drop_short_runs.
  destruct (Z.leb_spec min_len 1) as [Hle|Hgt].
  { split; [|apply in_long_block_true].
    intros Hi. exists i, (i + 1). repeat split; try lia.
    - apply nth_true_lt in Hi. lia.
    - intros j Hj. by replace j with i by lia. }
  pose proof (flatnonzero_In mask) as Hin.
  pose proof (flatnonzero_from_sorted 0 mask) as Hsorted.
  fold (flatnonzero mask) in Hsorted.
  destruct (flatnonzero mask) as [|i0 rest] eqn:Enz.
  { split; [|apply in_long_block_true]. intros Hi. by apply Hin in Hi. }
  assert (Hfirst : forall j, nth j mask false = true -> i0 <= j).
  { intros j Hm. apply Hin in Hm as [->|Hm]; [lia|].
    apply StronglySorted_inv in Hsorted as [_ Hlt].
    rewrite Forall_forall in Hlt. apply list_elem_of_In, Hlt in Hm. lia. }
  assert (Hinit : drop_runs_inv mask min_len (mask, i0, i0, 1) rest).
  { repeat split; try done; try lia.
    - intros j Hj. replace j with i0 by lia. apply Hin. by left.
    - intros j Hj Hm. apply Hfirst in Hm. lia.
    - intros j Hj Hm. apply Hin in Hm as [->|Hm]; [lia|done].
    - intros j Hj. apply Hin. by right. }
  assert (Hinit' : drop_runs_keep mask min_len (mask, i0, i0, 1)).
  { split.
    - destruct i0 as [|i0']; [by left|]. right. simpl. rewrite Nat.sub_0_r.
      destruct (nth i0' mask false) eqn:E; [|done]. apply Hfirst in E. lia.
    - intros j Hj Hlong. by apply in_long_block_true in Hlong. }
  pose proof (drop_runs_fold_keep _ _ _ _ Hinit Hinit') as Hkeep.
  apply drop_runs_fold_inv in Hinit.
  destruct (fold_left (drop_runs_step min_len) rest (mask, i0, i0, 1))
    as [[[cleaned start] prev] count].
  destruct Hinit as
    (Hlen & [Hsp Hcount] & Hrun & Hsame & Hsub & Hblk & _ & Hall & _).
  destruct Hkeep as [Hleft Hkeep].
  set (out := if (Z.of_nat count <? min_len)%Z
              then clear_range cleaned start (prev + 1) else cleaned).
  assert (Hnth : forall j, nth j out false =
            if (Z.of_nat count <? min_len)%Z && (start <=? j) && (j <? prev + 1)
            then false else nth j cleaned false).
  { intros j. unfold out. destruct (Z.of_nat count <? min_len)%Z; [|done].
    simpl. rewrite clear_range_nth. done. }
  assert (Hend : forall j, prev < j -> nth j mask false = false).
  { intros j Hj. destruct (nth j mask false) eqn:E; [|done].
    by apply Hall in E. }
  rewrite Hnth. split.
  - destruct (decide (i < start)) as [Hlt|Hge].
    + replace (start <=? i) with false by (symmetry; apply Nat.leb_gt; lia).
      rewrite andb_false_r. simpl. intros Hc.
      destruct (Hblk i Hlt Hc) as (a & b & Hab & Hb & Hk & Hblock).
      exists a, b. repeat split; try lia.
      * specialize (Hblock (b - 1) ltac:(lia)). apply Hsub, nth_true_lt in Hblock. lia.
      * intros j Hj. apply Hsub. by apply Hblock.
    + destruct (decide (i <= prev)) as [Hip|Hip].
      * replace (start <=? i) with true by (symmetry; apply Nat.leb_le; lia).
        replace (i <? prev + 1) with true by (symmetry; apply Nat.ltb_lt; lia).
        destruct (Z.ltb_spec (Z.of_nat count) min_len); simpl; [done|]. intros _.
        exists start, (prev + 1). repeat split; try lia.
        -- specialize (Hrun prev ltac:(lia)). apply nth_true_lt in Hrun. lia.
        -- intros j Hj. apply Hrun. lia.
      * replace (i <? prev + 1) with false by (symmetry; apply Nat.ltb_ge; lia).
        rewrite andb_false_r. rewrite Hsame by lia. rewrite Hend by lia. done.
  - intros Hlong.
    destruct (decide (i < start)) as [Hlt|Hge].
    + replace (start <=? i) with false by (symmetry; apply Nat.leb_gt; lia).
      rewrite andb_false_r. simpl. by apply Hkeep.
    + destruct Hlong as (a & b & Hab & Hb & Hk & Hblock).
      assert (Hip : i <= prev).
      { destruct (decide (i <= prev)); [done|].
        specialize (Hblock i ltac:(lia)). rewrite Hend in Hblock by lia. done. }
      assert (Ha : start <= a).
      { destruct Hleft as [->|Hleft]; [lia|].
        destruct (decide (start <= a)); [done|].
        rewrite Hblock in Hleft by lia. done. }
      assert (Hb' : b <= prev + 1).
      { destruct (decide (b <= prev + 1)); [done|].
        specialize (Hblock (prev + 1) ltac:(lia)).
        rewrite Hend in Hblock by lia. done. }
      replace (Z.of_nat count <? min_len)%Z with false
        by (symmetry; apply Z.ltb_ge; lia).
      simpl. rewrite Hsame by lia. apply Hrun. lia.
Qed.

(** X5.  An entry of the result is true exactly when it lies in a block of at
    least [min_len] true entries of the input: short runs go, long runs
    stay whole. *)
Theorem drop_short_runs_exact (mask : list bool) (min_len : Z) (i : nat) :
  nth i (_drop_short_runs mask min_len) false = true <->
  in_long_block mask min_len (length mask) i.
Proof. apply drop_short_runs_nth. Qed.

Lemma drop_short_runs_length (mask : list bool) (min_len : Z) :
  length (_drop_short_runs mask min_len) = length mask.
Proof.
  unfold _drop_short_runs.
  destruct (min_len <=? 1)%Z; [done|].
  pose proof (flatnonzero_In mask) as Hin.
  pose proof (flatnonzero_from_sorted 0 mask) as Hsorted.
  fold (flatnonzero mask) in Hsorted.
  destruct (flatnonzero mask) as [|i0 rest] eqn:Enz; [done|].
  assert (Hinit : drop_runs_inv mask min_len (mask, i0, i0, 1) rest).
  { repeat split; try done; try lia.
    - intros j Hj. replace j with i0 by lia. apply Hin. by left.
    - intros j Hj Hm. apply Hin in Hm as [->|Hm]; [lia|].
      apply StronglySorted_inv in Hsorted as [_ Hlt].
      rewrite Forall_forall in Hlt. apply list_elem_of_In, Hlt in Hm. lia.
    - intros j Hj Hm. apply Hin in Hm as [->|Hm]; [lia|done].
    - intros j Hj. apply Hin. by right. }
  apply drop_runs_fold_inv in Hinit.
  destruct (fold_left (drop_runs_step min_len) rest (mask, i0, i0, 1))
    as [[[cleaned start] prev] count].
  destruct Hinit as (Hlen & _).
  destruct (_ <? _)%Z; [|done]. by rewrite clear_range_length.
Qed.

Lemma in_long_block_drop (mask : list bool) (k : Z) (i : nat) :
  in_long_block (_drop_short_runs mask k) k (length (_drop_short_runs mask k)) i
  <-> in_long_block mask k (length mask) i.
Proof.
  rewrite drop_short_runs_length. split.
  - intros (a & b & Hab & Hb & Hk & Hblock). exists a, b. split; [lia|]. split; [done|]. split; [done|].
    intros j Hj. specialize (Hblock j Hj).
    apply (proj1 (drop_short_runs_nth _ _ _)), in_long_block_true in Hblock. done.
  - intros (a & b & Hab & Hb & Hk & Hblock). exists a, b. split; [lia|]. split; [done|]. split; [done|].
    intros j Hj. apply drop_short_runs_nth. exists a, b. split; [lia|]. split; [done|]. split; [done|]. done.
Qed.

(** X6.  Erasing short runs twice is erasing them once. *)
Theorem drop_short_runs_idempotent (mask : list bool) (min_len : Z) :
  _drop_short_runs (_drop_short_runs mask min_len) min_len
  = _drop_short_runs mask min_len.
Proof.
  apply (nth_ext _ _ false false).
  { apply drop_short_runs_length. }
  intros n _.
  destruct (nth n (_drop_short_runs mask min_len) false) eqn:E.
  - apply drop_short_runs_nth, in_long_block_drop. by apply drop_short_runs_nth.
  - destruct (nth n (_drop_short_runs (_drop_short_runs mask min_len) min_len) false)
      eqn:E2; [|done].
    apply (proj1 (drop_short_runs_nth _ _ _)), (proj1 (in_long_block_drop _ _ _)),
      (proj2 (drop_short_runs_nth _ _ _)) in E2.
    congruence.
Qed.

(** ** The exceptions of [apply_vad] *)

Lemma fold_add_le (l : list Z) (acc : Z) :
  Forall (fun x => 0 <= x)%Z l -> (acc <= fold_left Z.add l acc)%Z.
Proof.
  revert acc. induction l as [|x l IH]; intros acc Hl; simpl; [lia|].
  apply Forall_cons in Hl as [Hx Hl]. specialize (IH (acc + x)%Z Hl). lia.
Qed.

Lemma fold_add_pos (l : list Z) (acc x : Z) :
  (0 <= acc)%Z -> Forall (fun x => 0 <= x)%Z l -> In x l -> (0 < x)%Z ->
  (0 < fold_left Z.add l acc)%Z.
Proof.
  revert acc. induction l as [|y l IH]; intros acc Hacc Hl Hin Hx; [done|].
  apply Forall_cons in Hl as [Hy Hl]. simpl. destruct Hin as [->|Hin].
  - pose proof (fold_add_le l (acc + x) Hl). lia.
  - apply IH; [lia|done..].
Qed.

Lemma nth_map_seq {A} (f : nat -> A) (n m : nat) (d : A) :
  m < n -> nth m (map f (seq 0 n)) d = f m.
Proof.
  intros Hm. rewrite (nth_indep _ d (f 0)) by (rewrite length_map, length_seq; lia).
  rewrite (map_nth f (seq 0 n) 0 m), seq_nth by done. done.
Qed.

Lemma convolve_full_length (a v : list Z) :
  length (convolve_full a v) = length a + length v - 1.
Proof. unfold convolve_full. by rewrite length_map, length_seq. Qed.

(** An entry of the full convolution of non-negative sequences is
    positive as soon as one of its products is. *)
Lemma convolve_full_pos (a v : list Z) (m k : nat) :
  Forall (fun x => 0 <= x)%Z a -> Forall (fun x => 0 <= x)%Z v ->
  m < length a + length v - 1 -> k < length v -> k <= m ->
  (0 < nth (m - k) a 0)%Z -> (0 < nth k v 0)%Z ->
  (0 < nth m (convolve_full a v) 0)%Z.
Proof.
  intros Ha Hv Hm Hk Hkm Hak Hvk. unfold convolve_full.
  rewrite nth_map_seq by done.
  assert (Hnth : forall (l : list Z) i, Forall (fun x => 0 <= x)%Z l ->
                                        (0 <= nth i l 0)%Z).
  { intros l i Hl. destruct (decide (i < length l)) as [Hi|Hi].
    - rewrite Forall_forall in Hl. apply Hl, list_elem_of_In, nth_In, Hi.
    - rewrite nth_overflow by lia. lia. }
  apply (fold_add_pos _ 0 (nth (m - k) a 0 * nth k v 0)%Z); [lia| | |lia].
  - apply Forall_forall. intros x Hx.
    apply list_elem_of_In, in_map_iff in Hx as (k' & <- & _).
    destruct (k' <=? m); [|lia].
    pose proof (Hnth a (m - k') Ha). pose proof (Hnth v k' Hv). lia.
  - apply in_map_iff. exists k. split.
    + destruct (Nat.leb_spec k m); [done|lia].
    + apply in_seq. lia.
Qed.

Lemma nth_slice {A} (l : list A) (off len i : nat) (d : A) :
  i < len -> nth i (slice l off (off + len)) d = nth (off + i) l d.
Proof.
  intros Hi. unfold slice. replace (off + len - off) with len by lia.
  rewrite nth_firstn, nth_skipn.
  destruct (Nat.ltb_spec i len); [done|lia].
Qed.

Lemma slice_length {A} (l : list A) (off len : nat) :
  off + len <= length l -> length (slice l off (off + len)) = len.
Proof.
  intros Hl. unfold slice. rewrite length_take, length_drop. lia.
Qed.

Lemma np_convolve_same_length (a v : list Z) :
  0 < length a -> 0 < length v ->
  length (np_convolve_same a v) = Nat.max (length a) (length v).
Proof.
  intros Ha Hv. unfold np_convolve_same.
  apply slice_length. rewrite convolve_full_length.
  assert ((Nat.min (length a) (length v) - 1) / 2
          <= Nat.min (length a) (length v) - 1) by (apply Nat.Div0.div_le_upper_bound; lia).
  lia.
Qed.

Lemma dilate_length (b : nat) (mask : list bool) :
  0 < length mask ->
  length (dilate b mask) = Nat.max (length mask) (2 * b + 1).
Proof.
  intros Hm. unfold dilate.
  rewrite length_map, np_convolve_same_length; rewrite ?length_map, ?repeat_length; lia.
Qed.


Lemma bridge_mask_dilate (cfg : config) (mask : list bool) :
  bridge_mask cfg mask =
  let bridged :=
    if (0 <? bridge_frames_of cfg)%Z
    then dilate (Z.to_nat (bridge_frames_of cfg)) mask else mask in
  if (1 <? min_energy_frames_of cfg)%Z
  then _drop_short_runs bridged (min_energy_frames_of cfg) else bridged.
Proof.
  unfold bridge_mask. fold (bridge_frames_of cfg). simpl.
  destruct (Z.ltb_spec 0 (bridge_frames_of cfg)) as [Hb|Hb]; [|done].
  unfold dilate, mask_int.
  replace (Z.to_nat (bridge_frames_of cfg * 2 + 1))
    with (2 * Z.to_nat (bridge_frames_of cfg) + 1) by lia.
  done.
Qed.

Lemma any_nth (mask : list bool) :
  any mask = true -> exists j, nth j mask false = true.
Proof.
  unfold any. intros Hany. apply existsb_exists in Hany as ([] & Hin & Hx); [|done].
  apply (In_nth _ _ false) in Hin as (j & _ & Hj). by exists j.
Qed.




(** ** Hotkey strings, continued *)

Lemma upper_char_idem c : upper_char (upper_char c) = upper_char c.
Proof. destruct c as [[] [] [] [] [] [] [] []]; vm_compute; reflexivity. Qed.

Lemma upper_char_space c : is_space (upper_char c) = is_space c.
Proof. destruct c as [[] [] [] [] [] [] [] []]; vm_compute; reflexivity. Qed.

Lemma upper_char_sep c : Ascii.eqb (upper_char c) "+" = Ascii.eqb c "+".
Proof. destruct c as [[] [] [] [] [] [] [] []]; vm_compute; reflexivity. Qed.

Lemma upper_idem s : upper (upper s) = upper s.
Proof. induction s as [|c s IH]; simpl; [done|]. by rewrite upper_char_idem, IH. Qed.

Lemma upper_head_ok s : head_ok (upper s) = head_ok s.
Proof. destruct s; simpl; [done|]. by rewrite upper_char_space. Qed.

Lemma upper_last_ok s : last_ok (upper s) = last_ok s.
Proof.
  induction s as [|c s IH]; [done|].
  destruct s as [|d s]; simpl; [by rewrite upper_char_space|]. exact IH.
Qed.

Lemma upper_no_sep s : no_sep "+" (upper s) = no_sep "+" s.
Proof. induction s as [|c s IH]; simpl; [done|]. by rewrite upper_char_sep, IH. Qed.

Lemma upper_clean_part s : clean_part (upper s) = clean_part s.
Proof. unfold clean_part. by rewrite upper_head_ok, upper_last_ok, upper_no_sep. Qed.

Lemma upper_append s t : upper (s +:+ t) = (upper s +:+ upper t)%string.
Proof. induction s as [|c s IH]; simpl; [done|]. by rewrite IH. Qed.

Lemma upper_join parts : upper (join "+" parts) = join "+" (map upper parts).
Proof.
  induction parts as [|p ps IH]; [done|].
  destruct ps as [|q ps]; [done|].
  change (join "+" (p :: q :: ps)) with (p +:+ "+" +:+ join "+" (q :: ps))%string.
  rewrite !upper_append, IH. done.
Qed.

Lemma split_pieces_no_sep sep s :
  Forall (fun p => no_sep sep p = true) (split sep s).
Proof.
  induction s as [|c s IH]; simpl; [by repeat constructor|].
  destruct (Ascii.eqb c sep) eqn:Ec; [by constructor|].
  destruct (split sep s) as [|p ps]; simpl.
  - repeat constructor. simpl. by rewrite Ec.
  - apply Forall_cons in IH as [Hp Hps]. constructor; [|done].
    simpl. by rewrite Ec, Hp.
Qed.

Lemma lstrip_no_sep sep s : no_sep sep s = true -> no_sep sep (lstrip s) = true.
Proof.
  induction s as [|c s IH]; simpl; [done|].
  intros [Hc Hs]%andb_true_iff. destruct (is_space c); [by apply IH|].
  simpl. by rewrite Hc, Hs.
Qed.

Lemma rstrip_no_sep sep s : no_sep sep s = true -> no_sep sep (rstrip s) = true.
Proof.
  induction s as [|c s IH]; simpl; [done|].
  intros [Hc Hs]%andb_true_iff. specialize (IH Hs).
  destruct (rstrip s) as [|d r].
  - destruct (is_space c); simpl; [done|]. by rewrite Hc.
  - change (no_sep sep (String c (String d r)))
      with (negb (Ascii.eqb c sep) && no_sep sep (String d r)).
    by rewrite Hc, IH.
Qed.

Lemma rstrip_last s : rstrip s = EmptyString \/ last_ok (rstrip s) = true.
Proof.
  induction s as [|c s IH]; simpl; [by left|].
  destruct (rstrip s) as [|d r].
  - destruct (is_space c) eqn:Ec; [by left|]. right. simpl. by rewrite Ec.
  - right. destruct IH as [IH|IH]; [done|]. exact IH.
Qed.

(** A non-empty [strip] result is a clean piece when the text has no
    separator. *)
Lemma strip_clean s :
  no_sep "+" s = true -> nonempty (strip s) = true -> clean_part (strip s) = true.
Proof.
  intros Hs Hne. unfold clean_part, strip in *.
  destruct (lstrip_head s) as [E|Hh]; [by rewrite E in Hne|].
  destruct (rstrip_last (lstrip s)) as [E|Hl]; [by rewrite E in Hne|].
  rewrite (rstrip_head _ Hh), Hl. simpl.
  by apply rstrip_no_sep, lstrip_no_sep.
Qed.

Lemma hotkey_parts_clean s :
  Forall (fun p => clean_part p = true) (hotkey_parts s).
Proof.
  unfold hotkey_parts. apply Forall_forall. intros p Hp.
  apply list_elem_of_filter in Hp as [Hne Hp].
  apply list_elem_of_fmap in Hp as (q & -> & Hq).
  apply strip_clean; [|done].
  pose proof (split_pieces_no_sep "+" s) as Hall.
  rewrite Forall_forall in Hall. by apply Hall.
Qed.

(** [parse_hotkey] on a string that is a [+]-join of clean pieces. *)
Lemma parse_hotkey_join `{Pynput} (ps : list string) (t : string) :
  Forall (fun p => clean_part p = true) (ps ++ [t]) ->
  parse_hotkey (Some (join "+" (ps ++ [t]))) =
    match normalize_key_token (Some t) with
    | None => Returned fallback_binding
    | Some key_token =>
        Returned (list_to_set
                    (map upper
                       (filter (fun part => in_MODIFIER_MAP (upper part) = true) ps)),
                  key_token)
    end.
Proof.
  intros Hparts.
  assert (Hnil : ps ++ [t] <> []) by by destruct ps.
  destruct (join_head_last _ Hnil Hparts) as [Hh Hl].
  assert (Hstrip : strip (join "+" (ps ++ [t])) = join "+" (ps ++ [t]))
    by by apply strip_id.
  apply parse_hotkey_parts.
  - rewrite Hstrip. by destruct (join "+" (ps ++ [t])).
  - rewrite Hstrip. by apply hotkey_parts_join.
Qed.

Lemma sorted_modifiers_names (modifiers : gset string) :
  modifiers ⊆ modifier_names ->
  Forall (fun m => m ∈ modifier_names) (sorted_modifiers modifiers).
Proof.
  intros Hsub. apply Forall_forall. intros m Hm. apply Hsub.
  unfold sorted_modifiers in Hm. rewrite merge_sort_Permutation in Hm.
  by apply elem_of_elements in Hm.
Qed.

Lemma sorted_modifiers_set (modifiers : gset string) :
  list_to_set (sorted_modifiers modifiers) = modifiers.
Proof.
  apply set_eq. intros x. unfold sorted_modifiers.
  rewrite elem_of_list_to_set, merge_sort_Permutation. apply elem_of_elements.
Qed.

(** The round trip through the config string, for a token with the three
    properties that matter. *)
Lemma hotkey_roundtrip_props `{Pynput} (modifiers : gset string) (token : string) :
  modifiers ⊆ modifier_names ->
  clean_part token = true -> upper token = token ->
  normalize_key_token (Some token) = Some token ->
  parse_hotkey (Some (hotkey_to_config (modifiers, token)))
  = Returned (modifiers, token).
Proof.
  intros Hsub Hclean Hup Hnorm.
  pose proof (sorted_modifiers_names modifiers Hsub) as Hms.
  unfold hotkey_to_config, key_to_config_string. rewrite Hup.
  rewrite parse_hotkey_join, Hnorm.
  - f_equal. f_equal.
    rewrite filter_Forall_id.
    2:{ eapply Forall_impl; [exact Hms|]. intros m Hm.
        by destruct (modifier_name_props m Hm) as (_ & _ & ?). }
    rewrite map_Forall_id.
    2:{ eapply Forall_impl; [exact Hms|]. intros m Hm.
        by destruct (modifier_name_props m Hm) as (_ & ? & _). }
    apply sorted_modifiers_set.
  - apply Forall_app. split.
    + eapply Forall_impl; [exact Hms|]. intros m Hm.
      by destruct (modifier_name_props m Hm).
    + by apply Forall_singleton.
Qed.

Lemma in_MODIFIER_MAP_names `{Pynput} m :
  in_MODIFIER_MAP m = true -> m ∈ modifier_names.
Proof.
  unfold in_MODIFIER_MAP, modifier_names. simpl.
  rewrite !orb_true_iff, !String.eqb_eq, !elem_of_union, !elem_of_singleton.
  intros [->|[->|[->|[->|?]]]]; [auto 6..|done].
Qed.

(** What [normalize_key_token] returns is a fixed point of it, clean and
    in upper case, when the argument is a clean piece. *)
Lemma normalize_key_token_props `{Pynput} (t tok : string) :
  clean_part t = true ->
  normalize_key_token (Some t) = Some tok ->
  clean_part tok = true /\ upper tok = tok /\
  normalize_key_token (Some tok) = Some tok.
Proof.
  intros Hclean Hnorm.
  assert (Hstrip : strip t = t).
  { unfold clean_part in Hclean.
    apply andb_true_iff in Hclean as [[Hh Hl]%andb_true_iff _]. by apply strip_id. }
  assert (Htok : tok = upper t /\
                 (in_FKEYS (upper t) = true \/ String.length (upper t) = 1)).
  { unfold normalize_key_token in Hnorm. simpl default in Hnorm.
    rewrite Hstrip in Hnorm.
    destruct (negb (nonempty (upper t))); [done|].
    destruct (in_FKEYS (upper t)) eqn:Ef; [by simplify_eq; auto|].
    destruct (Nat.eqb_spec (String.length (upper t)) 1); [|done].
    simplify_eq. auto. }
  destruct Htok as [-> Hkind].
  assert (Hc : clean_part (upper t) = true) by by rewrite upper_clean_part.
  split; [done|]. split; [apply upper_idem|].
  unfold normalize_key_token. simpl default.
  assert (Hs : strip (upper t) = upper t).
  { unfold clean_part in Hc.
    apply andb_true_iff in Hc as [[Hh Hl]%andb_true_iff _]. by apply strip_id. }
  rewrite Hs, upper_idem.
  assert (Hne : nonempty (upper t) = true).
  { rewrite upper_nonempty. unfold clean_part in Hclean. by destruct t. }
  rewrite Hne. simpl.
  destruct Hkind as [Hf|Hlen]; [by rewrite Hf|].
  rewrite Hlen. simpl. by destruct (in_FKEYS (upper t)).
Qed.

Lemma fallback_roundtrip `{Pynput} :
  parse_hotkey (Some (hotkey_to_config fallback_binding)) = Returned fallback_binding.
Proof.
  unfold hotkey_to_config, key_to_config_string, fallback_binding.
  replace (sorted_modifiers ∅) with (@nil string).
  2:{ unfold sorted_modifiers. by rewrite elements_empty. }
  change (join "+" ([] ++ [upper "F9"])) with "F9"%string.
  unfold parse_hotkey. simpl default.
  change (strip "F9") with "F9"%string. simpl negb. cbv iota.
  change (hotkey_parts "F9") with ["F9"%string].
  change (index_last ["F9"%string]) with (Returned "F9"%string).
  cbv iota.
  unfold normalize_key_token. simpl default.
  change (upper (strip "F9")) with "F9"%string. simpl negb. cbv iota.
  destruct (in_FKEYS "F9"); [|done].
  done.
Qed.

(** X10.  Every binding that [parse_hotkey] returns is written to the config
    and read back unchanged. *)
Theorem parse_hotkey_canonical `{Pynput} (binding : string) (b : HotkeyBinding) :
  is_ascii binding = true ->
  parse_hotkey (Some binding) = Returned b ->
  parse_hotkey (Some (hotkey_to_config b)) = Returned b.
Proof.
  intros _ Hparse.
  unfold parse_hotkey in Hparse. simpl default in Hparse.
  destruct (negb (nonempty (strip binding))).
  { simplify_eq. apply fallback_roundtrip. }
  pose proof (hotkey_parts_clean (strip binding)) as Hclean.
  destruct (hotkey_parts (strip binding)) as [|p ps] eqn:Eparts.
  { simplify_eq. apply fallback_roundtrip. }
  destruct (index_last (p :: ps)) as [t|e] eqn:El; [|done].
  assert (Ht : clean_part t = true).
  { unfold index_last in El. destruct (last (p :: ps)) as [t'|] eqn:E; [|done].
    simplify_eq. apply last_Some_elem_of in E.
    rewrite Forall_forall in Hclean. by apply Hclean. }
  destruct (normalize_key_token (Some t)) as [tok|] eqn:En.
  2:{ simplify_eq. apply fallback_roundtrip. }
  simplify_eq.
  destruct (normalize_key_token_props t tok Ht En) as (Hc & Hup & Hn).
  apply hotkey_roundtrip_props; [|done..].
  intros m Hm. apply elem_of_list_to_set, list_elem_of_fmap in Hm as (q & -> & Hq).
  apply list_elem_of_filter in Hq as [Hq _]. by apply in_MODIFIER_MAP_names.
Qed.

Lemma parse_hotkey_canonical_witness :
  parse_hotkey (H := pynput_base)
    (Some (hotkey_to_config (H := pynput_base) ({[ "CTRL"%string ]}, "R"%string)))
  = Returned ({[ "CTRL"%string ]}, "R"%string).
Proof.
  apply (parse_hotkey_canonical (H := pynput_base) " ctrl + r "%string).
  - vm_compute. reflexivity.
  - vm_compute. reflexivity.
Defined.

Lemma join_snoc_sep (ps : list string) :
  join "+" (ps ++ ["+"%string]) = join "+" (ps ++ [EmptyString; EmptyString]).
Proof.
  induction ps as [|p ps IH]; [done|].
  destruct ps as [|q ps]; [done|].
  change (join "+" ((p :: q :: ps) ++ ["+"%string]))
    with (p +:+ "+" +:+ join "+" ((q :: ps) ++ ["+"%string]))%string.
  change (join "+" ((p :: q :: ps) ++ [EmptyString; EmptyString]))
    with (p +:+ "+" +:+ join "+" ((q :: ps) ++ [EmptyString; EmptyString]))%string.
  by rewrite IH.
Qed.

Lemma last_ok_snoc_sep s : last_ok (s +:+ "+") = true.
Proof. by apply last_ok_append. Qed.

Lemma append_assoc (a b c : string) : ((a +:+ b) +:+ c = a +:+ (b +:+ c))%string.
Proof. induction a as [|x a IH]; [done|]. by rewrite !append_String, IH. Qed.

Lemma join_snoc (ps : list string) (t : string) :
  ps <> [] -> join "+" (ps ++ [t]) = (join "+" ps +:+ "+" +:+ t)%string.
Proof.
  induction ps as [|p ps IH]; [done|]. intros _.
  destruct ps as [|q ps]; [done|].
  change (join "+" ((p :: q :: ps) ++ [t]))
    with (p +:+ "+" +:+ join "+" ((q :: ps) ++ [t]))%string.
  rewrite IH by done.
  change (join "+" (p :: q :: ps)) with (p +:+ "+" +:+ join "+" (q :: ps))%string.
  by rewrite !append_assoc.
Qed.

(** X4.  The separator itself as key token, which [event_to_token] gives for
    the [+] key: whatever the modifiers, the config string of the binding
    parses as the fallback. *)
Theorem hotkey_plus_token_lost `{Pynput} (modifiers : gset string) :
  modifiers ⊆ modifier_names ->
  event_to_token (KeyCode (Some "+"%string)) = Some "+"%string /\
  parse_hotkey (Some (hotkey_to_config (modifiers, "+"%string)))
  = Returned fallback_binding.
Proof.
  intros Hsub. split.
  { unfold event_to_token.
    assert (Hf : forall fk, Forall (fun kv => exists i, snd kv = Key i) fk ->
                            fkeys_name_of fk (KeyCode (Some "+"%string)) = None).
    { induction 1 as [|[name k] fk [i Hk] _ IH]; simpl; [done|].
      simpl in Hk. by rewrite Hk. }
    rewrite Hf; [done|].
    unfold FKEYS. apply Forall_flat_map, Forall_forall. intros idx _.
    destruct (Key_attr _); repeat constructor. by eexists. }
  pose proof (sorted_modifiers_names modifiers Hsub) as Hms.
  unfold hotkey_to_config, key_to_config_string.
  change (upper "+") with "+"%string.
  set (ms := sorted_modifiers modifiers) in *.
  assert (Hclean : Forall (fun p => clean_part p = true) ms).
  { eapply Forall_impl; [exact Hms|]. intros m Hm.
    by destruct (modifier_name_props m Hm). }
  assert (Hparts : hotkey_parts (join "+" (ms ++ ["+"%string])) = ms).
  { rewrite join_snoc_sep. unfold hotkey_parts.
    rewrite split_join.
    - rewrite map_app, filter_app. simpl map.
      rewrite map_Forall_id.
      2:{ eapply Forall_impl; [exact Hclean|]. intros p Hp. unfold clean_part in Hp.
          apply andb_true_iff in Hp as [[Hh Hl]%andb_true_iff _]. by apply strip_id. }
      rewrite filter_Forall_id.
      2:{ eapply Forall_impl; [exact Hclean|]. intros p Hp. unfold clean_part in Hp.
          apply andb_true_iff in Hp as [[Hh Hl]%andb_true_iff _]. by destruct p. }
      change (strip EmptyString) with EmptyString.
      rewrite filter_cons_False by done. rewrite filter_cons_False by done.
      by rewrite filter_nil, app_nil_r.
    - by destruct ms.
    - apply Forall_app. split; [|by repeat constructor].
      eapply Forall_impl; [exact Hclean|]. intros p Hp. unfold clean_part in Hp.
      by apply andb_true_iff in Hp as [_ ?]. }
  assert (Hstrip : strip (join "+" (ms ++ ["+"%string])) = join "+" (ms ++ ["+"%string])).
  { destruct ms as [|m ms'] eqn:Ems; [done|].
    rewrite join_snoc by done. apply strip_id.
    - apply head_ok_append.
      by destruct (join_head_last (m :: ms') ltac:(done) Hclean).
    - change (join "+" (m :: ms') +:+ "+" +:+ "+")%string
        with (join "+" (m :: ms') +:+ ("+" +:+ "+"))%string.
      by apply last_ok_append. }
  unfold parse_hotkey. simpl default. rewrite Hstrip, Hparts.
  destruct (negb (nonempty (join "+" (ms ++ ["+"%string])))); [done|].
  destruct ms as [|m ms'] eqn:Ems; [done|].
  unfold index_last.
  destruct (last (m :: ms')) as [t|] eqn:El; [|by apply last_None in El].
  assert (Ht : t ∈ modifier_names).
  { apply last_Some_elem_of in El. rewrite Forall_forall in Hms. by apply Hms. }
  assert (Hn : normalize_key_token (Some t) = None).
  { assert (Hfk : is_fkey_name (upper (strip t)) = false /\
                  String.length (upper (strip t)) <> 1).
    { revert Ht. unfold modifier_names.
      rewrite !elem_of_union, !elem_of_singleton.
      intros [[[-> | ->] | ->] | ->]; by vm_compute. }
    destruct Hfk as [Hfk Hlen].
    unfold normalize_key_token. simpl default.
    destruct (negb (nonempty (upper (strip t)))); [done|].
    destruct (in_FKEYS (upper (strip t))) eqn:Ef.
    { apply in_FKEYS_fkey_name in Ef. congruence. }
    by destruct (Nat.eqb_spec (String.length (upper (strip t))) 1). }
  by rewrite Hn.
Qed.

Lemma hotkey_plus_token_lost_witness :
  event_to_token (H := pynput_base) (KeyCode (Some "+"%string)) = Some "+"%string /\
  parse_hotkey (H := pynput_base)
    (Some (hotkey_to_config (H := pynput_base)
             ({[ "CTRL"%string; "SHIFT"%string ]}, "+"%string)))
  = Returned fallback_binding.
Proof.
  apply (hotkey_plus_token_lost (H := pynput_base)).
  unfold modifier_names. intros x.
  rewrite !elem_of_union, !elem_of_singleton. tauto.
Defined.

(** ** Hotkey labels *)

Lemma MODIFIER_LABELS_item_names m :
  m ∈ modifier_names ->
  exists label, MODIFIER_LABELS_item m = Returned label /\ upper label = m.
Proof.
  unfold modifier_names. rewrite !elem_of_union, !elem_of_singleton.
  intros [[[-> | ->] | ->] | ->]; eexists; split; by vm_compute.
Qed.

Lemma MODIFIER_LABELS_item_foreign m :
  m ∉ modifier_names -> MODIFIER_LABELS_item m = Raised (KeyError m).
Proof.
  unfold modifier_names. rewrite !elem_of_union, !elem_of_singleton.
  intros Hm. unfold MODIFIER_LABELS_item, MODIFIER_LABELS. simpl.
  destruct (String.eqb_spec m "CTRL"); [exfalso; apply Hm; auto|].
  destruct (String.eqb_spec m "ALT"); [exfalso; apply Hm; auto|].
  destruct (String.eqb_spec m "SHIFT"); [exfalso; apply Hm; auto|].
  destruct (String.eqb_spec m "SUPER"); [exfalso; apply Hm; auto|].
  done.
Qed.

Lemma comprehension_returns {A B} (f : A -> py_result B) (g : A -> B) (l : list A) :
  Forall (fun x => f x = Returned (g x)) l ->
  comprehension f l = Returned (map g l).
Proof.
  induction 1 as [|x l Hx _ IH]; simpl; [done|]. by rewrite Hx, IH.
Qed.

Lemma comprehension_raises {A B} (f : A -> py_result B) (l : list A) (x : A) :
  x ∈ l -> (exists e, f x = Raised e) ->
  exists x' e, x' ∈ l /\ f x' = Raised e /\ comprehension f l = Raised e.
Proof.
  intros Hx [e He]. induction l as [|y l IH]; [by apply elem_of_nil in Hx|].
  simpl. destruct (f y) as [b|e'] eqn:Ey.
  - apply elem_of_cons in Hx as [->|Hx]; [congruence|].
    destruct (IH Hx) as (x' & e'' & Hin & Hf & Hc).
    exists x', e''. rewrite Hc. split; [by apply elem_of_cons; right|done].
  - exists y, e'. split; [by apply elem_of_cons; left|done].
Qed.

(** X11.  For a binding with modifiers among the four names, the label is the
    config string up to letter case. *)
Theorem hotkey_label_config `{Pynput} `{PynputStr}
    (modifiers : gset string) (token : string) :
  modifiers ⊆ modifier_names ->
  is_ascii token = true ->
  exists label,
    hotkey_to_label (modifiers, token) = Returned label /\
    upper label = hotkey_to_config (modifiers, token).
Proof.
  intros Hsub _.
  pose proof (sorted_modifiers_names modifiers Hsub) as Hms.
  unfold hotkey_to_label, key_to_label, hotkey_to_config, key_to_config_string.
  set (ms := sorted_modifiers modifiers) in *.
  set (label_of := fun m => match MODIFIER_LABELS_item m with
                            | Returned l => l
                            | Raised _ => EmptyString
                            end).
  assert (Hlab : Forall (fun m => MODIFIER_LABELS_item m = Returned (label_of m)
                                  /\ upper (label_of m) = m) ms).
  { eapply Forall_impl; [exact Hms|]. intros m Hm. unfold label_of.
    destruct (MODIFIER_LABELS_item_names m Hm) as (l & -> & Hu). done. }
  rewrite (comprehension_returns _ label_of).
  2:{ eapply Forall_impl; [exact Hlab|]. by intros m [? _]. }
  set (last_part := if in_FKEYS token then token else upper token).
  assert (Hlast : upper last_part = upper token).
  { unfold last_part. destruct (in_FKEYS token) eqn:Ef; [done|apply upper_idem]. }
  destruct (map label_of ms ++ [last_part]) as [|p ps] eqn:E.
  { by destruct (map label_of ms). }
  eexists. split; [done|].
  rewrite <- E, upper_join, map_app, map_map. simpl map. rewrite Hlast.
  f_equal. f_equal. apply map_Forall_id.
  eapply Forall_impl; [exact Hlab|]. by intros m [_ ?].
Qed.

Lemma hotkey_label_config_witness :
  exists label,
    hotkey_to_label (H := pynput_base) (H0 := {| Key_str := fun _ => "Key.esc"%string |})
      ({[ "CTRL"%string; "ALT"%string ]}, "r"%string) = Returned label /\
    upper label
    = hotkey_to_config (H := pynput_base) ({[ "CTRL"%string; "ALT"%string ]}, "r"%string).
Proof.
  apply (hotkey_label_config (H := pynput_base)).
  - unfold modifier_names. intros x.
    rewrite !elem_of_union, !elem_of_singleton. tauto.
  - reflexivity.
Defined.

(** X12.  A modifier outside [MODIFIER_LABELS] makes [key_to_label] raise
    [KeyError], where [key_to_config_string] writes the name out. *)
Theorem hotkey_label_foreign_modifier `{Pynput} `{PynputStr}
    (modifiers : gset string) (token : string) (m : string) :
  m ∈ modifiers -> m ∉ modifier_names ->
  exists m', m' ∈ modifiers /\ (m' ∉ modifier_names) /\
             hotkey_to_label (modifiers, token) = Raised (KeyError m').
Proof.
  intros Hin Hout.
  destruct (comprehension_raises MODIFIER_LABELS_item (sorted_modifiers modifiers) m)
    as (m' & e & Hm' & Hf & Hc).
  { unfold sorted_modifiers. rewrite merge_sort_Permutation.
    by apply elem_of_elements. }
  { eexists. by apply MODIFIER_LABELS_item_foreign. }
  assert (Hmods : m' ∈ modifiers).
  { unfold sorted_modifiers in Hm'. rewrite merge_sort_Permutation in Hm'.
    by apply elem_of_elements in Hm'. }
  assert (Hforeign : m' ∉ modifier_names).
  { intros Hn. destruct (MODIFIER_LABELS_item_names m' Hn) as (l & Hl & _).
    congruence. }
  exists m'. split; [done|]. split; [done|].
  unfold hotkey_to_label, key_to_label. rewrite Hc.
  rewrite MODIFIER_LABELS_item_foreign in Hf by done. congruence.
Qed.

Lemma hotkey_label_foreign_modifier_witness :
  exists m', m' ∈ ({[ "HYPER"%string ]} : gset string) /\ (m' ∉ modifier_names) /\
    hotkey_to_label (H := pynput_base) (H0 := {| Key_str := fun _ => "Key.esc"%string |})
      ({[ "HYPER"%string ]}, "F9"%string) = Raised (KeyError m').
Proof.
  apply (hotkey_label_foreign_modifier (H := pynput_base) _ _ "HYPER"%string).
  - by apply elem_of_singleton.
  - unfold modifier_names. rewrite !elem_of_union, !elem_of_singleton.
    intros [[[?|?]|?]|?]; discriminate.
Defined.

(** ** Hotkey capture *)

Lemma modifier_name_names `{Pynput} k m :
  modifier_name k = Some m -> m ∈ modifier_names.
Proof.
  unfold modifier_name, dict_get.
  destruct (filter _ (rev MODIFIER_LOOKUP)) as [|kv l] eqn:E; [done|].
  intros [= <-].
  assert (Hin : kv ∈ filter (fun kv => key_eqb k (fst kv) = true) (rev MODIFIER_LOOKUP))
    by (rewrite E; apply list_elem_of_here).
  apply list_elem_of_filter in Hin as [_ Hin].
  apply list_elem_of_In, in_rev, list_elem_of_In in Hin.
  unfold MODIFIER_LOOKUP, MODIFIER_MAP in Hin. simpl in Hin.
  unfold modifier_names. rewrite !elem_of_union, !elem_of_singleton.
  rewrite !elem_of_app in Hin.
  destruct Hin as [Hin|[Hin|[Hin|[Hin|Hin]]]];
    try (apply list_elem_of_fmap in Hin as (x & -> & _); simpl; auto 6).
  by apply elem_of_nil in Hin.
Qed.

Lemma fkeys_name_of_In (fk : list (string * key)) k name :
  fkeys_name_of fk k = Some name -> In name (map fst fk).
Proof.
  induction fk as [|[n key_obj] fk IH]; simpl; [done|].
  destruct (key_eqb k key_obj); [intros [= <-]; by left|].
  intros Hn. right. by apply IH.
Qed.

Lemma strip_single s c :
  strip s = String c EmptyString -> is_space c = false.
Proof.
  unfold strip. intros Hs.
  destruct (lstrip_head s) as [E|Hh]; [by rewrite E in Hs|].
  apply rstrip_head in Hh. rewrite Hs in Hh. simpl in Hh.
  by apply negb_true_iff in Hh.
Qed.

(** A token of [event_to_token] other than the separator is one that the
    config string stores. *)
Lemma event_token_storable `{Pynput} k tok :
  event_to_token k = Some tok -> is_ascii tok = true -> tok <> "+"%string ->
  storable_token tok.
Proof.
  unfold event_to_token. intros Hev Hascii Hplus.
  destruct (fkeys_name_of FKEYS k) as [name|] eqn:Ef.
  { simplify_eq. left. unfold in_FKEYS. apply existsb_exists.
    exists tok. split; [by eapply fkeys_name_of_In|apply String.eqb_refl]. }
  destruct k as [i|[char|]]; [done| |done].
  destruct (nonempty char); [|done].
  destruct (strip char) as [|c [|d s]] eqn:Es; simpl in Hev; [done| |done].
  simplify_eq. right. exists (upper_char c).
  split; [done|]. simpl in Hascii.
  apply andb_true_iff in Hascii as [Hc _]. apply Nat.ltb_lt in Hc.
  split; [done|]. split; [by rewrite upper_char_space; eapply strip_single|].
  split; [apply upper_char_idem|]. intros Heq. apply Hplus. simpl. by rewrite Heq.
Qed.

Lemma valid_mods_names `{Pynput} (modifiers : gset string) :
  modifiers ⊆ modifier_names ->
  filter (fun modn => in_MODIFIER_MAP modn = true) modifiers = modifiers.
Proof.
  intros Hsub. apply set_eq. intros m. rewrite elem_of_filter.
  split; [by intros [_ ?]|]. intros Hm. split; [|done].
  destruct (modifier_name_props m (Hsub m Hm)) as (_ & Hup & Hin). by rewrite Hup in Hin.
Qed.

Lemma update_hotkey_binding_state `{Pynput} `{PynputStr}
    modifiers token notify_change tail st :
  let st' := snd (update_hotkey_binding modifiers token notify_change tail st) in
  HOTKEY_KEY st' =
    (filter (fun modn => in_MODIFIER_MAP modn = true) modifiers,
     match normalize_key_token (Some token) with
     | Some t => if nonempty t then t else "F9"%string
     | None => "F9"%string
     end) /\
  cfg_hotkey st' = Some (hotkey_to_config (HOTKEY_KEY st')) /\
  capture_done st' = capture_done st /\
  capture_modifiers st' = capture_modifiers st.
Proof.
  unfold update_hotkey_binding. destruct notify_change; [|done].
  by destruct (hotkey_to_label _).
Qed.

Lemma capture_step_modifiers `{Pynput} `{PynputStr} notify_user e st :
  capture_modifiers st ⊆ modifier_names ->
  capture_modifiers (snd (capture_step notify_user e st)) ⊆ modifier_names.
Proof.
  intros Hsub. unfold capture_step. destruct (cev_press e).
  - unfold capture_on_press.
    destruct (modifier_name (cev_key e)) as [m|] eqn:Em; simpl.
    + apply modifier_name_names in Em. intros x.
      rewrite elem_of_union, elem_of_singleton. intros [->|Hx]; [done|by apply Hsub].
    + destruct (event_to_token (cev_key e)) as [tok|]; [|done].
      unfold finalize_hotkey.
      destruct (capture_done st || negb (nonempty tok)); [done|].
      match goal with
      | |- context [update_hotkey_binding ?m ?t ?n ?tl ?s] =>
          pose proof (update_hotkey_binding_state m t n tl s) as (_ & _ & _ & Hm);
          destruct (update_hotkey_binding m t n tl s) as [[u|exc] st']
      end; simpl in *; by rewrite Hm.
  - simpl. destruct (modifier_name (cev_key e)); [|done].
    intros x. rewrite elem_of_difference. intros [Hx _]. by apply Hsub.
Qed.

Lemma capture_run_modifiers `{Pynput} `{PynputStr} notify_user evs st :
  capture_modifiers st ⊆ modifier_names ->
  capture_modifiers (snd (capture_run notify_user evs st)) ⊆ modifier_names.
Proof.
  revert st. induction evs as [|e evs IH]; intros st Hsub; [done|].
  simpl. pose proof (capture_step_modifiers notify_user e st Hsub) as Hstep.
  destruct (capture_step notify_user e st) as [[u|exc] st1]; simpl in *; [|done].
  by apply IH.
Qed.

(** X13.  The key captured while the modifiers [capture_modifiers] are down is
    bound with exactly these modifiers, and the config entry written for
    it parses back to the binding, whatever becomes of the calls that
    follow the assignment. *)
Theorem captured_binding_persists `{Pynput} `{PynputStr}
    (notify_user : bool) (evs : list capture_event) (st0 st : capture_state)
    (k : key) (tok : string) (tail : py_result unit) :
  capture_run notify_user evs (capture_hotkey notify_user st0) = (Returned tt, st) ->
  capture_done st = false ->
  modifier_name k = None ->
  event_to_token k = Some tok ->
  is_ascii tok = true ->
  tok <> "+"%string ->
  let st' := snd (capture_on_press notify_user k tail st) in
  capture_done st' = true /\
  HOTKEY_KEY st' = (capture_modifiers st, tok) /\
  parse_hotkey (cfg_hotkey st') = Returned (HOTKEY_KEY st').
Proof.
  intros Hrun Hdone Hmod Htok Hascii Hplus.
  assert (Hsub : capture_modifiers st ⊆ modifier_names).
  { pose proof (capture_run_modifiers notify_user evs
                  (capture_hotkey notify_user st0)) as Hinv.
    rewrite Hrun in Hinv. apply Hinv. simpl. set_solver. }
  pose proof (event_token_storable k tok Htok Hascii Hplus) as Hst.
  destruct (storable_token_props tok Hst) as (Hclean & Hup & Hnorm).
  assert (Hne : nonempty tok = true) by (unfold clean_part in Hclean; by destruct tok).
  unfold capture_on_press. rewrite Hmod, Htok.
  unfold finalize_hotkey. rewrite Hdone, Hne. simpl orb. cbv iota.
  match goal with
  | |- context [update_hotkey_binding ?m ?t ?n ?tl ?s] =>
      pose proof (update_hotkey_binding_state m t n tl s) as (Hkey & Hcfg & Hd & _);
      destruct (update_hotkey_binding m t n tl s) as [[u|exc] st']
  end; simpl in *;
    rewrite Hnorm, Hne, valid_mods_names in Hkey by done;
    (split; [done|]); (split; [done|]);
    rewrite Hcfg, Hkey; by apply hotkey_roundtrip_props.
Qed.

Lemma captured_binding_persists_witness :
  let st := snd (capture_run (H := pynput_base) (H0 := pynput_str) true ctrl_down
                   (capture_hotkey true capture_idle)) in
  let st' := snd (capture_on_press (H := pynput_base) (H0 := pynput_str) true
                    (KeyCode (Some "r"%string)) (Returned tt) st) in
  capture_done st' = true /\
  HOTKEY_KEY st' = (capture_modifiers st, "R"%string) /\
  parse_hotkey (H := pynput_base) (cfg_hotkey st') = Returned (HOTKEY_KEY st').
Proof.
  apply (captured_binding_persists (H := pynput_base) (H0 := pynput_str)
           true ctrl_down capture_idle).
  - vm_compute. reflexivity.
  - vm_compute. reflexivity.
  - vm_compute. reflexivity.
  - vm_compute. reflexivity.
  - reflexivity.
  - discriminate.
Defined.

Lemma capture_step_done `{Pynput} `{PynputStr} notify_user e st :
  capture_done st = true ->
  exists st1,
    capture_step notify_user e st = (Returned tt, st1) /\
    capture_done st1 = true /\
    HOTKEY_KEY st1 = HOTKEY_KEY st /\
    cfg_hotkey st1 = cfg_hotkey st /\
    notices st1 = notices st /\
    hotkey_capture_active st1
    = (if cev_press e then hotkey_capture_active st else false).
Proof.
  intros Hdone. unfold capture_step. destruct (cev_press e).
  - unfold capture_on_press. destruct (modifier_name (cev_key e)).
    { eexists. split; [done|]. by simpl. }
    destruct (event_to_token (cev_key e)) as [tok|].
    2:{ eexists. split; [done|]. by simpl. }
    unfold finalize_hotkey. rewrite Hdone. simpl.
    eexists. split; [done|]. by simpl.
  - eexists. split; [done|]. simpl. by rewrite Hdone.
Qed.

(** X14.  Once a key is captured the callbacks bind nothing further: every
    later event returns and leaves the binding, the config entry and the
    notifications as they are, and the first key release ends the
    capture mode for the hotkey listener. *)
Theorem capture_binds_once `{Pynput} `{PynputStr}
    (notify_user : bool) (evs : list capture_event)
    (st st' : capture_state) (r : py_result unit) :
  capture_done st = true ->
  capture_run notify_user evs st = (r, st') ->
  r = Returned tt /\
  capture_done st' = true /\
  HOTKEY_KEY st' = HOTKEY_KEY st /\
  cfg_hotkey st' = cfg_hotkey st /\
  notices st' = notices st /\
  ((exists e, e ∈ evs /\ cev_press e = false) -> hotkey_capture_active st' = false).
Proof.
  revert st. induction evs as [|e evs IH]; intros st Hdone Hrun.
  { simpl in Hrun. simplify_eq. repeat split; try done.
    intros (e & He & _). by apply elem_of_nil in He. }
  simpl in Hrun.
  destruct (capture_step_done notify_user e st Hdone)
    as (st1 & Hstep & Hd1 & Hk1 & Hc1 & Hn1 & Ha1).
  rewrite Hstep in Hrun.
  destruct (IH st1 Hd1 Hrun) as (Hr & Hd & Hk & Hc & Hn & Ha).
  split; [done|]. split; [done|]. split; [congruence|]. split; [congruence|].
  split; [congruence|].
  intros (e' & He' & Hrel).
  apply elem_of_cons in He' as [->|He']; [|apply Ha; by exists e'].
  rewrite Hrel in Ha1.
  assert (Hkeep : forall evs st r st', capture_done st = true ->
            hotkey_capture_active st = false ->
            capture_run notify_user evs st = (r, st') ->
            hotkey_capture_active st' = false).
  { clear. intros evs. induction evs as [|e evs IH]; intros st r st' Hd Ha Hrun.
    { simpl in Hrun. by simplify_eq. }
    simpl in Hrun.
    destruct (capture_step_done notify_user e st Hd)
      as (st1 & Hstep & Hd1 & _ & _ & _ & Ha1).
    rewrite Hstep in Hrun. apply (IH st1 r st' Hd1); [|done].
    rewrite Ha1, Ha. by destruct (cev_press e). }
  by apply (Hkeep evs st1 r st').
Qed.

Lemma capture_binds_once_witness :
  let st := snd (capture_run (H := pynput_base) (H0 := pynput_str) true r_pressed
                   (capture_hotkey true capture_idle)) in
  let st' := snd (capture_run (H := pynput_base) (H0 := pynput_str) true r_released st) in
  Returned tt = Returned tt /\
  capture_done st' = true /\
  HOTKEY_KEY st' = HOTKEY_KEY st /\
  cfg_hotkey st' = cfg_hotkey st /\
  notices st' = notices st /\
  ((exists e, e ∈ r_released /\ cev_press e = false) ->
   hotkey_capture_active st' = false).
Proof.
  apply (capture_binds_once (H := pynput_base) (H0 := pynput_str) true r_released).
  - vm_compute. reflexivity.
  - vm_compute. reflexivity.
Defined.

(** ** Device lookup *)

Lemma input_devices_from_spec (i : nat) (infos : list device_info) idx dev :
  (idx, dev) ∈ input_devices_from i infos <->
  exists info,
    i <= idx /\ infos !! (idx - i) = Some info /\
    (0 < default 0 (max_input_channels info))%Z /\
    dev = default ("Device " +:+ str_of_nat idx) (dev_name info).
Proof.
  unfold input_devices_from.
  revert i. induction infos as [|info infos IH]; intros i; simpl.
  { split; [by intros ?%elem_of_nil|]. by intros (x & _ & Hx & _). }
  rewrite elem_of_app, IH. split.
  - intros [Hhere|(info' & Hi & Hl & Hpos & Hd)].
    + destruct (Z.ltb_spec 0 (default 0%Z (max_input_channels info)));
        [|by apply elem_of_nil in Hhere].
      apply list_elem_of_singleton in Hhere. simplify_eq.
      exists info. rewrite Nat.sub_diag. by repeat split.
    + exists info'. split; [lia|]. split; [|done].
      replace (idx - i) with (S (idx - S i)) by lia. done.
  - intros (info' & Hi & Hl & Hpos & Hd).
    destruct (decide (idx = i)) as [->|Hne].
    + left. rewrite Nat.sub_diag in Hl. simpl in Hl. simplify_eq.
      destruct (Z.ltb_spec 0 (default 0%Z (max_input_channels info'))); [|lia].
      apply list_elem_of_here.
    + right. exists info'. split; [lia|]. split; [|done].
      replace (idx - i) with (S (idx - S i)) in Hl by lia. done.
Qed.

Lemma input_devices_spec (infos : list device_info) idx dev :
  (idx, dev) ∈ input_devices_from 0 infos <-> input_device infos idx dev.
Proof.
  rewrite input_devices_from_spec. unfold input_device. rewrite Nat.sub_0_r.
  split; intros (info & H); exists info; [by destruct H as (_ & ? & ? & ?)|].
  split; [lia|done].
Qed.

Lemma input_devices_sorted (i : nat) (infos : list device_info) :
  StronglySorted (fun a b : nat * string => fst a < fst b) (input_devices_from i infos).
Proof.
  revert i. induction infos as [|info infos IH]; intros i.
  { constructor. }
  change (input_devices_from i (info :: infos))
    with ((if (0 <? default 0 (max_input_channels info))%Z
           then [(i, default ("Device " +:+ str_of_nat i) (dev_name info))]
           else []) ++ input_devices_from (S i) infos).
  destruct (0 <? default 0 (max_input_channels info))%Z; simpl; [|apply IH].
  constructor; [apply IH|].
  apply Forall_forall. intros [j dev] Hj.
  apply input_devices_from_spec in Hj as (_ & Hj & _). simpl. lia.
Qed.

(** [first_match] on a list with increasing indices: the entry found
    satisfies the test, and no entry with a smaller index does. *)
Lemma first_match_Some (p : string -> bool) (devices : list (nat * string)) idx :
  StronglySorted (fun a b : nat * string => fst a < fst b) devices ->
  first_match p devices = Some idx ->
  exists dev, (idx, dev) ∈ devices /\ p dev = true /\
    forall j dev', (j, dev') ∈ devices -> p dev' = true -> idx <= j.
Proof.
  induction 1 as [|[i d] devices Hsorted IH Hall]; simpl; [done|].
  destruct (p d) eqn:Ep.
  - intros [= <-]. exists d. split; [apply list_elem_of_here|]. split; [done|].
    intros j dev' Hj _. apply elem_of_cons in Hj as [[= -> ->]|Hj]; [done|].
    rewrite Forall_forall in Hall. specialize (Hall _ Hj). simpl in Hall. lia.
  - intros Hfm. destruct (IH Hfm) as (dev & Hin & Hp & Hmin).
    exists dev. split; [by apply list_elem_of_further|]. split; [done|].
    intros j dev' Hj Hp'. apply elem_of_cons in Hj as [[= -> ->]|Hj]; [congruence|].
    by apply (Hmin j dev').
Qed.

Lemma first_match_None (p : string -> bool) (devices : list (nat * string)) :
  first_match p devices = None ->
  forall j dev, (j, dev) ∈ devices -> p dev = false.
Proof.
  induction devices as [|[i d] devices IH]; simpl.
  { intros _ j dev Hj. by apply elem_of_nil in Hj. }
  destruct (p d) eqn:Ep; [done|]. intros Hfm j dev Hj.
  apply elem_of_cons in Hj as [[= -> ->]|Hj]; [done|]. by apply (IH Hfm j).
Qed.

Lemma is_prefix_refl s : is_prefix s s = true.
Proof. induction s as [|c s IH]; simpl; [done|]. by rewrite Ascii.eqb_refl. Qed.

Lemma is_substring_refl s : is_substring s s = true.
Proof. destruct s; simpl; [done|]. by rewrite Ascii.eqb_refl, is_prefix_refl. Qed.

(** X15.  When the device list can be read, [find_device_index_by_name]
    returns and changes no global.  An index it gives is that of an input
    device whose name contains the wanted one, letter case apart: the
    first device of exactly that name if there is one, the first that
    contains it otherwise.  It gives [None] only when no input device
    contains the name. *)
Theorem find_device_index_spec `{Sounddevice}
    (dname : string) (infos : list device_info) (w : world) :
  nonempty dname = true ->
  sd_query_devices = Returned infos ->
  exists r,
    find_device_index_by_name (Some dname) w = (Returned r, w) /\
    match r with
    | Some idx =>
        exists dev,
          input_device infos idx dev /\
          is_substring (lower dname) (lower dev) = true /\
          (forall j dev', input_device infos j dev' ->
             lower dev' = lower dname ->
             lower dev = lower dname /\ idx <= j) /\
          (forall j dev', input_device infos j dev' ->
             is_substring (lower dname) (lower dev') = true ->
             lower dev = lower dname \/ idx <= j)
    | None =>
        forall j dev', input_device infos j dev' ->
          is_substring (lower dname) (lower dev') = false
    end.
Proof.
  intros Hne Hq.
  unfold find_device_index_by_name, list_input_devices.
  unfold mbind, M_bind, mret, M_ret, call. rewrite Hne, Hq. simpl negb. cbv iota.
  fold (input_devices_from 0 infos).
  pose proof (input_devices_sorted 0 infos) as Hsorted.
  destruct (first_match (fun dev => String.eqb (lower dev) (lower dname))
              (input_devices_from 0 infos)) as [idx|] eqn:Eexact.
  - exists (Some idx). split; [done|].
    apply first_match_Some in Eexact as (dev & Hin & Hp & Hmin); [|done].
    apply String.eqb_eq in Hp. apply input_devices_spec in Hin.
    exists dev. split; [done|]. split; [rewrite Hp; apply is_substring_refl|].
    split; [|by left].
    intros j dev' Hj Hd. split; [done|].
    apply (Hmin j dev'); [by apply input_devices_spec|by apply String.eqb_eq].
  - pose proof (first_match_None _ _ Eexact) as Hnone.
    destruct (first_match (fun dev => is_substring (lower dname) (lower dev))
                (input_devices_from 0 infos)) as [idx|] eqn:Esub.
    + exists (Some idx). split; [done|].
      apply first_match_Some in Esub as (dev & Hin & Hp & Hmin); [|done].
      apply input_devices_spec in Hin.
      exists dev. split; [done|]. split; [done|]. split.
      * intros j dev' Hj Hd. apply input_devices_spec in Hj.
        specialize (Hnone j dev' Hj). simpl in Hnone.
        apply String.eqb_neq in Hnone. done.
      * intros j dev' Hj Hd. right. apply (Hmin j dev'); [|done].
        by apply input_devices_spec.
    + exists None. split; [done|].
      intros j dev' Hj. apply input_devices_spec in Hj.
      by apply (first_match_None _ _ Esub j).
Qed.

Lemma find_device_index_spec_witness :
  exists r,
    find_device_index_by_name (H := two_mics) (Some "USB Mic"%string) idle_world
    = (Returned r, idle_world) /\
    match r with
    | Some idx =>
        exists dev,
          input_device mic_list idx dev /\
          is_substring (lower "USB Mic") (lower dev) = true /\
          (forall j dev',
             input_device mic_list j dev' ->
             lower dev' = lower "USB Mic" ->
             lower dev = lower "USB Mic" /\ idx <= j) /\
          (forall j dev',
             input_device mic_list j dev' ->
             is_substring (lower "USB Mic") (lower dev') = true ->
             lower dev = lower "USB Mic" \/ idx <= j)
    | None =>
        forall j dev',
          input_device mic_list j dev' ->
          is_substring (lower "USB Mic") (lower dev') = false
    end.
Proof.
  apply (find_device_index_spec (H := two_mics) "USB Mic"%string mic_list).
  - reflexivity.
  - reflexivity.
Defined.

(** ** Recording session, continued *)

Lemma debug_spec `{ModuleGlobals} msg w :
  exists w', debug msg w = (Returned tt, w') /\
    state w' = state w /\ AUDIO_QUEUE w' = AUDIO_QUEUE w.
Proof. unfold debug. destruct DEBUG; by eexists. Qed.

Lemma notify_state cfg msg w :
  exists w', notify cfg msg w = (Returned tt, w') /\
    state w' = state w /\ AUDIO_QUEUE w' = AUDIO_QUEUE w.
Proof.
  destruct (notify_spec cfg msg w) as (w' & Hn & Hs & Hq & _). by exists w'.
Qed.

Lemma recording_callback_spec overflow indata w :
  exists w',
    recording_callback overflow indata w = (Returned tt, w') /\
    state w' = state w /\
    AUDIO_QUEUE w' =
      (if recording (state w)
       then option_map (fun chunks => chunks ++ [indata]) (AUDIO_QUEUE w)
       else AUDIO_QUEUE w).
Proof.
  unfold recording_callback, mbind, M_bind, mret, M_ret, emit, get_state,
    get_AUDIO_QUEUE, set_AUDIO_QUEUE.
  destruct overflow; simpl;
    destruct (recording (state w)); simpl;
    destruct (AUDIO_QUEUE w) eqn:E; simpl;
    (eexists; split; [reflexivity|]; simpl; by rewrite ?E).
Qed.

(** While a session records, the stream's callbacks append their chunks
    to the queue, in order, and touch nothing else of the session. *)
Lemma feed_spec (chunks : list (option string * list Q)) (s : session) :
  exists s',
    feed chunks s = (Returned tt, s') /\
    state (globals s') = state (globals s) /\
    effects s' = effects s /\
    AUDIO_QUEUE (globals s') =
      (if recording (state (globals s))
       then option_map (fun q => q ++ map snd chunks) (AUDIO_QUEUE (globals s))
       else AUDIO_QUEUE (globals s)).
Proof.
  revert s. induction chunks as [|[overflow indata] chunks IH]; intros s.
  { exists s. split; [done|]. split; [done|]. split; [done|].
    destruct (recording _); [|done].
    destruct (AUDIO_QUEUE (globals s)); simpl; [|done]. by rewrite app_nil_r. }
  destruct (recording_callback_spec overflow indata (globals s))
    as (w' & Hcb & Hst & Hq).
  destruct (IH {| globals := w'; effects := effects s |})
    as (s' & Hfeed & Hst' & Heff' & Hq').
  exists s'. simpl in *. unfold mbind, SM_bind, lift. rewrite Hcb.
  split; [exact Hfeed|]. split; [congruence|]. split; [done|].
  rewrite Hq', Hst, Hq. destruct (recording (state (globals s))); [|done].
  destruct (AUDIO_QUEUE (globals s)); simpl; [|done].
  by rewrite <- app_assoc.
Qed.

Ltac run_world :=
  unfold try_except, mbind, M_bind, mret, M_ret, get_state, set_state,
    set_AUDIO_QUEUE, get_AUDIO_QUEUE, call, notify, debug, emit,
    refresh_tray_indicator, refresh_menu.

(** [start_recording] when every call of its [try] block returns. *)
Lemma start_recording_success `{ModuleGlobals} `{Sounddevice} `{Tray}
    (cfg : config) (w w1 : world) (h : nat) :
  recording (state w) = false ->
  update_device_index cfg w = (Returned tt, w1) ->
  sd_InputStream (device_idx (state w1)) = Returned h ->
  sd_stream_start h = Returned tt ->
  tray_refresh_indicator = Returned tt ->
  tray_refresh_menu = Returned tt ->
  exists w2,
    start_recording cfg w = (Returned tt, w2) /\
    recording (state w2) = true /\
    stream (state w2) = Some h /\
    AUDIO_QUEUE w2 = Some [].
Proof.
  intros Hrec Hdev Hopen Hstart Hind Hmenu.
  unfold start_recording. run_world. rewrite Hrec, Hdev. simpl.
  rewrite Hopen, Hstart, Hind, Hmenu.
  destruct (negb (default true (notifications_enabled cfg))), DEBUG; simpl;
    rewrite ?Hind, ?Hmenu; by eexists.
Qed.

Lemma stop_recording_idle `{ModuleGlobals} `{Tray} `{StreamOps} `{FloatFormat}
    (cfg : config) (s : session) :
  recording (state (globals s)) = false ->
  stop_recording cfg s = (Returned tt, s).
Proof.
  intros Hrec. unfold stop_recording, lift, mbind, SM_bind, get_state. simpl.
  rewrite Hrec. simpl. by destruct s.
Qed.

(** [stop_recording] of a recording session whose tray answers. *)
Lemma stop_recording_spec `{ModuleGlobals} `{Tray} `{StreamOps} `{FloatFormat}
    (cfg : config) (s : session) (h : nat) (q : list (list Q)) :
  recording (state (globals s)) = true ->
  stream (state (globals s)) = Some h ->
  AUDIO_QUEUE (globals s) = Some q ->
  tray_refresh_indicator = Returned tt ->
  tray_refresh_menu = Returned tt ->
  q <> [] ->
  exists s' stream_calls,
    stop_recording cfg s = (Returned tt, s') /\
    session_idle s' /\
    (stream_calls = [StreamStop h] \/ stream_calls = [StreamStop h; StreamClose h]) /\
    effects s' = effects s ++ stream_calls ++ [TranscribeThread (concat q)].
Proof.
  intros Hrec Hstream Hq Hind Hmenu Hne.
  unfold stop_recording, lift, suppress, log, mbind, SM_bind. run_world. simpl.
  rewrite Hrec. simpl. rewrite Hind, Hmenu, Hstream, Hq. simpl.
  destruct q as [|c q]; [done|]. simpl.
  destruct (sd_stream_stop h); simpl.
  - destruct (sd_stream_close h), DEBUG; simpl;
      (eexists; exists [StreamStop h; StreamClose h];
       split; [reflexivity|]; split; [done|]; split; [by right|];
       simpl; by rewrite <- !app_assoc).
  - destruct DEBUG; simpl;
      (eexists; exists [StreamStop h];
       split; [reflexivity|]; split; [done|]; split; [by left|];
       simpl; by rewrite <- !app_assoc).
Qed.

(** X16.  A whole session.  From an idle state, when the device lookup, the
    stream and the tray all answer, the first toggle starts recording;
    the chunks the stream then delivers are what the second toggle hands
    to the transcription thread, joined in the order of arrival, after it
    stopped the stream; the session is idle again. *)
Theorem recording_session_dispatch
    `{ModuleGlobals} `{Sounddevice} `{Tray} `{StreamOps} `{FloatFormat}
    (cfg : config) (s0 : session) (w1 : world) (h : nat)
    (chunks : list (option string * list Q)) :
  recording (state (globals s0)) = false ->
  update_device_index cfg (globals s0) = (Returned tt, w1) ->
  sd_InputStream (device_idx (state w1)) = Returned h ->
  sd_stream_start h = Returned tt ->
  tray_refresh_indicator = Returned tt ->
  tray_refresh_menu = Returned tt ->
  chunks <> [] ->
  exists s1 s2 s3,
    toggle_recording cfg s0 = (Returned tt, s1) /\
    session_started s1 h /\
    feed chunks s1 = (Returned tt, s2) /\
    toggle_recording cfg s2 = (Returned tt, s3) /\
    session_idle s3 /\
    exists stream_calls,
      (stream_calls = [StreamStop h] \/ stream_calls = [StreamStop h; StreamClose h]) /\
      effects s3 =
        effects s0 ++ stream_calls ++ [TranscribeThread (concat (map snd chunks))].
Proof.
  intros Hrec Hdev Hopen Hstart Hind Hmenu Hchunks.
  destruct (start_recording_success cfg _ w1 h Hrec Hdev Hopen Hstart Hind Hmenu)
    as (w2 & Hsr & Hrec1 & Hstream1 & Hqueue1).
  set (s1 := {| globals := w2; effects := effects s0 |}).
  destruct (feed_spec chunks s1) as (s2 & Hfeed & Hst2 & Heff2 & Hq2).
  simpl in Hq2. rewrite Hrec1, Hqueue1 in Hq2. simpl in Hq2.
  destruct (stop_recording_spec cfg s2 h (map snd chunks))
    as (s3 & calls & Hstop & Hidle & Hcalls & Heff3);
    [by rewrite Hst2|by rewrite Hst2|done|done|done|by destruct chunks|].
  exists s1, s2, s3.
  split.
  { unfold toggle_recording, lift, mbind, SM_bind, get_state. simpl.
    rewrite Hrec. simpl. by rewrite Hsr. }
  split; [done|]. split; [done|]. split.
  { unfold toggle_recording, lift, mbind, SM_bind, get_state. simpl.
    rewrite Hst2. simpl. rewrite Hrec1. rewrite <- Hstop. by destruct s2. }
  split; [done|]. exists calls. split; [done|]. by rewrite Heff3, Heff2.
Qed.

Lemma recording_session_dispatch_witness :
  exists s1 s2 s3,
    toggle_recording (H := vad_on) (H0 := two_mics) (H1 := quiet_tray)
      (H2 := calm_streams) (H3 := cut_format) DEFAULT_CFG idle_session
    = (Returned tt, s1) /\
    session_started s1 0 /\
    feed two_chunks s1 = (Returned tt, s2) /\
    toggle_recording (H := vad_on) (H0 := two_mics) (H1 := quiet_tray)
      (H2 := calm_streams) (H3 := cut_format) DEFAULT_CFG s2
    = (Returned tt, s3) /\
    session_idle s3 /\
    exists stream_calls,
      (stream_calls = [StreamStop 0] \/ stream_calls = [StreamStop 0; StreamClose 0]) /\
      effects s3 =
        effects idle_session ++ stream_calls
        ++ [TranscribeThread (concat (map snd two_chunks))].
Proof.
  apply (recording_session_dispatch (H := vad_on) (H0 := two_mics) (H1 := quiet_tray)
           (H2 := calm_streams) (H3 := cut_format)
           DEFAULT_CFG idle_session idle_world 0 two_chunks).
  - reflexivity.
  - reflexivity.
  - reflexivity.
  - reflexivity.
  - reflexivity.
  - reflexivity.
  - discriminate.
Defined.

(** X17.  A failure after [state["recording"] = True] is caught like any other
    of the [try] block, but only the queue is taken back: when the stream
    has started and a tray refresh raises, [start_recording] returns with
    [recording] true, the stream stored and no queue, so that every chunk
    the stream delivers from then on is dropped. *)
Theorem start_recording_late_failure
    `{ModuleGlobals} `{Sounddevice} `{Tray}
    (cfg : config) (w w1 : world) (h : nat) (exc : py_exception)
    (chunks : list (option string * list Q)) (log_so_far : list session_effect) :
  recording (state w) = false ->
  update_device_index cfg w = (Returned tt, w1) ->
  sd_InputStream (device_idx (state w1)) = Returned h ->
  sd_stream_start h = Returned tt ->
  (tray_refresh_indicator = Raised exc \/
   (tray_refresh_indicator = Returned tt /\ tray_refresh_menu = Raised exc)) ->
  exists w2 s3,
    start_recording cfg w = (Returned tt, w2) /\
    recording (state w2) = true /\
    stream (state w2) = Some h /\
    AUDIO_QUEUE w2 = None /\
    In (Stderr ("[ERROR] start_recording failed: " +:+ exc_msg exc)) (outputs w2) /\
    feed chunks {| globals := w2; effects := log_so_far |} = (Returned tt, s3) /\
    AUDIO_QUEUE (globals s3) = None /\
    recording (state (globals s3)) = true.
Proof.
  intros Hrec Hdev Hopen Hstart Htray.
  assert (Hsr : exists w2,
            start_recording cfg w = (Returned tt, w2) /\
            recording (state w2) = true /\ stream (state w2) = Some h /\
            AUDIO_QUEUE w2 = None /\
            In (Stderr ("[ERROR] start_recording failed: " +:+ exc_msg exc))
               (outputs w2)).
  { unfold start_recording. run_world. rewrite Hrec, Hdev. simpl.
    rewrite Hopen, Hstart.
    destruct Htray as [Hind|[Hind Hmenu]];
      destruct (negb (default true (notifications_enabled cfg))), DEBUG; simpl;
      rewrite ?Hind, ?Hmenu; simpl;
      (eexists; split; [reflexivity|]; simpl;
       split; [done|]; split; [done|]; split; [done|];
       apply in_or_app; right; by left). }
  destruct Hsr as (w2 & Hsr & Hrec2 & Hstream2 & Hq2 & Hout).
  destruct (feed_spec chunks {| globals := w2; effects := log_so_far |})
    as (s3 & Hfeed & Hst3 & _ & Hq3).
  simpl in Hst3, Hq3. rewrite Hrec2, Hq2 in Hq3. simpl in Hq3.
  exists w2, s3. repeat split; try done. by rewrite Hst3.
Qed.

Lemma start_recording_late_failure_witness :
  exists w2 s3,
    start_recording (H := vad_on) (H0 := two_mics) (H1 := broken_tray)
      DEFAULT_CFG idle_world = (Returned tt, w2) /\
    recording (state w2) = true /\
    stream (state w2) = Some 0 /\
    AUDIO_QUEUE w2 = None /\
    In (Stderr ("[ERROR] start_recording failed: "
                +:+ exc_msg (Exception "RuntimeError" "indicator gone")))
       (outputs w2) /\
    feed two_chunks {| globals := w2; effects := [] |} = (Returned tt, s3) /\
    AUDIO_QUEUE (globals s3) = None /\
    recording (state (globals s3)) = true.
Proof.
  apply (start_recording_late_failure (H := vad_on) (H0 := two_mics)
           (H1 := broken_tray) DEFAULT_CFG idle_world idle_world 0).
  - reflexivity.
  - reflexivity.
  - reflexivity.
  - reflexivity.
  - left. reflexivity.
Defined.

(** X18.  [stop_recording] refreshes the tray after it has cleared the state
    and before it touches the stream and the queue: when a refresh
    raises, the exception leaves [stop_recording], the session is idle,
    the stream is neither stopped nor closed and the recorded audio goes
    to no transcription. *)
Theorem stop_recording_tray_failure
    `{ModuleGlobals} `{Tray} `{StreamOps} `{FloatFormat}
    (cfg : config) (s : session) (exc : py_exception) :
  recording (state (globals s)) = true ->
  (tray_refresh_indicator = Raised exc \/
   (tray_refresh_indicator = Returned tt /\ tray_refresh_menu = Raised exc)) ->
  exists s',
    stop_recording cfg s = (Raised exc, s') /\
    session_idle s' /\
    effects s' = effects s /\
    outputs (globals s') = outputs (globals s).
Proof.
  intros Hrec Htray.
  unfold stop_recording, lift, suppress, log, mbind, SM_bind. run_world. simpl.
  rewrite Hrec. simpl.
  destruct Htray as [Hind|[Hind Hmenu]]; rewrite ?Hind, ?Hmenu; simpl;
    by eexists.
Qed.

Lemma stop_recording_tray_failure_witness :
  exists s',
    stop_recording (H := vad_on) (H0 := broken_tray) (H1 := calm_streams)
      (H2 := cut_format) DEFAULT_CFG recording_session
    = (Raised (Exception "RuntimeError" "indicator gone"), s') /\
    session_idle s' /\
    effects s' = effects recording_session /\
    outputs (globals s') = outputs (globals recording_session).
Proof.
  apply (stop_recording_tray_failure (H := vad_on) (H0 := broken_tray)
           (H1 := calm_streams) (H2 := cut_format) DEFAULT_CFG recording_session).
  - reflexivity.
  - left. reflexivity.
Defined.

(** ** Version numbers *)

Lemma tuple_gt_irrefl a : tuple_gt a a = false.
Proof. induction a as [|x a IH]; simpl; [done|]. by rewrite Z.ltb_irrefl. Qed.

Lemma tuple_gt_trans a b c :
  tuple_gt a b = true -> tuple_gt b c = true -> tuple_gt a c = true.
Proof.
  revert b c. induction a as [|x a IH]; intros [|y b] [|z c]; simpl; try done.
  destruct (Z.ltb_spec y x), (Z.ltb_spec x y), (Z.ltb_spec z y), (Z.ltb_spec y z),
    (Z.ltb_spec z x), (Z.ltb_spec x z); try lia; try done.
  apply IH.
Qed.

Lemma tuple_gt_asym a b : tuple_gt a b = true -> tuple_gt b a = false.
Proof.
  intros Hab. destruct (tuple_gt b a) eqn:Hba; [|done].
  pose proof (tuple_gt_trans _ _ _ Hab Hba) as Haa.
  by rewrite tuple_gt_irrefl in Haa.
Qed.

(** [is_newer_version] is a strict order on version strings, whatever
    they hold: no version is newer than itself, of two versions at most
    one is newer than the other, and newer than newer is newer. *)
Theorem is_newer_version_strict_order (a b c : string) :
  is_newer_version a a = false /\
  (is_newer_version a b = true -> is_newer_version b a = false) /\
  (is_newer_version a b = true -> is_newer_version b c = true ->
   is_newer_version a c = true).
Proof.
  unfold is_newer_version. split; [apply tuple_gt_irrefl|].
  split; [apply tuple_gt_asym|apply tuple_gt_trans].
Qed.

Lemma int_digits_uint (d : Decimal.uint) (acc : nat) :
  int_digits (NilEmpty.string_of_uint d) (Z.of_nat acc) true
  = Some (Z.of_nat (Nat.of_uint_acc d acc)).
Proof.
  revert acc. induction d; intros acc; simpl; [done|..];
    match goal with
    | |- int_digits _ ?z true = _ =>
        match goal with
        | |- _ = Some (Z.of_nat (Nat.of_uint_acc _ ?n)) =>
            replace z with (Z.of_nat n)
              by (rewrite Nat.tail_mul_spec; unfold digit_value; simpl; lia)
        end
    end; apply IHd.
Qed.

Lemma int_digits_str_of_nat (n : nat) :
  int_digits (str_of_nat n) 0 false = Some (Z.of_nat n).
Proof.
  unfold str_of_nat. rewrite <- (DecimalNat.Unsigned.of_to n) at 2.
  unfold Nat.of_uint.
  destruct (Nat.to_uint n) as [|d|d|d|d|d|d|d|d|d|d]; simpl; [done|..];
    match goal with
    | |- int_digits _ ?z true = _ =>
        match goal with
        | |- _ = Some (Z.of_nat (Nat.of_uint_acc _ ?n)) =>
            change z with (Z.of_nat n)
        end
    end; apply int_digits_uint.
Qed.

Lemma string_of_uint_digits (d : Decimal.uint) :
  all_digits (NilEmpty.string_of_uint d) = true.
Proof. induction d; simpl; done. Qed.

Lemma str_of_nat_digits (n : nat) :
  all_digits (str_of_nat n) = true /\ nonempty (str_of_nat n) = true.
Proof.
  unfold str_of_nat, NilZero.string_of_uint.
  destruct (Nat.to_uint n) eqn:E; try done;
    (split; [rewrite <- E; rewrite E; apply (string_of_uint_digits (_ u))|done]).
Qed.

Lemma is_digit_props c :
  is_digit c = true ->
  is_space c = false /\ Ascii.eqb c "." = false /\ Ascii.eqb c "v" = false /\
  Ascii.eqb c "+" = false /\ Ascii.eqb c "-" = false.
Proof. destruct c as [[] [] [] [] [] [] [] []]; vm_compute; try done. Qed.

Lemma all_digits_props s :
  all_digits s = true -> nonempty s = true ->
  head_ok s = true /\ last_ok s = true /\ no_sep "." s = true.
Proof.
  induction s as [|c s IH]; [done|]. simpl.
  intros [Hc Hs]%andb_true_iff _.
  destruct (is_digit_props c Hc) as (Hsp & Hdot & _).
  rewrite Hsp, Hdot. simpl. split; [done|].
  destruct s as [|d s]; [done|].
  destruct IH as (_ & Hl & Hn); [done|done|]. by rewrite Hn.
Qed.

Lemma py_int_str_of_nat (n : nat) : py_int (str_of_nat n) = Some (Z.of_nat n).
Proof.
  destruct (str_of_nat_digits n) as [Hd Hne].
  destruct (all_digits_props _ Hd Hne) as (Hh & Hl & _).
  unfold py_int. rewrite strip_id by done.
  pose proof (int_digits_str_of_nat n) as Hint.
  destruct (str_of_nat n) as [|c s]; [done|].
  simpl in Hd. apply andb_true_iff in Hd as [Hc _].
  destruct (is_digit_props c Hc) as (_ & _ & _ & Hplus & Hminus).
  destruct (Ascii.eqb_spec c "+"); [done|].
  destruct (Ascii.eqb_spec c "-"); [done|].
  destruct c as [[] [] [] [] [] [] [] []]; try done.
Qed.

Lemma split_join_sep (sep : ascii) (parts : list string) :
  parts <> [] ->
  Forall (fun p => no_sep sep p = true) parts ->
  split sep (join (String sep EmptyString) parts) = parts.
Proof.
  induction parts as [|p ps IH]; [done|].
  intros _ Hall. apply Forall_cons in Hall as [Hp Hps].
  destruct ps as [|q ps].
  - simpl. by apply split_no_sep.
  - change (join (String sep EmptyString) (p :: q :: ps))
      with (p +:+ String sep (join (String sep EmptyString) (q :: ps))).
    rewrite split_app by done. f_equal. by apply IH.
Qed.

Lemma join_sep_head_last (sep : ascii) (parts : list string) :
  is_space sep = false ->
  parts <> [] ->
  Forall (fun p => head_ok p = true /\ last_ok p = true) parts ->
  head_ok (join (String sep EmptyString) parts) = true /\
  last_ok (join (String sep EmptyString) parts) = true.
Proof.
  intros Hsep. induction parts as [|p ps IH]; [done|].
  intros _ Hall. apply Forall_cons in Hall as [[Hh Hl] Hps].
  destruct ps as [|q ps]; [done|].
  destruct IH as [_ IHl]; [done|done|].
  change (join (String sep EmptyString) (p :: q :: ps))
    with (p +:+ String sep (join (String sep EmptyString) (q :: ps))).
  split.
  - by apply head_ok_append.
  - apply last_ok_append.
    change (String sep (join (String sep EmptyString) (q :: ps)))
      with (String sep EmptyString +:+ join (String sep EmptyString) (q :: ps))%string.
    by apply last_ok_append.
Qed.

(** The numbers of a dotted version string, with or without the [v] of a
    release tag. *)
Lemma parse_version_string (ns : list nat) :
  ns <> [] ->
  parse_version (version_string ns) = map Z.of_nat ns /\
  parse_version ("v" +:+ version_string ns) = map Z.of_nat ns.
Proof.
  intros Hne. unfold version_string.
  assert (Hparts : Forall (fun p => all_digits p = true /\ nonempty p = true)
                     (map str_of_nat ns)).
  { apply Forall_forall. intros p Hp.
    apply list_elem_of_fmap in Hp as (n & -> & _). apply str_of_nat_digits. }
  assert (Hnil : map str_of_nat ns <> []) by by destruct ns.
  destruct (join_sep_head_last "." (map str_of_nat ns)) as [Hh Hl]; [done|done| |].
  { eapply Forall_impl; [exact Hparts|]. intros p [Hd Hn].
    by destruct (all_digits_props p Hd Hn) as (? & ? & _). }
  assert (Hsplit : split "." (join "." (map str_of_nat ns)) = map str_of_nat ns).
  { apply split_join_sep; [done|].
    eapply Forall_impl; [exact Hparts|]. intros p [Hd Hn].
    by destruct (all_digits_props p Hd Hn) as (_ & _ & ?). }
  assert (Hints : map (fun segment => default 0%Z (py_int segment)) (map str_of_nat ns)
                  = map Z.of_nat ns).
  { rewrite map_map. apply map_ext. intros n. by rewrite py_int_str_of_nat. }
  assert (Hv : forall rest, join "." (map str_of_nat ns) <> String "v" rest).
  { intros rest Heq. destruct ns as [|n ns']; [done|].
    destruct (str_of_nat_digits n) as [Hd Hn].
    assert (Hfirst : exists c s, str_of_nat n = String c s /\ is_digit c = true).
    { destruct (str_of_nat n) as [|c s]; [done|]. simpl in Hd.
      apply andb_true_iff in Hd as [Hc _]. by exists c, s. }
    destruct Hfirst as (c & s & Hs & Hc).
    destruct (is_digit_props c Hc) as (_ & _ & Hnv & _).
    simpl map in Heq. rewrite Hs in Heq.
    assert (Hcv : c = "v"%char).
    { destruct ns'; simpl in Heq; rewrite ?append_String in Heq; congruence. }
    subst c. by vm_compute in Hc. }
  split.
  - unfold parse_version. rewrite strip_id by done.
    destruct (join "." (map str_of_nat ns)) as [|c s] eqn:E.
    + by rewrite <- Hints, <- Hsplit.
    + destruct (Ascii.eqb_spec c "v") as [->|Hc]; [by destruct (Hv s)|].
      replace (match c with
               | "v"%char => s
               | _ => String c s
               end) with (String c s).
      { by rewrite Hsplit, Hints. }
      destruct c as [[] [] [] [] [] [] [] []]; done.
  - unfold parse_version.
    rewrite strip_id; [|done|].
    + change ("v" +:+ join "." (map str_of_nat ns))%string
        with (String "v" (join "." (map str_of_nat ns))).
      cbv iota. by rewrite Hsplit, Hints.
    + by apply (last_ok_append "v").
Qed.

(** X19.  A release tag [vX.Y.Z] and the bare [X.Y.Z] parse to the same tuple,
    the numbers between the dots. *)
Theorem parse_version_numbers (ns : list nat) :
  ns <> [] ->
  parse_version (version_string ns) = map Z.of_nat ns /\
  parse_version ("v" +:+ version_string ns) = map Z.of_nat ns.
Proof. apply parse_version_string. Qed.

Lemma parse_version_numbers_witness :
  parse_version (version_string [1; 12; 0]) = map Z.of_nat [1; 12; 0] /\
  parse_version ("v" +:+ version_string [1; 12; 0]) = map Z.of_nat [1; 12; 0].
Proof. apply (parse_version_numbers [1; 12; 0]). discriminate. Defined.

Lemma tuple_gt_snoc (a : list Z) (x : Z) : tuple_gt (a ++ [x]) a = true.
Proof. induction a as [|y a IH]; simpl; [done|]. by rewrite Z.ltb_irrefl. Qed.

(** X20.  Tuples compare by length once one is a prefix of the other: a
    version with one more component is newer, even when that component
    is zero, so that 1.0.0 counts as an update of 1.0. *)
Theorem longer_version_is_newer (ns : list nat) (n : nat) :
  ns <> [] ->
  is_newer_version ("v" +:+ version_string (ns ++ [n])) (version_string ns) = true /\
  is_newer_version (version_string ns) ("v" +:+ version_string (ns ++ [n])) = false.
Proof.
  intros Hne. unfold is_newer_version.
  destruct (parse_version_string ns Hne) as [-> _].
  destruct (parse_version_string (ns ++ [n])) as [_ ->]; [by destruct ns|].
  rewrite map_app. simpl map.
  split; [apply tuple_gt_snoc|apply tuple_gt_asym, tuple_gt_snoc].
Qed.

Lemma longer_version_is_newer_witness :
  is_newer_version ("v" +:+ version_string ([1; 0] ++ [0])) (version_string [1; 0]) = true /\
  is_newer_version (version_string [1; 0]) ("v" +:+ version_string ([1; 0] ++ [0])) = false.
Proof. apply (longer_version_is_newer [1; 0] 0). discriminate. Defined.

(** ** The segments of [apply_vad] *)

Lemma segments_step_inv (l : list nat) (acc : list (nat * nat) * nat * nat) (v : nat) :
  segments_inv l acc ->
  (forall x, In x l -> x < v) ->
  segments_inv (l ++ [v]) (segments_step acc v).
Proof.
  destruct acc as [[segs s] p]. intros (Hsp & Hblock & Hleft & Hmax & Hsegs) Hv.
  assert (Hin : forall j, In j (l ++ [v]) <-> In j l \/ j = v).
  { intros j. rewrite in_app_iff. simpl.
    split; [intros [?|[?|[]]]; [by left|by right]|intros [?|?]; [by left|right; by left]]. }
  assert (Hpv : p < v) by (apply Hv, Hblock; lia).
  unfold segments_step.
  destruct (Z.ltb_spec 1 (Z.of_nat v - Z.of_nat p)) as [Hgap|Hnext].
  - (* a gap: the current run is complete *)
    simpl. split; [done|]. split.
    { intros j Hj. apply Hin. right. lia. }
    split.
    { right. rewrite Hin. intros [Hl|Heq]; [|lia]. apply Hmax in Hl. lia. }
    split.
    { intros x Hx. apply Hin in Hx as [Hx| ->]; [|done]. apply Hv in Hx. lia. }
    intros a e. rewrite in_app_iff. simpl. split.
    + intros [Hold|[Heq|[]]]; [|injection Heq as <- <-].
      * apply Hsegs in Hold as [(Hae & Hb & Hl & Hr) Hes].
        split; [|lia]. split; [done|]. split.
        { intros j Hj. apply Hin. left. by apply Hb. }
        split.
        { destruct Hl as [->|Hl]; [by left|]. right.
          rewrite Hin. intros [?|?]; [done|lia]. }
        rewrite Hin. intros [?|?]; [done|lia].
      * split; [|lia]. split; [done|]. split.
        { intros j Hj. apply Hin. left. by apply Hblock. }
        split.
        { destruct Hleft as [->|Hl]; [by left|]. right.
          rewrite Hin. intros [?|?]; [done|lia]. }
        rewrite Hin. intros [Hl|?]; [|lia]. apply Hmax in Hl. lia.
    + intros [(Hae & Hb & Hl & Hr) Hes].
      assert (Hb' : forall j, a <= j <= e -> In j l).
      { intros j Hj. destruct (proj1 (Hin j) (Hb j Hj)) as [?|?]; [done|lia]. }
      assert (Hl' : a = 0 \/ ~ In (a - 1) l).
      { destruct Hl as [->|Hl]; [by left|]. right. intros ?. apply Hl, Hin. by left. }
      assert (Hr' : ~ In (e + 1) l).
      { intros ?. apply Hr, Hin. by left. }
      destruct (decide (e + 1 < s)) as [Hlt|Hge].
      { left. apply Hsegs. by repeat split. }
      right. left.
      assert (He : e = p).
      { pose proof (Hmax e (Hb' e ltac:(lia))).
        destruct (decide (e = p)); [done|]. exfalso. apply Hr', Hblock. lia. }
      assert (Ha : a = s).
      { destruct (decide (a < s)) as [Has|Has].
        - exfalso. destruct Hleft as [->|Hleft]; [lia|]. apply Hleft, Hb'. lia.
        - destruct (decide (a = s)); [done|]. exfalso.
          destruct Hl' as [->|Hl']; [lia|]. apply Hl', Hblock. lia. }
      by subst.
  - (* the run goes on *)
    simpl. split; [lia|]. split.
    { intros j Hj. apply Hin. destruct (decide (j = v)); [by right|].
      left. apply Hblock. lia. }
    split.
    { destruct Hleft as [->|Hl]; [by left|]. right.
      rewrite Hin. intros [?|?]; [done|lia]. }
    split.
    { intros x Hx. apply Hin in Hx as [Hx| ->]; [|done]. apply Hv in Hx. lia. }
    intros a e. rewrite Hsegs. split.
    + intros [(Hae & Hb & Hl & Hr) Hes]. split; [|done].
      split; [done|]. split.
      { intros j Hj. apply Hin. left. by apply Hb. }
      split.
      { destruct Hl as [->|Hl]; [by left|]. right.
        rewrite Hin. intros [?|?]; [done|lia]. }
      rewrite Hin. intros [?|?]; [done|lia].
    + intros [(Hae & Hb & Hl & Hr) Hes]. split; [|done].
      split; [done|]. split.
      { intros j Hj. destruct (proj1 (Hin j) (Hb j Hj)) as [?|?]; [done|lia]. }
      split.
      { destruct Hl as [->|Hl]; [by left|]. right. intros ?. apply Hl, Hin. by left. }
      intros ?. apply Hr, Hin. by left.
Qed.

Lemma segments_fold_inv (i0 : nat) (rest : list nat) :
  StronglySorted lt (i0 :: rest) ->
  segments_inv (i0 :: rest) (fold_left segments_step rest ([], i0, i0)).
Proof.
  induction rest as [|v rest IH] using rev_ind; intros Hsorted.
  { simpl. split; [done|]. split.
    { intros j Hj. left. lia. }
    split.
    { destruct i0; [by left|]. right. simpl. intros [?|[]]. lia. }
    split.
    { intros x [<-|[]]. done. }
    intros a e. split; [done|].
    intros [(Hae & Hb & _) Hes]. destruct (Hb e ltac:(lia)) as [?|[]]. lia. }
  rewrite fold_left_app. simpl.
  change (i0 :: rest ++ [v]) with ((i0 :: rest) ++ [v]) in *.
  assert (Hprefix : StronglySorted lt (i0 :: rest) /\ forall x, In x (i0 :: rest) -> x < v).
  { clear IH. revert Hsorted. generalize (i0 :: rest). intros l.
    induction l as [|y l IHl]; simpl; intros Hs; [split; [constructor|done]|].
    apply StronglySorted_inv in Hs as [Hs Hall].
    destruct (IHl Hs) as [Hs' Hlt]. split.
    - constructor; [done|]. apply Forall_app in Hall as [Hall _]. done.
    - intros x [<-|Hx]; [|by apply Hlt].
      apply Forall_app in Hall as [_ Hall]. by apply Forall_inv in Hall. }
  destruct Hprefix as [Hs Hlt].
  by apply segments_step_inv; [apply IH|].
Qed.

(** X7.  The segments that the loop over [voiced_indices] builds are exactly
    the maximal runs of voiced frames: [(a, e)] is among them if and only
    if the frames [a] to [e] are voiced and neither frame [a - 1] nor
    frame [e + 1] is. *)
Theorem voiced_segments_are_runs (mask : list bool) :
  any mask = true ->
  exists segments,
    voiced_segments (flatnonzero mask) = Returned segments /\
    forall a e, In (a, e) segments <-> is_run mask a (S e).
Proof.
  intros Hany. apply any_nth in Hany as (j0 & Hj0).
  pose proof (flatnonzero_In mask) as Hin.
  pose proof (flatnonzero_from_sorted 0 mask) as Hsorted.
  fold (flatnonzero mask) in Hsorted.
  unfold voiced_segments.
  destruct (flatnonzero mask) as [|i0 rest] eqn:E.
  { by apply Hin in Hj0. }
  pose proof (segments_fold_inv i0 rest Hsorted) as Hinv.
  destruct (fold_left segments_step rest ([], i0, i0)) as [[segs s] p].
  destruct Hinv as (Hsp & Hblock & Hleft & Hmax & Hsegs).
  eexists. split; [reflexivity|].
  assert (Hruns : forall a e, index_run (i0 :: rest) a e <-> is_run mask a (S e)).
  { intros a e. unfold index_run, is_run. split.
    - intros (Hae & Hb & Hl & Hr). split.
      { split; [lia|]. apply Nat.le_succ_l, nth_true_lt, Hin, Hb. lia. }
      split.
      { intros j Hj. apply Hin, Hb. lia. }
      split.
      { destruct Hl as [->|Hl]; [by left|]. right.
        destruct (nth (a - 1) mask false) eqn:En; [|done].
        exfalso. by apply Hl, Hin. }
      destruct (nth (S e) mask false) eqn:En; [|done].
      exfalso. apply Hr. replace (e + 1) with (S e) by lia. by apply Hin.
    - intros ([Hae _] & Hb & Hl & Hr). split; [lia|]. split.
      { intros j Hj. apply Hin, Hb. lia. }
      split.
      { destruct Hl as [->|Hl]; [by left|]. right. intros Hx%Hin. congruence. }
      replace (e + 1) with (S e) by lia. intros Hx%Hin. congruence. }
  intros a e. rewrite <- Hruns, in_app_iff. simpl. split.
  - intros [Hold|[Heq|[]]]; [|injection Heq as <- <-].
    + by apply Hsegs in Hold as [? _].
    + split; [done|]. split; [done|]. split; [done|].
      intros Hx%Hmax. lia.
  - intros (Hae & Hb & Hl & Hr).
    destruct (decide (e + 1 < s)) as [Hlt|Hge].
    { left. apply Hsegs. by repeat split. }
    right. left.
    assert (He : e = p).
    { pose proof (Hmax e (Hb e ltac:(lia))).
      destruct (decide (e = p)); [done|]. exfalso. apply Hr, Hblock. lia. }
    assert (Ha : a = s).
    { destruct (decide (a < s)) as [Has|Has].
      - exfalso. destruct Hleft as [->|Hleft]; [lia|]. apply Hleft, Hb. lia.
      - destruct (decide (a = s)); [done|]. exfalso.
        destruct Hl as [->|Hl]; [lia|]. apply Hl, Hblock. lia. }
    by subst.
Qed.

Lemma voiced_segments_are_runs_witness :
  exists segments,
    voiced_segments (flatnonzero [false; true; true; false; true]) = Returned segments /\
    forall a e, In (a, e) segments
                <-> is_run [false; true; true; false; true] a (S e).
Proof. apply (voiced_segments_are_runs [false; true; true; false; true]). reflexivity. Defined.

(** ** Bridging, exactly *)

Lemma fold_add_acc (l : list Z) (acc : Z) :
  fold_left Z.add l acc = (acc + fold_left Z.add l 0)%Z.
Proof.
  revert acc. induction l as [|x l IH]; intros acc; simpl; [lia|].
  rewrite (IH (acc + x)%Z), (IH (0 + x)%Z). lia.
Qed.

Lemma fold_add_pos_inv (l : list Z) :
  (0 < fold_left Z.add l 0)%Z -> exists x, In x l /\ (0 < x)%Z.
Proof.
  induction l as [|x l IH]; simpl; [lia|].
  rewrite fold_add_acc. intros Hpos.
  destruct (Z.ltb_spec 0 x) as [Hx|Hx]; [exists x; by split; [left|]|].
  destruct IH as (y & Hy & Hy0); [lia|]. exists y. split; [by right|done].
Qed.

Lemma nth_mask_int (mask : list bool) (j : nat) :
  nth j (map mask_int mask) 0%Z = mask_int (nth j mask false).
Proof.
  destruct (decide (j < length mask)) as [Hj|Hj].
  - rewrite (nth_indep _ 0%Z (mask_int false)) by (rewrite length_map; lia).
    apply map_nth.
  - rewrite !nth_overflow; rewrite ?length_map; [done|lia..].
Qed.

(** An entry of the bridged mask is true exactly when a true entry of
    the mask lies within the kernel placed on it. *)
Lemma dilate_nth (b : nat) (mask : list bool) (i : nat) :
  0 < length mask ->
  let off := (Nat.min (length mask) (2 * b + 1) - 1) / 2 in
  nth i (dilate b mask) false = true <->
  i < Nat.max (length mask) (2 * b + 1) /\
  exists j, nth j mask false = true /\ j <= off + i <= j + 2 * b.
Proof.
  intros Hlen off.
  assert (Hoff : 2 * off <= Nat.min (length mask) (2 * b + 1) - 1).
  { unfold off. pose proof (Nat.div_mod_eq (Nat.min (length mask) (2 * b + 1) - 1) 2).
    lia. }
  pose proof (dilate_length b mask Hlen) as Hdl.
  split.
  - intros Hi. pose proof (nth_true_lt _ _ Hi) as Hib. rewrite Hdl in Hib.
    split; [done|].
    unfold dilate in Hi.
    rewrite (nth_indep _ false ((fun c => (0 <? c)%Z) 0%Z)) in Hi
      by (rewrite length_map, np_convolve_same_length;
          rewrite ?length_map, ?repeat_length; lia).
    rewrite map_nth in Hi. apply Z.ltb_lt in Hi. unfold np_convolve_same in Hi.
    rewrite length_map, repeat_length in Hi. fold off in Hi.
    rewrite nth_slice in Hi by done.
    unfold convolve_full in Hi.
    rewrite nth_map_seq in Hi by (rewrite length_map, repeat_length; lia).
    apply fold_add_pos_inv in Hi as (x & Hx & Hx0).
    apply in_map_iff in Hx as (k & <- & Hk). apply in_seq in Hk.
    rewrite repeat_length in Hk.
    destruct (Nat.leb_spec k (off + i)) as [Hkm|Hkm]; [|lia].
    rewrite nth_mask_int, nth_repeat_lt in Hx0 by lia.
    exists (off + i - k). split; [|lia].
    destruct (nth (off + i - k) mask false); [done|simpl in Hx0; lia].
  - intros (Hi & j & Hj & Hrange).
    pose proof (nth_true_lt _ _ Hj) as HjM.
    unfold dilate.
    rewrite (nth_indep _ false ((fun c => (0 <? c)%Z) 0%Z))
      by (rewrite length_map, np_convolve_same_length;
          rewrite ?length_map, ?repeat_length; lia).
    rewrite map_nth. apply Z.ltb_lt. unfold np_convolve_same.
    rewrite length_map, repeat_length. fold off.
    rewrite nth_slice by done.
    apply (convolve_full_pos _ _ _ (off + i - j)).
    + apply Forall_forall. intros x Hx.
      apply list_elem_of_In, in_map_iff in Hx as ([] & <- & _); simpl; lia.
    + apply Forall_forall. intros x Hx.
      apply list_elem_of_In, repeat_spec in Hx. lia.
    + rewrite length_map, repeat_length. lia.
    + rewrite repeat_length. lia.
    + lia.
    + replace (off + i - (off + i - j)) with j by lia.
      rewrite nth_mask_int, Hj. simpl. lia.
    + rewrite nth_repeat_lt by lia. lia.
Qed.

(** X8.  Bridging with [b] frames on a mask of at least [2 * b + 1] frames
    marks a frame exactly when a marked frame is at most [b] frames
    away, and keeps the number of frames. *)
Theorem bridging_is_dilation (b : nat) (mask : list bool) (i : nat) :
  2 * b + 1 <= length mask ->
  length (dilate b mask) = length mask /\
  (nth i (dilate b mask) false = true <->
   i < length mask /\
   exists j, nth j mask false = true /\ j <= i + b /\ i <= j + b).
Proof.
  intros Hlen. split; [rewrite dilate_length; lia|].
  rewrite dilate_nth by lia.
  replace (Nat.min (length mask) (2 * b + 1)) with (2 * b + 1) by lia.
  replace (Nat.max (length mask) (2 * b + 1)) with (length mask) by lia.
  replace ((2 * b + 1 - 1) / 2) with b
    by (replace (2 * b + 1 - 1) with (b * 2) by lia; by rewrite Nat.div_mul).
  split; intros (Hi & j & Hj & Hr); (split; [done|]); exists j; (split; [done|]); lia.
Qed.

Lemma bridging_is_dilation_witness :
  length (dilate 1 [false; false; true; false; false]) = 5 /\
  (nth 1 (dilate 1 [false; false; true; false; false]) false = true <->
   1 < 5 /\
   exists j, nth j [false; false; true; false; false] false = true /\
             j <= 1 + 1 /\ 1 <= j + 1).
Proof. apply (bridging_is_dilation 1 [false; false; true; false; false] 1). simpl. lia. Defined.

(** X9.  On a recording shorter than the kernel, [np.convolve] in mode
    ["same"] returns an array of the kernel's length: the mask that
    [apply_vad] goes on with has more entries than there are frames. *)
Theorem bridge_mask_length (cfg : config) (mask : list bool) :
  0 < length mask ->
  length (bridge_mask cfg mask) =
    if (0 <? bridge_frames_of cfg)%Z
    then Nat.max (length mask) (2 * Z.to_nat (bridge_frames_of cfg) + 1)
    else length mask.
Proof.
  intros Hlen. rewrite bridge_mask_dilate. simpl.
  assert (Hb : length (if (0 <? bridge_frames_of cfg)%Z
                       then dilate (Z.to_nat (bridge_frames_of cfg)) mask else mask)
               = if (0 <? bridge_frames_of cfg)%Z
                 then Nat.max (length mask) (2 * Z.to_nat (bridge_frames_of cfg) + 1)
                 else length mask).
  { destruct (0 <? bridge_frames_of cfg)%Z; [by apply dilate_length|done]. }
  destruct (1 <? min_energy_frames_of cfg)%Z; [rewrite drop_short_runs_length|]; exact Hb.
Qed.

Lemma bridge_mask_length_witness :
  length (bridge_mask DEFAULT_CFG [true; false; false]) =
    if (0 <? bridge_frames_of DEFAULT_CFG)%Z
    then Nat.max (length [true; false; false])
                 (2 * Z.to_nat (bridge_frames_of DEFAULT_CFG) + 1)
    else length [true; false; false].
Proof. apply (bridge_mask_length DEFAULT_CFG [true; false; false]). simpl. lia. Defined.

(** ** The env file *)

Lemma split_once_app (sep : ascii) (a b : string) :
  no_sep sep a = true ->
  split_once sep (a +:+ String sep b) = Some (a, b).
Proof.
  induction a as [|c a IH]; simpl.
  - intros _. by rewrite Ascii.eqb_refl.
  - intros [Hc Ha]%andb_true_iff. apply negb_true_iff in Hc.
    rewrite ?append_String. simpl. by rewrite Hc, IH.
Qed.

Lemma rstrip_char_snoc (c : ascii) (s : string) :
  rstrip_char c (s +:+ String c EmptyString) = rstrip_char c s.
Proof.
  induction s as [|d s IH].
  - simpl. by rewrite Ascii.eqb_refl.
  - rewrite append_String. simpl. by rewrite IH.
Qed.

Lemma strip_char_quoted (c : ascii) (s : string) :
  strip_char c s = s ->
  strip_char c (String c s +:+ String c EmptyString) = s.
Proof.
  intros Hs. unfold strip_char in *. rewrite append_String. simpl.
  rewrite Ascii.eqb_refl.
  destruct s as [|d s].
  { simpl. by rewrite Ascii.eqb_refl. }
  destruct (Ascii.eqb d c) eqn:Ed.
  - (* the text starts with the quote: stripping it would change it *)
    exfalso. simpl in Hs. rewrite Ed in Hs.
    assert (Hlen : forall t, String.length (rstrip_char c t) <= String.length t).
    { induction t as [|x t IHt]; simpl; [done|].
      destruct (rstrip_char c t); [destruct (Ascii.eqb x c); simpl; lia|simpl in *; lia]. }
    assert (Hl : forall t, String.length (lstrip_char c t) <= String.length t).
    { induction t as [|x t IHt]; simpl; [done|].
      destruct (Ascii.eqb x c); simpl; lia. }
    pose proof (Hlen (lstrip_char c s)) as H1. pose proof (Hl s) as H2.
    rewrite Hs in H1. simpl in H1. lia.
  - rewrite append_String. simpl. rewrite Ed.
    change (String d (s +:+ String c EmptyString))
      with (String d s +:+ String c EmptyString)%string.
    rewrite rstrip_char_snoc. simpl in Hs. by rewrite Ed in Hs.
Qed.

Lemma rstrip_char_snoc_other (c d : ascii) (s : string) :
  Ascii.eqb d c = false ->
  rstrip_char c (s +:+ String d EmptyString) = (s +:+ String d EmptyString)%string.
Proof.
  intros Hd. induction s as [|x s IH].
  - simpl. by rewrite Hd.
  - rewrite append_String. simpl. rewrite IH.
    by destruct (s +:+ String d EmptyString)%string eqn:E; [destruct s|].
Qed.

Lemma strip_char_other (c d : ascii) (s : string) :
  Ascii.eqb d c = false ->
  strip_char c (String d s +:+ String d EmptyString)
  = (String d s +:+ String d EmptyString)%string.
Proof.
  intros Hd. unfold strip_char. rewrite append_String. simpl. rewrite Hd.
  change (String d (s +:+ String d EmptyString))
    with (String d s +:+ String d EmptyString)%string.
  by apply rstrip_char_snoc_other.
Qed.

Lemma strip_fixed (s : string) :
  strip s = s -> s = EmptyString \/ (head_ok s = true /\ last_ok s = true).
Proof.
  intros Hs. unfold strip in Hs.
  destruct (lstrip_head s) as [E|Hh].
  { left. by rewrite E in Hs. }
  destruct (rstrip_last (lstrip s)) as [E|Hl].
  { left. by rewrite E in Hs. }
  right. apply rstrip_head in Hh. by rewrite Hs in Hh, Hl.
Qed.

Lemma quoted_value (q : quoting) (value : string) :
  strip value = value ->
  ends_free double_quote value = true ->
  ends_free single_quote value = true ->
  strip_char single_quote (strip_char double_quote (strip (quoted q value))) = value.
Proof.
  intros Hs Hd%String.eqb_eq Hq%String.eqb_eq.
  assert (Hquote : forall c, is_space c = false ->
            strip (String c value +:+ String c EmptyString)
            = (String c value +:+ String c EmptyString)%string).
  { intros c Hc. apply strip_id.
    - rewrite append_String. simpl. by rewrite Hc.
    - apply last_ok_append. simpl. by rewrite Hc. }
  destruct q; simpl quoted.
  - by rewrite Hs, Hd, Hq.
  - rewrite Hquote by done. by rewrite strip_char_quoted, Hq.
  - rewrite Hquote by done. rewrite strip_char_other by done.
    by apply strip_char_quoted.
Qed.

Lemma rstrip_all_space (t : string) : all_space t = true -> rstrip t = EmptyString.
Proof.
  induction t as [|c t IH]; simpl; [done|].
  intros [Hc Ht]%andb_true_iff. by rewrite IH, Hc.
Qed.

Lemma rstrip_trailing (s t : string) :
  all_space t = true -> rstrip (s +:+ t) = rstrip s.
Proof.
  intros Ht. induction s as [|c s IH]; [by apply rstrip_all_space|].
  rewrite append_String. simpl. by rewrite IH.
Qed.

Lemma strip_trailing (s t : string) :
  head_ok s = true -> all_space t = true -> strip (s +:+ t) = strip s.
Proof.
  intros Hs Ht. unfold strip.
  rewrite (lstrip_id (s +:+ t)) by by apply head_ok_append.
  rewrite (lstrip_id s) by done. by apply rstrip_trailing.
Qed.

(** X21.  An assignment line gives its key the value, with or without quotes
    around it and whatever white space ends the line; the lines before it
    do not matter: the last assignment of a key wins. *)
Theorem env_assignment_read (q : quoting) (before : list string)
    (key value eol : string) :
  head_ok key = true -> last_ok key = true ->
  no_sep "=" key = true -> is_prefix "#" key = false ->
  strip value = value ->
  ends_free double_quote value = true ->
  ends_free single_quote value = true ->
  all_space eol = true ->
  load_env_file_values (before ++ [(key +:+ "=" +:+ quoted q value) +:+ eol]) !! key
  = Some value.
Proof.
  intros Hh Hl Hsep Hhash Hs Hd Hq Heol.
  unfold load_env_file_values. rewrite fold_left_app. simpl.
  generalize (fold_left env_line before ∅). intros values.
  set (rest := quoted q value).
  assert (Hrest : rest = EmptyString \/ last_ok rest = true).
  { unfold rest. destruct q; unfold quoted.
    - destruct (strip_fixed value Hs) as [->|[_ ?]]; [by left|by right].
    - right. by apply (last_ok_append (String double_quote value)).
    - right. by apply (last_ok_append (String single_quote value)). }
  assert (Hline : strip ((key +:+ "=" +:+ rest) +:+ eol) = (key +:+ "=" +:+ rest)%string).
  { rewrite strip_trailing; [|by apply head_ok_append|done].
    apply strip_id; [by apply head_ok_append|].
    apply last_ok_append.
    destruct Hrest as [->|Hr]; [done|].
    by apply (last_ok_append "="). }
  unfold env_line. rewrite Hline.
  assert (Hne : nonempty (key +:+ "=" +:+ rest) = true) by by destruct key.
  assert (Hnohash : is_prefix "#" (key +:+ "=" +:+ rest) = false).
  { destruct key as [|c key]; [done|]. rewrite append_String. simpl in *.
    by destruct (Ascii.eqb "#" c). }
  rewrite Hne, Hnohash. simpl negb. simpl orb. cbv iota.
  change (key +:+ "=" +:+ rest)%string with (key +:+ String "=" rest)%string.
  rewrite split_once_app by done.
  rewrite (strip_id key) by done.
  assert (Hk : nonempty key = true) by by destruct key.
  rewrite Hk. unfold rest. rewrite quoted_value by done.
  apply lookup_insert_eq.
Qed.

Lemma env_assignment_read_witness :
  load_env_file_values
    (["# the key" +:+ newline; "OPENAI_API_KEY=old" +:+ newline]
     ++ [("OPENAI_API_KEY" +:+ "=" +:+ quoted SingleQuoted "sk-test") +:+ newline])
  !! "OPENAI_API_KEY"%string
  = Some "sk-test"%string.
Proof.
  apply (env_assignment_read SingleQuoted
           ["# the key" +:+ newline; "OPENAI_API_KEY=old" +:+ newline]
           "OPENAI_API_KEY" "sk-test" newline); reflexivity.
Defined.

(** ** When the output of [apply_vad] is no longer than its input *)








